(** * The music-theory engine of ai-music-collaborator

    A shallow embedding of the harmonic and lyric analysis code found in
    - [api/src/modules/generate/guards/prosody.guard.ts]  (module [ProsodyGuard]),
    - [frontend/components/lyrics-editor.tsx]             (module [LyricsEditor]),
    - the reharmonization editor component                (module [ReharmEditor]),
    - the content policy service                          (module [ContentPolicyService]),
    preceded by the JavaScript primitives these files rely on (module [Js]). *)

From Stdlib Require Import ZArith List String Ascii Bool Lia Floats DecimalString.
Import ListNotations.

Set Warnings "-inexact-float".

Local Open Scope string_scope.
Local Open Scope list_scope.

(** Concatenation of strings (the [+] of JavaScript, and the splicing of
    template literals). *)
Infix "+&" := String.append (at level 60, right associativity).

(* ===================================================================== *)
(** * JavaScript primitives *)
(* ===================================================================== *)

Module Js.

(** ** Characters and strings

    A JavaScript string is a sequence of UTF-16 code units.  The embedding
    keeps the code units U+0000..U+00FF, one [ascii] each; on that range the
    operations below are the ECMAScript ones. *)

Definition code (c : ascii) : nat := nat_of_ascii c.

Definition between (lo hi : nat) (c : ascii) : bool :=
  (lo <=? code c)%nat && (code c <=? hi)%nat.

Definition is_upper (c : ascii) : bool := between 65 90 c.
Definition is_lower (c : ascii) : bool := between 97 122 c.
Definition is_digit (c : ascii) : bool := between 48 57 c.

(** The regular-expression class [\w], that is [[A-Za-z0-9_]]. *)
Definition is_word_char (c : ascii) : bool :=
  is_upper c || is_lower c || is_digit c || Ascii.eqb c "_".

(** WhiteSpace and LineTerminator code units below U+0100:
    TAB, LF, VT, FF, CR, SP and NBSP. *)
Definition is_space (c : ascii) : bool :=
  between 9 13 c || Ascii.eqb c " " || (code c =? 160)%nat.

(** [String.prototype.toLowerCase], one code unit at a time: A-Z and the
    capital letters U+00C0..U+00DE (the multiplication sign U+00D7 apart)
    move up by 32. *)
Definition lower_char (c : ascii) : ascii :=
  if is_upper c || (between 192 222 c && negb (code c =? 215)%nat)
  then ascii_of_nat (code c + 32) else c.

(** [String.prototype.toUpperCase] on the letters a-z.  The sources apply
    it to the seven roman numerals only, whose one character outside ASCII
    (the degree sign) has no case. *)
Definition upper_char (c : ascii) : ascii :=
  if is_lower c then ascii_of_nat (code c - 32) else c.

Fixpoint map_chars (f : ascii -> ascii) (s : string) : string :=
  match s with
  | EmptyString => EmptyString
  | String c s' => String (f c) (map_chars f s')
  end.

Definition toLowerCase : string -> string := map_chars lower_char.
Definition toUpperCase : string -> string := map_chars upper_char.

Fixpoint filter_chars (p : ascii -> bool) (s : string) : string :=
  match s with
  | EmptyString => EmptyString
  | String c s' => if p c then String c (filter_chars p s') else filter_chars p s'
  end.

(** [s.startsWith(p)] *)
Fixpoint startsWith (s p : string) : bool :=
  match p, s with
  | EmptyString, _ => true
  | String _ _, EmptyString => false
  | String a p', String b s' => Ascii.eqb a b && startsWith s' p'
  end.

(** [s.includes(sub)]: [sub] occurs in [s] as a contiguous substring. *)
Fixpoint includes (s sub : string) : bool :=
  startsWith s sub ||
  match s with
  | EmptyString => false
  | String _ s' => includes s' sub
  end.

(** [s.endsWith(p)] *)
Fixpoint endsWith (s p : string) : bool :=
  String.eqb s p ||
  match s with
  | EmptyString => false
  | String _ s' => endsWith s' p
  end.

Fixpoint trimStart (s : string) : string :=
  match s with
  | EmptyString => EmptyString
  | String c s' => if is_space c then trimStart s' else s
  end.

Fixpoint trimEnd (s : string) : string :=
  match s with
  | EmptyString => EmptyString
  | String c s' =>
      let t := trimEnd s' in
      if is_space c && String.eqb t EmptyString then EmptyString else String c t
  end.

Definition trim (s : string) : string := trimStart (trimEnd s).

(** [s.split(sep)] for a separator of one code unit: the pieces between
    the separators, empty pieces included; never the empty array. *)
Fixpoint split (sep : ascii) (s : string) : list string :=
  match s with
  | EmptyString => [EmptyString]
  | String c s' =>
      if Ascii.eqb c sep then EmptyString :: split sep s'
      else match split sep s' with
           | [] => [String c EmptyString]
           | w :: ws => String c w :: ws
           end
  end.

(** [s.slice(-n)]: the last [n] code units, the whole string when it is
    shorter. *)
Definition slice_last (n : nat) (s : string) : string :=
  String.substring (String.length s - n) n s.

(** [s.replace(/[^\w]/g, '')] *)
Definition strip_non_word : string -> string := filter_chars is_word_char.

(** [s.match(/[cls]/g)]: every code unit of the class, in order, or [null]
    ([None]) when there is none. *)
Fixpoint class_occurrences (cls : ascii -> bool) (s : string) : list ascii :=
  match s with
  | EmptyString => []
  | String c s' => if cls c then c :: class_occurrences cls s' else class_occurrences cls s'
  end.

Definition match_all (cls : ascii -> bool) (s : string) : option (list ascii) :=
  match class_occurrences cls s with
  | [] => None
  | m => Some m
  end.

(** Truthiness of [s.match(/[cls]{2,}/)]: somewhere in [s] two adjacent
    code units both belong to the class. *)
Fixpoint test_run2 (cls : ascii -> bool) (s : string) : bool :=
  match s with
  | String a (String b _ as s') => (cls a && cls b) || test_run2 cls s'
  | _ => false
  end.

(** Decimal rendering of an integral number, as template literals and
    [Number.prototype.toString] print it. *)
Definition string_of_Z (z : Z) : string := NilZero.string_of_int (Z.to_int z).

(** ** Arrays *)

Section Arrays.
Context {A : Type}.

(** [arr.findIndex(p)]: the first index whose element satisfies [p],
    [-1] when there is none. *)
Fixpoint findIndex_from (p : A -> bool) (l : list A) (i : Z) : Z :=
  match l with
  | [] => (-1)%Z
  | x :: l' => if p x then i else findIndex_from p l' (i + 1)%Z
  end.

Definition findIndex (p : A -> bool) (l : list A) : Z := findIndex_from p l 0%Z.

(** [arr.splice(start, 0, x)]: insert [x] in front of index [start];
    a negative [start] counts from the end, and the position is clamped
    to the array. *)
Definition splice_insert (start : Z) (x : A) (l : list A) : list A :=
  let len := Z.of_nat (List.length l) in
  let k := if (start <? 0)%Z then Z.max (len + start) 0 else Z.min start len in
  firstn (Z.to_nat k) l ++ x :: skipn (Z.to_nat k) l.

(** [arr[i] = x] for [0 <= i]: replaces the element at [i], appends when
    [i] is the length.  Beyond the length JavaScript pads the array with
    holes, which a [list A] cannot hold: the embedding answers [None]. *)
Definition array_set (i : nat) (x : A) (l : list A) : option (list A) :=
  if (i <=? List.length l)%nat then Some (firstn i l ++ x :: skipn (S i) l)
  else None.
End Arrays.

(** [arr.indexOf(x)] and [arr.includes(x)] on arrays of strings. *)
Definition indexOf (l : list string) (x : string) : Z := findIndex (String.eqb x) l.
Definition array_includes (l : list string) (x : string) : bool := existsb (String.eqb x) l.

(** ** Object literals used as dictionaries

    [o[k]] on an object literal finds the own property [k], and otherwise
    whatever [Object.prototype] defines under that name.  The inherited
    values are functions (an object for [__proto__]): truthy, and neither
    strings nor arrays. *)

Definition object_prototype_props : list string :=
  [ "constructor"; "hasOwnProperty"; "isPrototypeOf"; "propertyIsEnumerable";
    "toLocaleString"; "toString"; "valueOf"; "__proto__";
    "__defineGetter__"; "__defineSetter__"; "__lookupGetter__"; "__lookupSetter__" ].

Definition is_inherited (k : string) : bool :=
  existsb (String.eqb k) object_prototype_props.

Inductive property (A : Type) : Type :=
| Own (a : A)
| Inherited
| Absent.
Arguments Own {A} a.
Arguments Inherited {A}.
Arguments Absent {A}.

Fixpoint own {A : Type} (o : list (string * A)) (k : string) : option A :=
  match o with
  | [] => None
  | (k', a) :: o' => if String.eqb k k' then Some a else own o' k
  end.

Definition get {A : Type} (o : list (string * A)) (k : string) : property A :=
  match own o k with
  | Some a => Own a
  | None => if is_inherited k then Inherited else Absent
  end.

(** ** Exceptions and the clock

    A computation may read [Date.now()] any number of times and may throw.
    [clock n] is the value of the [n]-th reading since the program started;
    the state counts the readings made so far. *)

Inductive error : Type :=
| TypeError            (* a method called on a value that lacks it *)
| OutOfModel.          (* a value the TypeScript types exclude *)

Inductive result (A : Type) : Type :=
| Ok (a : A)
| Throw (e : error).
Arguments Ok {A} a.
Arguments Throw {A} e.

(** [a || b] where an own value is an array (always truthy). *)
Definition or_array (a b : property (list string)) : property (list string) :=
  match a with
  | Absent => b
  | _ => a
  end.

(** [a || b] where an own value is a string (falsy when empty). *)
Definition or_string (a b : property string) : property string :=
  match a with
  | Absent => b
  | Own EmptyString => b
  | _ => a
  end.

(** [v === s] for a string [s]: an inherited value and [undefined] are
    not strings. *)
Definition strict_eq_string (v : property string) (s : string) : bool :=
  match v with
  | Own s' => String.eqb s' s
  | _ => false
  end.

(** [v.includes(x)] and [v.indexOf(x)] on whatever a dictionary lookup
    produced: only an array has these methods. *)
Definition value_includes (v : property (list string)) (x : string) : result bool :=
  match v with
  | Own l => Ok (array_includes l x)
  | _ => Throw TypeError
  end.

Definition value_indexOf (v : property (list string)) (x : string) : result Z :=
  match v with
  | Own l => Ok (indexOf l x)
  | _ => Throw TypeError
  end.

Definition Clock : Type := nat -> Z.

Definition Eff (A : Type) : Type := Clock -> nat -> result (A * nat).

Definition ret {A : Type} (a : A) : Eff A := fun _ n => Ok (a, n).

Definition bind {A B : Type} (m : Eff A) (k : A -> Eff B) : Eff B :=
  fun clk n =>
    match m clk n with
    | Ok (a, n') => k a clk n'
    | Throw e => Throw e
    end.

Definition throw {A : Type} (e : error) : Eff A := fun _ _ => Throw e.

Definition date_now : Eff Z := fun clk n => Ok (clk n, S n).

Definition lift {A : Type} (r : result A) : Eff A :=
  match r with
  | Ok a => ret a
  | Throw e => throw e
  end.

(** [arr.map(f)] and [arr.forEach(f)] with an effectful callback: the
    elements are visited left to right. *)
Fixpoint mapM {A B : Type} (f : A -> Eff B) (l : list A) : Eff (list B) :=
  match l with
  | [] => ret []
  | x :: l' => bind (f x) (fun y => bind (mapM f l') (fun ys => ret (y :: ys)))
  end.

(** ** More strings, arrays and numbers *)

(** [s.slice(0, -n)] for [n > 0]: [s] without its last [n] code units. *)
Definition slice_drop_last (n : nat) (s : string) : string :=
  String.substring 0 (String.length s - n) s.

(** [s.match(/\b\w+\b/g) || []]: the maximal runs of word characters,
    from left to right.  [cur] is the run being read. *)
Fixpoint words_from (cur : string) (s : string) : list string :=
  match s with
  | EmptyString => if String.eqb cur EmptyString then [] else [cur]
  | String c s' =>
      if is_word_char c then words_from (cur +& String c EmptyString) s'
      else (if String.eqb cur EmptyString then [] else [cur]) ++ words_from EmptyString s'
  end.

Definition match_words (s : string) : list string := words_from EmptyString s.

(** [arr.map((x, index) => f(x, index))], the indices starting at [i]. *)
Fixpoint mapi_from {A B : Type} (f : A -> nat -> B) (i : nat) (l : list A) : list B :=
  match l with
  | [] => []
  | x :: l' => f x i :: mapi_from f (S i) l'
  end.

Definition mapi {A B : Type} (f : A -> nat -> B) (l : list A) : list B := mapi_from f 0 l.

(** [x % y] on numbers: the remainder of the truncating division, computed
    exactly; it takes the sign of the dividend.  A NaN operand, an infinite
    dividend or a zero divisor give NaN; an infinite divisor or a zero
    dividend give the dividend. *)
Definition float_rem (x y : float) : float :=
  match Prim2SF x, Prim2SF y with
  | S754_nan, _ => nan
  | _, S754_nan => nan
  | S754_infinity _, _ => nan
  | _, S754_zero _ => nan
  | S754_zero _, _ => x
  | _, S754_infinity _ => x
  | S754_finite sx mx ex, S754_finite _ my ey =>
      let e := Z.min ex ey in
      let X := (Zpos mx * 2 ^ (ex - e))%Z in
      let Y := (Zpos my * 2 ^ (ey - e))%Z in
      match (X mod Y)%Z with
      | Zpos r => SF2Prim (S754_finite sx r e)
      | _ => SF2Prim (S754_zero sx)
      end
  end.

(** The number that a length is; the conversion is exact below 2^53. *)
Definition number_of_nat (n : nat) : float :=
  PrimFloat.of_uint63 (Uint63.of_Z (Z.of_nat n)).

(** [Math.max(a, b)]: NaN as soon as an operand is NaN, and +0 counts as
    larger than -0. *)
Definition Math_max (a b : float) : float :=
  if PrimFloat.is_nan a || PrimFloat.is_nan b then nan
  else if PrimFloat.ltb a b then b
  else if PrimFloat.ltb b a then a
  else if PrimFloat.is_zero a && negb (PrimFloat.get_sign a) then a
  else b.

(** [arr.join(sep)] on an array of strings. *)
Definition join (sep : string) (l : list string) : string := String.concat sep l.

(** ** What the host provides

    [Math.pow], whose result the language fixes only up to an
    implementation-approximated value, and the regular expressions.  An
    expression is made from its source text, by a literal or by
    [new RegExp]; [match] and [replace] of [String.prototype] take it as an
    argument.  Every expression of the embedded code carries the flags gi
    and is made anew for each use, so that no [lastIndex] outlives a call. *)
Record Host : Type := mkHost {
  Math_pow : float -> float -> float;
  RegExp : Type;
  (* the literal [/source/gi] *)
  RegExp_literal : string -> RegExp;
  (* [new RegExp(source, flags)]; [None] is a [SyntaxError] *)
  RegExp_new : string -> string -> option RegExp;
  (* [s.match(re)] for a global [re]: [null], or the matched substrings *)
  string_match : string -> RegExp -> option (list string);
  (* [s.replace(re, replacement)] for a replacement without [$] *)
  string_replace : string -> RegExp -> string -> string
}.

End Js.

Notation "x <- m ;; k" := (Js.bind m (fun x => k))
  (at level 61, m at next level, right associativity).

(** The result monad alone, for code that throws but reads no clock. *)
Notation "x <-? m ;; k" :=
  (match m with Js.Ok x => k | Js.Throw e => Js.Throw e end)
  (at level 61, m at next level, right associativity).

(* ===================================================================== *)
(** * Regular-expression classes shared by the two syllable counters *)
(* ===================================================================== *)

Module Regex.

Definition in_class (chars : string) (c : ascii) : bool :=
  existsb (Ascii.eqb c) (list_ascii_of_string chars).

(** Canonicalize of the [i] flag (without [u]): the upper-case form of the
    code unit.  Below U+0100 the letters a-z and U+00E0..U+00FE (the
    division sign U+00F7 apart) move down by 32; the other code units either
    have no single upper-case code unit or map outside the range to a value
    that no other code unit of the range maps to, and stay as they are. *)
Definition canonicalize (c : ascii) : ascii :=
  if Js.is_lower c || (Js.between 224 254 c && negb (Js.code c =? 247)%nat)
  then ascii_of_nat (Js.code c - 32) else c.

Definition in_class_i (chars : string) (c : ascii) : bool :=
  existsb (fun d => Ascii.eqb (canonicalize c) (canonicalize d))
          (list_ascii_of_string chars).

(** [/[aeiouy]/gi] *)
Definition vowel_or_y_i : ascii -> bool := in_class_i "aeiouy".
(** [/[aeiou]{2,}/] *)
Definition vowel : ascii -> bool := in_class "aeiou".

End Regex.

(* ===================================================================== *)
(** * The syllable analysis record of the guard and of the lyrics editor *)
(* ===================================================================== *)

Module Syllable.

Inductive Stress := primary | secondary | unstressed.

(** [{ word, syllables, stress, position }] *)
Record Analysis : Type := mkAnalysis {
  word : string;
  syllables : Z;
  stress : Stress;
  position : nat
}.

End Syllable.

(* ===================================================================== *)
(** * prosody.guard.ts *)
(* ===================================================================== *)

Module ProsodyGuard.
Import Js.

Inductive WarningType := prosody_clash | non_diatonic | voice_leading | rhythm_conflict.
Inductive Severity := low | medium | high.

Record ProsodyWarning : Type := mkWarning {
  type : WarningType;
  severity : Severity;
  message : string;
  position : nat;
  suggestion : option string
}.

(** The chords reach the guard as [any[]]; it reads [root] and [quality]. *)
Record Chord : Type := mkChord { root : string; quality : string }.

(** The [projects] row as far as the guard reads it; [key] is a nullable
    column. *)
Record Project : Type := mkProject { key : option string }.

Definition majorScales : list (string * list string) :=
  [ ("C",  ["C"; "D"; "E"; "F"; "G"; "A"; "B"]);
    ("G",  ["G"; "A"; "B"; "C"; "D"; "E"; "F#"]);
    ("D",  ["D"; "E"; "F#"; "G"; "A"; "B"; "C#"]);
    ("A",  ["A"; "B"; "C#"; "D"; "E"; "F#"; "G#"]);
    ("E",  ["E"; "F#"; "G#"; "A"; "B"; "C#"; "D#"]);
    ("B",  ["B"; "C#"; "D#"; "E"; "F#"; "G#"; "A#"]);
    ("F#", ["F#"; "G#"; "A#"; "B"; "C#"; "D#"; "E#"]);
    ("F",  ["F"; "G"; "A"; "Bb"; "C"; "D"; "E"]);
    ("Bb", ["Bb"; "C"; "D"; "Eb"; "F"; "G"; "A"]);
    ("Eb", ["Eb"; "F"; "G"; "Ab"; "Bb"; "C"; "D"]);
    ("Ab", ["Ab"; "Bb"; "C"; "Db"; "Eb"; "F"; "G"]);
    ("Db", ["Db"; "Eb"; "F"; "Gb"; "Ab"; "Bb"; "C"]) ].

(** [majorScales[key] || majorScales['C']] *)
Definition getScale (key : string) : property (list string) :=
  or_array (get majorScales key) (get majorScales "C").

Definition resolutions : list (string * string) :=
  [ ("D", "G"); ("A", "D"); ("E", "A"); ("B", "E") ].

(** [resolutions[dominantRoot] || dominantRoot] *)
Definition getSecondaryDominantResolution (dominantRoot : string) : property string :=
  or_string (get resolutions dominantRoot) (Own dominantRoot).

Definition isSecondaryDominant (chord : Chord) (allChords : list Chord) (index : nat) : bool :=
  if negb (includes (quality chord) "7") || includes (quality chord) "maj7" then false
  else
    match nth_error allChords (index + 1) with
    | Some nextChord =>
        let resolution := getSecondaryDominantResolution (root chord) in
        strict_eq_string resolution (root nextChord)
    | None => false
    end.

Definition modalChords : list (string * list string) :=
  [ ("C", ["Bb"; "Ab"; "Eb"; "Db"; "Fm"]);
    ("G", ["F"; "Eb"; "Bb"; "Ab"; "Cm"]);
    ("D", ["C"; "Bb"; "F"; "Eb"; "Gm"]);
    ("A", ["G"; "F"; "C"; "Bb"; "Dm"]);
    ("E", ["D"; "C"; "G"; "F"; "Am"]);
    ("B", ["A"; "G"; "D"; "C"; "Em"]) ].

Definition isModalInterchange (chord : Chord) (key : string) : result bool :=
  let keyModalChords := or_array (get modalChords key) (Own []) in
  value_includes keyModalChords (root chord).

Definition nonDiatonicWarning (key : string) (chord : Chord) (index : nat) : ProsodyWarning :=
  {| type := non_diatonic;
     severity := medium;
     message := "Non-diatonic chord: " +& root chord +& quality chord;
     position := index;
     suggestion := Some ("Consider using a diatonic chord from " +& key +& " major scale") |}.

Definition secondaryDominantNote (chord : Chord) (index : nat) : ProsodyWarning :=
  {| type := non_diatonic;
     severity := low;
     message := "Secondary dominant detected: " +& root chord +& quality chord;
     position := index;
     suggestion := Some "This is a common jazz technique - verify intentional use" |}.

Definition modalInterchangeNote (chord : Chord) (index : nat) : ProsodyWarning :=
  {| type := non_diatonic;
     severity := low;
     message := "Modal interchange detected: " +& root chord +& quality chord;
     position := index;
     suggestion := Some "This borrows from parallel minor - verify intentional use" |}.

(** The body of the [forEach] callback: the warnings pushed for one chord. *)
Definition chordWarnings (key : string) (scale : property (list string))
    (chords : list Chord) (index : nat) (chord : Chord) : result (list ProsodyWarning) :=
  inScale <-? value_includes scale (root chord) ;;
  let w1 := if negb inScale then [nonDiatonicWarning key chord index] else [] in
  let w2 := if isSecondaryDominant chord chords index then [secondaryDominantNote chord index] else [] in
  modal <-? isModalInterchange chord key ;;
  let w3 := if modal then [modalInterchangeNote chord index] else [] in
  Ok (w1 ++ w2 ++ w3).

(** [chords.forEach((chord, index) => ...)] from position [index] on. *)
Fixpoint forEachChord (key : string) (scale : property (list string))
    (chords : list Chord) (index : nat) (rest : list Chord) : result (list ProsodyWarning) :=
  match rest with
  | [] => Ok []
  | chord :: rest' =>
      ws <-? chordWarnings key scale chords index chord ;;
      ws' <-? forEachChord key scale chords (S index) rest' ;;
      Ok (ws ++ ws')
  end.

(** [checkNonDiatonicWarnings(projectId, chords)].  [findOne] stands for
    [projectRepository.findOne({ where: { id } })]; a rejected promise is
    [Throw]. *)
Definition checkNonDiatonicWarnings (findOne : string -> option Project)
    (projectId : string) (chords : list Chord) : result (list ProsodyWarning) :=
  match findOne projectId with
  | None => Ok []
  | Some project =>
      match key project with
      | None => Ok []
      | Some EmptyString => Ok []
      | Some key =>
          let scale := getScale key in
          forEachChord key scale chords 0 chords
      end
  end.

Definition countSyllables (word : string) : Z :=
  match match_all Regex.vowel_or_y_i word with
  | None => 1
  | Some vowels =>
      let count := Z.of_nat (List.length vowels) in
      let count := if endsWith word "e" && (1 <? count)%Z then (count - 1)%Z else count in
      let count := if test_run2 Regex.vowel word then (count - 1)%Z else count in
      Z.max 1 count
  end.

Definition determineStress (word : string) (position : nat) : Syllable.Stress :=
  if (String.length word <=? 3)%nat then Syllable.unstressed
  else if (position mod 2 =? 0)%nat then Syllable.primary
  else Syllable.secondary.

Definition analyzeSyllables (text : string) : list Syllable.Analysis :=
  let words := match_words (toLowerCase text) in
  mapi (fun word index =>
          {| Syllable.word := word;
             Syllable.syllables := countSyllables word;
             Syllable.stress := determineStress word index;
             Syllable.position := index |}) words.

(** [(time * 120 / 60) % 4] and the two comparisons. *)
Definition isOnStrongBeat (time : float) : bool :=
  let beatPosition := float_rem (time * 120 / 60)%float 4%float in
  PrimFloat.ltb beatPosition 0.1%float ||
  PrimFloat.ltb (PrimFloat.abs (beatPosition - 2)%float) 0.1%float.

(** A melody note or a rhythm event, as far as the guard reads it. *)
Record Timed : Type := mkTimed { time : float }.

Definition quote : string := String (ascii_of_nat 34) EmptyString.

Definition stressedOffBeat (syllable : Syllable.Analysis) (index : nat) : ProsodyWarning :=
  {| type := prosody_clash;
     severity := medium;
     message := "Stressed syllable " +& quote +& Syllable.word syllable +& quote
                +& " not on strong beat";
     position := index;
     suggestion := Some "Consider moving the note to align with the beat" |}.

Definition unstressedOnBeat (syllable : Syllable.Analysis) (index : nat) : ProsodyWarning :=
  {| type := prosody_clash;
     severity := low;
     message := "Unstressed syllable " +& quote +& Syllable.word syllable +& quote
                +& " on strong beat";
     position := index;
     suggestion := Some "Consider using a weaker note or moving the syllable" |}.

Definition is_primary (s : Syllable.Stress) : bool :=
  match s with Syllable.primary => true | _ => false end.

Definition is_unstressed (s : Syllable.Stress) : bool :=
  match s with Syllable.unstressed => true | _ => false end.

(** The body of the [forEach] callback of [checkProsodyClashes]. *)
Definition noteWarnings (syllableAnalysis : list Syllable.Analysis)
    (note : Timed) (index : nat) : list ProsodyWarning :=
  match List.find (fun s => (Syllable.position s =? index)%nat) syllableAnalysis with
  | Some syllable =>
      (if is_primary (Syllable.stress syllable) && negb (isOnStrongBeat (time note))
       then [stressedOffBeat syllable index] else []) ++
      (if is_unstressed (Syllable.stress syllable) && isOnStrongBeat (time note)
       then [unstressedOnBeat syllable index] else [])
  | None => []
  end.

(** [checkProsodyClashes(projectId, lyrics, melodyNotes)] *)
Definition checkProsodyClashes (findOne : string -> option Project)
    (projectId lyrics : string) (melodyNotes : list Timed) : list ProsodyWarning :=
  match findOne projectId with
  | None => []
  | Some _ =>
      let syllableAnalysis := analyzeSyllables lyrics in
      List.concat (mapi (noteWarnings syllableAnalysis) melodyNotes)
  end.

Definition hasParallelFifths (chord1 chord2 : Chord) : bool := false.
Definition hasParallelOctaves (chord1 chord2 : Chord) : bool := false.
Definition hasLargeLeaps (chord1 chord2 : Chord) : bool := false.

Definition voiceLeadingWarning (sev : Severity) (msg sugg : string) (i : nat) : ProsodyWarning :=
  {| type := voice_leading; severity := sev; message := msg; position := i;
     suggestion := Some sugg |}.

(** The body of the [for] loop of [checkVoiceLeading] at index [i]. *)
Definition pairWarnings (prevChord currChord : Chord) (i : nat) : list ProsodyWarning :=
  (if hasParallelFifths prevChord currChord
   then [voiceLeadingWarning high "Parallel fifths detected between consecutive chords"
           "Consider using contrary motion or oblique motion" i] else []) ++
  (if hasParallelOctaves prevChord currChord
   then [voiceLeadingWarning high "Parallel octaves detected between consecutive chords"
           "Consider using contrary motion or oblique motion" i] else []) ++
  (if hasLargeLeaps prevChord currChord
   then [voiceLeadingWarning medium "Large melodic leaps detected"
           "Consider using stepwise motion or arpeggiation" i] else []).

(** [for (let i = ...; i < chords.length; i++)], at [i] with [prevChord]
    the chord at [i - 1] and [rest] the chords from [i] on. *)
Fixpoint voiceLeadingFrom (prevChord : Chord) (i : nat) (rest : list Chord)
    : list ProsodyWarning :=
  match rest with
  | [] => []
  | currChord :: rest' =>
      pairWarnings prevChord currChord i ++ voiceLeadingFrom currChord (S i) rest'
  end.

(** [checkVoiceLeading(projectId, chords)] *)
Definition checkVoiceLeading (projectId : string) (chords : list Chord) : list ProsodyWarning :=
  match chords with
  | [] => []
  | first :: rest => voiceLeadingFrom first 1 rest
  end.

Definition rhythmWarning (index : nat) : ProsodyWarning :=
  {| type := rhythm_conflict;
     severity := medium;
     message := "Melody note not aligned with rhythm pattern";
     position := index;
     suggestion := Some "Consider quantizing or adjusting timing" |}.

(** [Math.abs(r.time - note.time) < 0.1] *)
Definition near (r note : Timed) : bool :=
  PrimFloat.ltb (PrimFloat.abs (time r - time note)%float) 0.1%float.

(** [checkRhythmConflicts(projectId, melodyNotes, rhythmPattern)] *)
Definition checkRhythmConflicts (projectId : string)
    (melodyNotes rhythmPattern : list Timed) : list ProsodyWarning :=
  List.concat (mapi (fun note index =>
                  match List.find (fun r => near r note) rhythmPattern with
                  | Some _ => []
                  | None => [rhythmWarning index]
                  end) melodyNotes).

End ProsodyGuard.

(* ===================================================================== *)
(** * lyrics-editor.tsx *)
(* ===================================================================== *)

Module LyricsEditor.
Import Js.

Inductive Strength := perfect | slant | assonance.

Record RhymeGroup : Type := mkGroup {
  pattern : string;
  words : list string;
  strength : Strength
}.

Definition countSyllables (word : string) : Z :=
  match match_all Regex.vowel_or_y_i word with
  | None => 1
  | Some vowels =>
      let count := Z.of_nat (List.length vowels) in
      let count := if endsWith word "e" && (1 <? count)%Z then (count - 1)%Z else count in
      let count := if test_run2 Regex.vowel word then (count - 1)%Z else count in
      Z.max 1 count
  end.

Definition getRhymePattern (word : string) : string :=
  if (String.length word <=? 2)%nat then word else slice_last 2 word.

Definition newline : ascii := ascii_of_nat 10.

(** [text.split('\n').filter(line => line.trim())] *)
Definition lines (text : string) : list string :=
  filter (fun line => negb (String.eqb (trim line) "")) (split newline text).

(** The callback of [lines.map]: the last space-separated piece of the
    trimmed line, lower-cased, without its non-word characters.  [split]
    never yields the empty array, so [words[words.length - 1]] exists. *)
Definition endWord (line : string) : string :=
  let words := split " " (trim line) in
  strip_non_word (toLowerCase (List.last words "")).

Definition endWords (text : string) : list string := map endWord (lines text).

(** [groups.find(g => g.pattern === pattern)] followed by
    [group.words.push(word)]: the first group with that pattern grows in
    place. *)
Fixpoint pushToGroup (pat word : string) (groups : list RhymeGroup) : list RhymeGroup :=
  match groups with
  | [] => []
  | g :: groups' =>
      if String.eqb (pattern g) pat
      then {| pattern := pattern g; words := words g ++ [word]; strength := strength g |} :: groups'
      else g :: pushToGroup pat word groups'
  end.

(** One round of [endWords.forEach]; the state is [(groups, patterns)]. *)
Definition rhymeStep (st : list RhymeGroup * list string) (word : string)
    : list RhymeGroup * list string :=
  let '(groups, patterns) := st in
  let pat := getRhymePattern word in
  if negb (array_includes patterns pat)
  then (groups ++ [ {| pattern := pat; words := [word]; strength := perfect |} ],
        patterns ++ [pat])
  else (pushToGroup pat word groups, patterns).

Definition groupWords (ws : list string) : list RhymeGroup :=
  fst (fold_left rhymeStep ws ([], [])).

Definition analyzeRhymes (text : string) : list RhymeGroup :=
  filter (fun group => (1 <? List.length (words group))%nat) (groupWords (endWords text)).

Definition determineStress (word : string) (position : nat) : Syllable.Stress :=
  if (String.length word <=? 3)%nat then Syllable.unstressed
  else if (position mod 2 =? 0)%nat then Syllable.primary
  else Syllable.secondary.

Definition analyzeSyllables (text : string) : list Syllable.Analysis :=
  let words := match_words (toLowerCase text) in
  mapi (fun word index =>
          {| Syllable.word := word;
             Syllable.syllables := countSyllables word;
             Syllable.stress := determineStress word index;
             Syllable.position := index |}) words.

(** The two glyphs of the feet, BREVE (U+02D8) and MACRON (U+00AF), and
    the strings made of them, as lists of UTF-16 code units. *)
Definition breve : N := 728%N.
Definition macron : N := 175%N.

(** One breve for one syllable, breve and macron for two, breve and two
    macrons otherwise. *)
Definition glyphs (syllables : Z) : list N :=
  if (syllables =? 1)%Z then [breve]
  else if (syllables =? 2)%Z then [breve; macron]
  else [breve; macron; macron].

(** [words.forEach((word, index) => ...)] of [analyzeMeter]: the state is
    the feet pushed so far and the foot being built. *)
Fixpoint meterWords (words : list string) (index : nat) (feet : list (list N)) (foot : list N)
    : list (list N) * list N :=
  match words with
  | [] => (feet, foot)
  | word :: words' =>
      let syllables := countSyllables word in
      let foot := foot ++ glyphs syllables in
      if (index mod 2 =? 1)%nat then meterWords words' (S index) (feet ++ [foot]) []
      else meterWords words' (S index) feet foot
  end.

(** One round of [lines.forEach] of [analyzeMeter]. *)
Definition meterLine (feet : list (list N)) (line : string) : list (list N) :=
  let words := split " " (trim line) in
  let '(feet, foot) := meterWords words 0 feet [] in
  match foot with
  | [] => feet
  | _ => feet ++ [foot]
  end.

(** The [feet] array that [analyzeMeter] builds. *)
Definition meterFeet (text : string) : list (list N) :=
  fold_left meterLine (lines text) [].

Definition endings : list string :=
  [ "ing"; "ed"; "er"; "ly"; "tion"; "sion"; "ment"; "ness" ].

(** One round of [endings.forEach] of [getRhymeSuggestions]. *)
Definition suggestStep (word : string) (suggestions : list string) (ending : string)
    : list string :=
  if endsWith word ending then
    let base := slice_drop_last (String.length ending) word in
    suggestions ++ [base +& "ing"; base +& "ed"; base +& "er"]
  else suggestions.

Definition getRhymeSuggestions (word : string) : list string :=
  firstn 5 (fold_left (suggestStep word) endings []).

Record MeterAnalysis : Type := mkMeter {
  meter_pattern : list N;
  feet : list (list N);
  regularity : float;
  meter_suggestions : list string
}.

(** [feet.join(' ')], in code units. *)
Fixpoint joinFeet (feet : list (list N)) : list N :=
  match feet with
  | [] => []
  | [foot] => foot
  | foot :: feet' => foot ++ 32%N :: joinFeet feet'
  end.

Section WithHost.
Variable host : Host.

Definition calculateRegularity (feet : list (list N)) : float :=
  if (List.length feet <=? 1)%nat then 1%float
  else
    let patterns := map (fun foot => number_of_nat (List.length foot)) feet in
    let avgLength :=
      (fold_left (fun a b => a + b) patterns 0 / number_of_nat (List.length patterns))%float in
    let variance :=
      (fold_left (fun sum length => sum + Math_pow host (length - avgLength) 2) patterns 0
       / number_of_nat (List.length patterns))%float in
    Math_max 0 (1 - variance / avgLength)%float.

Definition generateMeterSuggestions (feet : list (list N)) (regularity : float)
    : list string :=
  (if PrimFloat.ltb regularity 0.7%float
   then [ "Consider more consistent syllable patterns";
          "Try alternating stressed and unstressed syllables" ]
   else []) ++
  (if (List.length feet <? 4)%nat then ["Add more lines for better structure"] else []).

Definition analyzeMeter (text : string) : MeterAnalysis :=
  let feet := meterFeet text in
  let pattern := joinFeet feet in
  let regularity := calculateRegularity feet in
  {| meter_pattern := pattern;
     feet := feet;
     regularity := regularity;
     meter_suggestions := generateMeterSuggestions feet regularity |}.

End WithHost.

End LyricsEditor.

(* ===================================================================== *)
(** * The reharmonization editor *)
(* ===================================================================== *)

Module ReharmEditor.
Import Js.

(** Numbers are IEEE 754 binary64 values, as in JavaScript. *)
Record Chord : Type := mkChord {
  id : string;
  root : string;
  quality : string;
  extensions : list string;
  function : string;
  roman : string;
  nashville : string;
  duration : float;
  position : float
}.

Inductive Complexity := basic | intermediate | advanced.

Record ReharmSuggestion : Type := mkSuggestion {
  sugg_id : string;
  sugg_description : string;
  sugg_chords : list Chord;
  sugg_complexity : Complexity;
  sugg_style : string;
  sugg_confidence : float
}.

(** An entry of [SECONDARY_DOMINANTS] or [MODAL_INTERCHANGE]. *)
Record TableChord : Type := mkEntry {
  entry_root : string;
  entry_quality : string;
  entry_function : string
}.

Definition CHORD_QUALITIES : list (string * list string) :=
  [ ("major",      [""; "maj7"; "maj9"; "maj13"]);
    ("minor",      ["m"; "m7"; "m9"; "m11"]);
    ("dominant",   ["7"; "9"; "11"; "13"]);
    ("diminished", ["dim"; "dim7"; "m7b5"]);
    ("augmented",  ["aug"; "aug7"]) ].

Definition SECONDARY_DOMINANTS : list (string * TableChord) :=
  [ ("V/V",   mkEntry "D" "7" "Secondary dominant to V");
    ("V/IV",  mkEntry "C" "7" "Secondary dominant to IV");
    ("V/vi",  mkEntry "E" "7" "Secondary dominant to vi");
    ("V/ii",  mkEntry "A" "7" "Secondary dominant to ii");
    ("V/iii", mkEntry "B" "7" "Secondary dominant to iii") ].

Definition MODAL_INTERCHANGE : list (string * TableChord) :=
  [ ("bVII", mkEntry "Bb" "7"    "Modal interchange from parallel minor");
    ("bVI",  mkEntry "Ab" "maj7" "Modal interchange from parallel minor");
    ("bIII", mkEntry "Eb" "maj7" "Modal interchange from parallel minor");
    ("bII",  mkEntry "Db" "maj7" "Modal interchange from parallel minor");
    ("iv",   mkEntry "Fm" "m7"   "Modal interchange from parallel minor") ].

Definition majorScales : list (string * list string) :=
  [ ("C",  ["C"; "D"; "E"; "F"; "G"; "A"; "B"]);
    ("G",  ["G"; "A"; "B"; "C"; "D"; "E"; "F#"]);
    ("D",  ["D"; "E"; "F#"; "G"; "A"; "B"; "C#"]);
    ("A",  ["A"; "B"; "C#"; "D"; "E"; "F#"; "G#"]);
    ("E",  ["E"; "F#"; "G#"; "A"; "B"; "C#"; "D#"]);
    ("B",  ["B"; "C#"; "D#"; "E"; "F#"; "G#"; "A#"]);
    ("F#", ["F#"; "G#"; "A#"; "B"; "C#"; "D#"; "E#"]);
    ("F",  ["F"; "G"; "A"; "Bb"; "C"; "D"; "E"]);
    ("Bb", ["Bb"; "C"; "D"; "Eb"; "F"; "G"; "A"]);
    ("Eb", ["Eb"; "F"; "G"; "Ab"; "Bb"; "C"; "D"]);
    ("Ab", ["Ab"; "Bb"; "C"; "Db"; "Eb"; "F"; "G"]);
    ("Db", ["Db"; "Eb"; "F"; "Gb"; "Ab"; "Bb"; "C"]) ].

(** [majorScales[key] || majorScales['C']] *)
Definition getScale (key : string) : property (list string) :=
  or_array (get majorScales key) (get majorScales "C").

(** The degree sign of [vii°] is the code unit U+00B0. *)
Definition numerals : list string :=
  [ "I"; "ii"; "iii"; "IV"; "V"; "vi"; "vii" +& String (ascii_of_nat 176) "" ].

Definition getRomanNumeral (root quality key : string) : result string :=
  let scale := getScale key in
  rootIndex <-? value_indexOf scale root ;;
  if (rootIndex =? -1)%Z then Ok root
  else
    match nth_error numerals (Z.to_nat rootIndex) with
    | None => Throw OutOfModel
    | Some numeral =>
        if includes quality "maj7" then Ok (toUpperCase numeral +& "maj7")
        else if includes quality "7" && negb (includes quality "maj7")
             then Ok (toUpperCase numeral +& "7")
        else if includes quality "m" then Ok (toLowerCase numeral)
        else Ok numeral
    end.

Definition getNashvilleNumber (root key : string) : result string :=
  let scale := getScale key in
  rootIndex <-? value_indexOf scale root ;;
  if negb (rootIndex =? -1)%Z then Ok (string_of_Z (rootIndex + 1)) else Ok root.

Definition secondaryTargetMap : list (string * string) :=
  [ ("V/V", "V"); ("V/IV", "IV"); ("V/vi", "vi"); ("V/ii", "ii"); ("V/iii", "iii") ].

Definition findTargetChordIndex (chords : list Chord) (function_ : string) : Z :=
  let target := get secondaryTargetMap function_ in
  findIndex (fun chord => strict_eq_string target (function chord)) chords.

Definition modalTargetMap : list (string * string) :=
  [ ("bVII", "VII"); ("bVI", "VI"); ("bIII", "III"); ("bII", "II"); ("iv", "IV") ].

Definition findModalInterchangeTarget (chords : list Chord) (function_ : string) : Z :=
  let target := get modalTargetMap function_ in
  findIndex (fun chord => strict_eq_string target (function chord)) chords.

Definition notes : list string :=
  [ "C"; "C#"; "D"; "D#"; "E"; "F"; "F#"; "G"; "G#"; "A"; "A#"; "B" ].

(** [%] is the remainder that takes the sign of the dividend; the index
    [(rootIndex + 6) % 12] always lies in the array. *)
Definition getTritoneSubstitution (root : string) : string :=
  let rootIndex := indexOf notes root in
  let tritoneIndex := Z.rem (rootIndex + 6) 12 in
  nth (Z.to_nat tritoneIndex) notes "".

Definition getExtendedHarmony (quality : string) : list string :=
  if includes quality "maj7" then ["9"; "13"]
  else if includes quality "m7" then ["9"; "11"]
  else if includes quality "7" then ["9"; "11"; "13"]
  else [].

(** A table lookup whose result is then read as an entry: [undefined]
    throws on the first field access; an inherited function would yield
    [undefined] fields, which the [Chord] type excludes. *)
Definition entry_of (v : property TableChord) : result TableChord :=
  match v with
  | Own e => Ok e
  | Absent => Throw TypeError
  | Inherited => Throw OutOfModel
  end.

(** [originalChords[targetIndex]] followed by a field access. *)
Definition chord_at (chords : list Chord) (i : Z) : result Chord :=
  match nth_error chords (Z.to_nat i) with
  | Some c => Ok c
  | None => Throw TypeError
  end.

Section WithKey.
(** The [key] property of the component. *)
Variable key : string.

Definition generateSecondaryDominantProgression
    (originalChords : list Chord) (function_ : string) : Eff (list Chord) :=
  let newChords := originalChords in
  let targetIndex := findTargetChordIndex originalChords function_ in
  if negb (targetIndex =? -1)%Z then
    secondaryDominant <- lift (entry_of (get SECONDARY_DOMINANTS function_)) ;;
    now <- date_now ;;
    roman_ <- lift (getRomanNumeral (entry_root secondaryDominant)
                                    (entry_quality secondaryDominant) key) ;;
    nashville_ <- lift (getNashvilleNumber (entry_root secondaryDominant) key) ;;
    target <- lift (chord_at originalChords targetIndex) ;;
    let newChord :=
      {| id := "secondary_" +& string_of_Z now;
         root := entry_root secondaryDominant;
         quality := entry_quality secondaryDominant;
         extensions := [];
         function := function_;
         roman := roman_;
         nashville := nashville_;
         duration := duration target;
         position := (position target - 0.5)%float |} in
    ret (splice_insert targetIndex newChord newChords)
  else ret newChords.

Definition generateModalInterchangeProgression
    (originalChords : list Chord) (function_ : string) : Eff (list Chord) :=
  let newChords := originalChords in
  let modalChord := get MODAL_INTERCHANGE function_ in
  let targetIndex := findModalInterchangeTarget originalChords function_ in
  if negb (targetIndex =? -1)%Z then
    modalChord <- lift (entry_of modalChord) ;;
    now <- date_now ;;
    roman_ <- lift (getRomanNumeral (entry_root modalChord) (entry_quality modalChord) key) ;;
    nashville_ <- lift (getNashvilleNumber (entry_root modalChord) key) ;;
    target <- lift (chord_at originalChords targetIndex) ;;
    let newChord :=
      {| id := "modal_" +& string_of_Z now;
         root := entry_root modalChord;
         quality := entry_quality modalChord;
         extensions := [];
         function := function_;
         roman := roman_;
         nashville := nashville_;
         duration := duration target;
         position := position target |} in
    match array_set (Z.to_nat targetIndex) newChord newChords with
    | Some updated => ret updated
    | None => throw OutOfModel
    end
  else ret newChords.

(** The callback of [originalChords.map] in [generateTritoneSubstitution]. *)
Definition tritoneChord (chord : Chord) : Eff Chord :=
  if includes (quality chord) "7" && negb (includes (quality chord) "maj7") then
    let tritoneRoot := getTritoneSubstitution (root chord) in
    now <- date_now ;;
    roman_ <- lift (getRomanNumeral tritoneRoot (quality chord) key) ;;
    nashville_ <- lift (getNashvilleNumber tritoneRoot key) ;;
    ret {| id := "tritone_" +& string_of_Z now;
           root := tritoneRoot;
           quality := quality chord;
           extensions := extensions chord;
           function := function chord;
           roman := roman_;
           nashville := nashville_;
           duration := duration chord;
           position := position chord |}
  else ret chord.

Definition generateTritoneSubstitution (originalChords : list Chord) : Eff (list Chord) :=
  mapM tritoneChord originalChords.

(** The callback of [originalChords.map] in [generateExtendedHarmony]. *)
Definition extendChord (chord : Chord) : Chord :=
  let extensions_ := getExtendedHarmony (quality chord) in
  {| id := id chord;
     root := root chord;
     quality := quality chord;
     extensions := extensions_;
     function := function chord;
     roman := roman chord;
     nashville := nashville chord;
     duration := duration chord;
     position := position chord |}.

Definition generateExtendedHarmony (originalChords : list Chord) : list Chord :=
  map extendChord originalChords.

Definition secondarySuggestion (chords : list Chord) (entry : string * TableChord)
    : Eff ReharmSuggestion :=
  let '(function_, chord) := entry in
  progression <- generateSecondaryDominantProgression chords function_ ;;
  ret {| sugg_id := "secondary_" +& function_;
         sugg_description :=
           "Add " +& function_ +& " (" +& entry_root chord +& entry_quality chord +& ")";
         sugg_chords := progression;
         sugg_complexity := intermediate;
         sugg_style := "Jazz";
         sugg_confidence := 0.8%float |}.

Definition modalSuggestion (chords : list Chord) (entry : string * TableChord)
    : Eff ReharmSuggestion :=
  let '(function_, chord) := entry in
  progression <- generateModalInterchangeProgression chords function_ ;;
  ret {| sugg_id := "modal_" +& function_;
         sugg_description :=
           "Add " +& function_ +& " (" +& entry_root chord +& entry_quality chord +& ")";
         sugg_chords := progression;
         sugg_complexity := advanced;
         sugg_style := "Rock/Pop";
         sugg_confidence := 0.7%float |}.

(** [generateSuggestions()], on the component's [chords] state; the
    result is the array handed to [setSuggestions]. *)
Definition generateSuggestions (chords : list Chord) : Eff (list ReharmSuggestion) :=
  secondary <- mapM (secondarySuggestion chords) SECONDARY_DOMINANTS ;;
  modal <- mapM (modalSuggestion chords) MODAL_INTERCHANGE ;;
  tritone <- generateTritoneSubstitution chords ;;
  let extended := generateExtendedHarmony chords in
  ret (secondary ++ modal ++
       [ {| sugg_id := "tritone_sub";
            sugg_description := "Tritone substitution for dominant chords";
            sugg_chords := tritone;
            sugg_complexity := advanced;
            sugg_style := "Jazz";
            sugg_confidence := 0.6%float |};
         {| sugg_id := "extended_harmony";
            sugg_description := "Add extended harmonies (9ths, 11ths, 13ths)";
            sugg_chords := extended;
            sugg_complexity := intermediate;
            sugg_style := "Jazz/Fusion";
            sugg_confidence := 0.9%float |} ]).
(** [for (let i = 1; i < chords.length; i++)] of the component's
    [checkProsodyClashes], with [prev] the chord at [i - 1]. *)
Fixpoint repeatedFrom (prev : Chord) (rest : list Chord) : list string :=
  match rest with
  | [] => []
  | curr :: rest' =>
      (if String.eqb (root prev) (root curr) && String.eqb (quality prev) (quality curr)
       then ["Repeated chord: " +& root prev +& quality prev] else [])
      ++ repeatedFrom curr rest'
  end.

(** [chords.forEach(chord => ...)] of the component's [checkProsodyClashes]. *)
Fixpoint nonDiatonicFrom (scale : property (list string)) (rest : list Chord)
    : result (list string) :=
  match rest with
  | [] => Ok []
  | chord :: rest' =>
      inScale <-? value_includes scale (root chord) ;;
      let w := if negb inScale && negb (startsWith (function chord) "b")
               then ["Non-diatonic chord: " +& root chord +& quality chord] else [] in
      ws <-? nonDiatonicFrom scale rest' ;;
      Ok (w ++ ws)
  end.

(** The component's [checkProsodyClashes()], on its [chords] state. *)
Definition checkProsodyClashes (chords : list Chord) : result (list string) :=
  let scale := getScale key in
  ws <-? nonDiatonicFrom scale chords ;;
  Ok (ws ++ match chords with
            | [] => []
            | first :: rest => repeatedFrom first rest
            end).

End WithKey.

End ReharmEditor.

(* ===================================================================== *)
(** * The content policy service *)
(* ===================================================================== *)

Module ContentPolicyService.
Import Js.

(** The enumeration [ContentPolicy] of the DTO file. *)
Inductive ContentPolicy := STRICT | MODERATE | PERMISSIVE.

(** The policy as far as [validateContent] reads it.  [styleDescriptorsOnly]
    is optional; [keywords] is no declared field of the DTO and is read all
    the same: [None] is [undefined]. *)
Record ContentPolicyDto : Type := mkPolicy {
  level : ContentPolicy;
  styleDescriptorsOnly : option bool;
  keywords : option (list string)
}.

Record ContentFilterResult : Type := mkResult {
  valid : bool;
  issues : list string;
  filteredContent : option string;
  suggestions : option (list string)
}.

(** [validateContent] is asynchronous: its promise is fulfilled, or
    rejected with the exception that one of the checks throws. *)
Inductive rejection := Type_error | Syntax_error.

Inductive settled (A : Type) : Type :=
| Fulfilled (a : A)
| Rejected (r : rejection).
Arguments Fulfilled {A} a.
Arguments Rejected {A} r.

Definition hatefulPatterns : list string :=
  [ "\b(hate|hatred|hateful)\b";
    "\b(racist|racism)\b";
    "\b(sexist|sexism)\b";
    "\b(homophobic|homophobia)\b";
    "\b(transphobic|transphobia)\b";
    "\b(antisemitic|antisemitism)\b";
    "\b(islamophobic|islamophobia)\b";
    "\b(discriminat(e|ion|ory))\b";
    "\b(bigot(ed|ry)?)\b";
    "\b(prejudice|prejudiced)\b" ].

Definition explicitPatterns : list string :=
  [ "\b(fuck|fucking|fucker)\b";
    "\b(shit|shitting|shitter)\b";
    "\b(ass|asshole)\b";
    "\b(bitch|bitching)\b";
    "\b(damn|damned|damning)\b";
    "\b(hell|hellish)\b";
    "\b(god\s*damn|goddamn)\b";
    "\b(bloody|bloodier|bloodiest)\b";
    "\b(bastard|bastards)\b";
    "\b(piss|pissing|pissed)\b" ].

Definition stylePatterns : list string :=
  [ "\b(jazz|blues|rock|pop|country|folk|classical|electronic|hip.?hop|r&b|reggae|punk|metal|indie|alternative)\b";
    "\b(happy|sad|melancholy|energetic|calm|aggressive|peaceful|romantic|mysterious|dark|bright|somber|joyful|angry|serene)\b";
    "\b(fast|slow|upbeat|downtempo|lively|relaxed|brisk|leisurely|urgent|laid.?back|driving|gentle|intense|soft|powerful)\b";
    "\b(piano|guitar|drums|bass|violin|trumpet|saxophone|flute|clarinet|organ|synth|strings|brass|woodwinds|percussion)\b";
    "\b(50s|60s|70s|80s|90s|2000s|2010s|2020s|vintage|modern|contemporary|retro|classic|new.?wave|disco|funk|grunge)\b" ].

(** What the three checks return: [filteredContent] is [undefined] when
    there is no issue, and [suggestions] is not set. *)
Definition checked (issues : list string) (filteredContent : string) : ContentFilterResult :=
  {| valid := (List.length issues =? 0)%nat;
     issues := issues;
     filteredContent := if (0 <? List.length issues)%nat then Some filteredContent else None;
     suggestions := None |}.

Section WithHost.
Variable host : Host.

Definition checkHatefulContent (content : string) : ContentFilterResult :=
  let '(issues, filteredContent) :=
    fold_left
      (fun '(issues, filteredContent) source =>
         let pattern := RegExp_literal host source in
         match string_match host content pattern with
         | Some matches =>
             (issues ++ ["Hateful content detected: " +& join ", " matches],
              string_replace host filteredContent pattern "[content removed]")
         | None => (issues, filteredContent)
         end)
      hatefulPatterns ([], content) in
  checked issues filteredContent.

Definition checkExplicitContent (content : string) : ContentFilterResult :=
  let '(issues, filteredContent) :=
    fold_left
      (fun '(issues, filteredContent) source =>
         let pattern := RegExp_literal host source in
         match string_match host content pattern with
         | Some matches =>
             (issues ++ ["Explicit content detected: " +& join ", " matches],
              string_replace host filteredContent pattern "[censored]")
         | None => (issues, filteredContent)
         end)
      explicitPatterns ([], content) in
  checked issues filteredContent.

Definition extractStyleDescriptors (content : string) : list string :=
  fold_left
    (fun descriptors source =>
       match string_match host content (RegExp_literal host source) with
       | Some matches => descriptors ++ matches
       | None => descriptors
       end)
    stylePatterns [].

Definition extractNonStyleContent (content : string) : list string :=
  let styleDescriptors := extractStyleDescriptors content in
  let allWords := match_words (toLowerCase content) in
  filter (fun word =>
            negb (existsb (fun desc => includes (toLowerCase desc) word) styleDescriptors))
         allWords.

Definition validateStyleDescriptors (content : string) : ContentFilterResult :=
  let styleDescriptors := extractStyleDescriptors content in
  let nonStyleContent := extractNonStyleContent content in
  if (0 <? List.length nonStyleContent)%nat
  then checked ["Non-style content detected: " +& join ", " nonStyleContent]
               (join " " styleDescriptors)
  else checked [] content.

(** [prohibitedKeywords.forEach(keyword => ...)]; the state is the issues
    and the filtered content so far.  A keyword that is no well-formed
    expression makes [new RegExp] throw. *)
Fixpoint keywordsFrom (content : string) (prohibitedKeywords : list string)
    (issues : list string) (filteredContent : string)
    : settled (list string * string) :=
  match prohibitedKeywords with
  | [] => Fulfilled (issues, filteredContent)
  | keyword :: rest =>
      match RegExp_new host ("\b" +& keyword +& "\b") "gi" with
      | None => Rejected Syntax_error
      | Some pattern =>
          match string_match host content pattern with
          | Some _ =>
              keywordsFrom content rest
                (issues ++ ["Prohibited keyword detected: " +& keyword])
                (string_replace host filteredContent pattern "[prohibited]")
          | None => keywordsFrom content rest issues filteredContent
          end
      end
  end.

Definition checkProhibitedKeywords (content : string)
    (prohibitedKeywords : option (list string)) : settled ContentFilterResult :=
  match prohibitedKeywords with
  | None => Rejected Type_error
  | Some prohibitedKeywords =>
      match keywordsFrom content prohibitedKeywords [] content with
      | Fulfilled (issues, filteredContent) => Fulfilled (checked issues filteredContent)
      | Rejected r => Rejected r
      end
  end.

Definition generateSuggestions (issues : list string) : list string :=
  (if existsb (fun issue => includes issue "Hateful content") issues
   then ["Consider using neutral language that promotes inclusivity"] else []) ++
  (if existsb (fun issue => includes issue "Explicit content") issues
   then ["Use family-friendly language suitable for all audiences"] else []) ++
  (if existsb (fun issue => includes issue "Non-style content") issues
   then ["Focus on musical style descriptors like genre, mood, tempo, and instrumentation"]
   else []) ++
  (if existsb (fun issue => includes issue "Prohibited keyword") issues
   then ["Review and replace prohibited keywords with appropriate alternatives"] else []).

(** The lines that follow each check of [validateContent]: when the check
    is not valid, its issues are added and the filtered content becomes
    [check.filteredContent || content]. *)
Definition takeOver (content : string) (st : list string * string)
    (check : ContentFilterResult) : list string * string :=
  if negb (valid check)
  then (fst st ++ issues check,
        match filteredContent check with
        | Some (String c s) => String c s
        | _ => content
        end)
  else st.

Definition validateContent (content : string) (policy : ContentPolicyDto)
    : settled ContentFilterResult :=
  let st := ([], content) in
  let st :=
    match level policy with
    | STRICT =>
        let st := takeOver content st (checkHatefulContent content) in
        takeOver content st (checkExplicitContent content)
    | _ => st
    end in
  let st :=
    match styleDescriptorsOnly policy with
    | Some true => takeOver content st (validateStyleDescriptors content)
    | _ => st
    end in
  match checkProhibitedKeywords content (keywords policy) with
  | Rejected r => Rejected r
  | Fulfilled keywordCheck =>
      let '(issues, filteredContent) := takeOver content st keywordCheck in
      Fulfilled {| valid := (List.length issues =? 0)%nat;
                   issues := issues;
                   filteredContent := Some filteredContent;
                   suggestions := Some (generateSuggestions issues) |}
  end.

End WithHost.

End ContentPolicyService.


(* ===================================================================== *)
(** * Notions used to state the properties *)
(* ===================================================================== *)

Module Props.
Import Js.

(** The syllable count as the specification words it: one per maximal run
    of characters of [[aeiouy]], one less for a final "e" when the count
    exceeds 1, and never less than 1.  [inside] tells whether the previous
    character belonged to a run. *)
Fixpoint vowelRuns (inside : bool) (s : string) : Z :=
  match s with
  | EmptyString => 0
  | String c s' =>
      if Regex.in_class "aeiouy" c
      then ((if inside then 0 else 1) + vowelRuns true s')%Z
      else vowelRuns false s'
  end.

Definition countSyllables_by_runs (word : string) : Z :=
  let count := vowelRuns false word in
  let count := if endsWith word "e" && (1 <? count)%Z then (count - 1)%Z else count in
  Z.max 1 count.

(** The number of code units of [word] that [/[aeiouy]/gi] matches. *)
Definition vowelCount (word : string) : Z :=
  Z.of_nat (List.length (filter Regex.vowel_or_y_i (list_ascii_of_string word))).

Definition ends_in_e (word : string) : Prop :=
  exists p, word = p +& "e".

(** Two adjacent characters of [word] are lower-case vowels other than y. *)
Definition has_vowel_pair (word : string) : Prop :=
  exists p a b q, word = p +& String a (String b q)
                  /\ Regex.vowel a = true /\ Regex.vowel b = true.

(** [z] is 1 when [P] holds and 0 otherwise. *)
Definition indicator (P : Prop) (z : Z) : Prop :=
  (P /\ z = 1%Z) \/ (~ P /\ z = 0%Z).

(** A line whose final word is [w] falls into the rhyme group [g]. *)
Definition falls_into (w : string) (g : LyricsEditor.RhymeGroup) : Prop :=
  In w (LyricsEditor.words g).

(** The words of [ws] whose rhyme pattern is [pat], in order. *)
Definition words_with_pattern (pat : string) (ws : list string) : list string :=
  filter (fun w => String.eqb (LyricsEditor.getRhymePattern w) pat) ws.

(** What holds of the state [(groups, patterns)] of the grouping loop once
    it has gone through the words [ws]. *)
Definition grouped (ws : list string) (st : list LyricsEditor.RhymeGroup * list string) : Prop :=
  map LyricsEditor.pattern (fst st) = snd st /\
  NoDup (snd st) /\
  (forall g, In g (fst st) ->
             LyricsEditor.words g = words_with_pattern (LyricsEditor.pattern g) ws) /\
  (forall w, In w ws -> In (LyricsEditor.getRhymePattern w) (snd st)).

(** A text of two lines. *)
Definition two_lines (a b : string) : string := a +& String LyricsEditor.newline b.

(** The progression of a suggestion is at least as long as [chords]. *)
Definition never_shorter (chords : list ReharmEditor.Chord)
    (s : ReharmEditor.ReharmSuggestion) : Prop :=
  (List.length chords <= List.length (ReharmEditor.sugg_chords s))%nat.

(** What a caller sees of a run: the value or the exception. *)
Definition outcome {A : Type} (r : result (A * nat)) : result A :=
  match r with
  | Ok (a, _) => Ok a
  | Throw e => Throw e
  end.

(** The chord of [chords] at index [i] is the first one whose
    [function] tag is [target]. *)
Definition first_target (target : string) (pre : list ReharmEditor.Chord)
    (t : ReharmEditor.Chord) : Prop :=
  Forall (fun c => ReharmEditor.function c <> target) pre /\ ReharmEditor.function t = target.

(** [c'] is [c] with, at most, other extensions. *)
Definition same_but_extensions (c c' : ReharmEditor.Chord) : Prop :=
  ReharmEditor.id c' = ReharmEditor.id c /\
  ReharmEditor.root c' = ReharmEditor.root c /\
  ReharmEditor.quality c' = ReharmEditor.quality c /\
  ReharmEditor.function c' = ReharmEditor.function c /\
  ReharmEditor.roman c' = ReharmEditor.roman c /\
  ReharmEditor.nashville c' = ReharmEditor.nashville c /\
  ReharmEditor.duration c' = ReharmEditor.duration c /\
  ReharmEditor.position c' = ReharmEditor.position c.

(** The quality [quality] contains the marker [m]: some characters, then
    [m], then some characters. *)
Definition contains (quality m : string) : Prop :=
  exists p r, quality = p +& m +& r.

(** The extensions that go with a quality, by the markers it contains:
    9 and 13 with maj7; failing that, 9 and 11 with m7; failing that, 9, 11
    and 13 with 7; nothing without any 7. *)
Definition extensions_by_marker (quality : string) (ext : list string) : Prop :=
  (contains quality "maj7" -> ext = ["9"; "13"]) /\
  (~ contains quality "maj7" -> contains quality "m7" -> ext = ["9"; "11"]) /\
  (~ contains quality "maj7" -> ~ contains quality "m7" -> contains quality "7" ->
   ext = ["9"; "11"; "13"]) /\
  (~ contains quality "7" -> ext = []).

(** Follows the claim's words, quality by quality: maj7 gets 9 and 13, m7
    gets 9 and 11, the plain 7 gets 9, 11 and 13, every other quality gets
    nothing. *)
Definition extensions_by_name (quality : string) : list string :=
  if String.eqb quality "maj7" then ["9"; "13"]
  else if String.eqb quality "m7" then ["9"; "11"]
  else if String.eqb quality "7" then ["9"; "11"; "13"]
  else [].

(** A diminished seventh chord on B. *)
Definition chord_dim7 : ReharmEditor.Chord :=
  ReharmEditor.mkChord "c4" "B" "dim7" [] "vii" "vii" "7" 4%float 0%float.

(** A G major chord on the fifth degree, four beats long, starting at
    beat 2, and a G7 chord in its place. *)
Definition chord_V : ReharmEditor.Chord :=
  ReharmEditor.mkChord "c1" "G" "" [] "V" "V" "5" 4%float 2%float.

Definition chord_V7 : ReharmEditor.Chord :=
  ReharmEditor.mkChord "c2" "G" "7" [] "V" "V7" "5" 4%float 2%float.

(** The C major scale. *)
Definition c_major : list string := ["C"; "D"; "E"; "F"; "G"; "A"; "B"].

(** The warnings that the chord [chord] at index [i] gives rise to: the
    three tests are independent of one another. *)
Definition warnings_of_chord (key : string) (scale : list string)
    (chords : list ProsodyGuard.Chord) (i : nat) (chord : ProsodyGuard.Chord)
    : list ProsodyGuard.ProsodyWarning :=
  (if array_includes scale (ProsodyGuard.root chord) then []
   else [ProsodyGuard.nonDiatonicWarning key chord i]) ++
  (if ProsodyGuard.isSecondaryDominant chord chords i
   then [ProsodyGuard.secondaryDominantNote chord i] else []) ++
  (match ProsodyGuard.isModalInterchange chord key with
   | Ok true => [ProsodyGuard.modalInterchangeNote chord i]
   | _ => []
   end).

(** A repository that holds one project, in the given key, under every
    identifier. *)
Definition project_in (key : string) : string -> option ProsodyGuard.Project :=
  fun _ => Some (ProsodyGuard.mkProject (Some key)).

(** A quality with a dominant seventh: it has the 7 marker and is not a
    major seventh ([quality.includes('7') && !quality.includes('maj7')]). *)
Definition is_dominant7 (quality : string) : bool :=
  includes quality "7" && negb (includes quality "maj7").

(** Somewhere in [chords] two neighbours have the same root and quality. *)
Definition adjacent_repeat (chords : list ReharmEditor.Chord) : Prop :=
  exists pre a b post,
    chords = pre ++ a :: b :: post /\
    ReharmEditor.root a = ReharmEditor.root b /\
    ReharmEditor.quality a = ReharmEditor.quality b.

(** The characters that survive lower-casing and the removal of non-word
    characters: a-z, 0-9 and the underscore. *)
Definition plain_char (c : ascii) : bool :=
  is_lower c || is_digit c || Ascii.eqb c "_".

Definition all_chars (p : ascii -> bool) (s : string) : Prop :=
  Forall (fun c => p c = true) (list_ascii_of_string s).

(** The number of feet that a line of the lyrics gives: one per pair of
    space-separated pieces, and one for a piece left alone. *)
Definition feet_of_line (line : string) : nat :=
  (List.length (split " " (trim line)) + 1) / 2.

(** What the twelve suggestions carry besides their progression. *)
Definition suggestion_header (s : ReharmEditor.ReharmSuggestion)
    : string * string * ReharmEditor.Complexity * string * float :=
  (ReharmEditor.sugg_id s, ReharmEditor.sugg_description s,
   ReharmEditor.sugg_complexity s, ReharmEditor.sugg_style s,
   ReharmEditor.sugg_confidence s).

Definition suggestion_headers
    : list (string * string * ReharmEditor.Complexity * string * float) :=
  [ ("secondary_V/V", "Add V/V (D7)", ReharmEditor.intermediate, "Jazz", 0.8%float);
    ("secondary_V/IV", "Add V/IV (C7)", ReharmEditor.intermediate, "Jazz", 0.8%float);
    ("secondary_V/vi", "Add V/vi (E7)", ReharmEditor.intermediate, "Jazz", 0.8%float);
    ("secondary_V/ii", "Add V/ii (A7)", ReharmEditor.intermediate, "Jazz", 0.8%float);
    ("secondary_V/iii", "Add V/iii (B7)", ReharmEditor.intermediate, "Jazz", 0.8%float);
    ("modal_bVII", "Add bVII (Bb7)", ReharmEditor.advanced, "Rock/Pop", 0.7%float);
    ("modal_bVI", "Add bVI (Abmaj7)", ReharmEditor.advanced, "Rock/Pop", 0.7%float);
    ("modal_bIII", "Add bIII (Ebmaj7)", ReharmEditor.advanced, "Rock/Pop", 0.7%float);
    ("modal_bII", "Add bII (Dbmaj7)", ReharmEditor.advanced, "Rock/Pop", 0.7%float);
    ("modal_iv", "Add iv (Fmm7)", ReharmEditor.advanced, "Rock/Pop", 0.7%float);
    ("tritone_sub", "Tritone substitution for dominant chords",
     ReharmEditor.advanced, "Jazz", 0.6%float);
    ("extended_harmony", "Add extended harmonies (9ths, 11ths, 13ths)",
     ReharmEditor.intermediate, "Jazz/Fusion", 0.9%float) ].

(** The three suggestions that an ending of the word gives rise to. *)
Definition suggestions_for (word ending : string) : list string :=
  if endsWith word ending then
    let base := slice_drop_last (String.length ending) word in
    [base +& "ing"; base +& "ed"; base +& "er"]
  else [].

(** No ending of the list is the tail of another one. *)
Definition no_ending_nested : bool :=
  forallb (fun e1 =>
    forallb (fun e2 =>
      String.eqb e1 e2 ||
      negb (String.length e1 <=? String.length e2)%nat ||
      negb (String.eqb (slice_last (String.length e1) e2) e1))
      LyricsEditor.endings) LyricsEditor.endings.

(** A foot has between one and six glyphs. *)
Definition foot_sized (foot : list N) : Prop :=
  (1 <= List.length foot <= 6)%nat.

(** The line that the editor's check writes for one chord. *)
Definition nonDiatonicLine (scale : list string) (c : ReharmEditor.Chord) : list string :=
  if negb (array_includes scale (ReharmEditor.root c)) &&
     negb (startsWith (ReharmEditor.function c) "b")
  then ["Non-diatonic chord: " +& ReharmEditor.root c +& ReharmEditor.quality c] else [].

(** What the tritone strategy does to one chord. *)
Definition tritone_image (c c' : ReharmEditor.Chord) : Prop :=
  if is_dominant7 (ReharmEditor.quality c)
  then ReharmEditor.root c' = ReharmEditor.getTritoneSubstitution (ReharmEditor.root c) /\
       ReharmEditor.quality c' = ReharmEditor.quality c /\
       ReharmEditor.extensions c' = ReharmEditor.extensions c /\
       ReharmEditor.function c' = ReharmEditor.function c /\
       ReharmEditor.duration c' = ReharmEditor.duration c /\
       ReharmEditor.position c' = ReharmEditor.position c
  else c' = c.

(** ** The outcome of a call, before the clock is read

    A chord of a suggested progression is either settled, whatever the
    clock, or built by a strategy, with an [id] made of a prefix and the
    reading taken when the chord is built. *)
Inductive slot : Type :=
| Kept (c : ReharmEditor.Chord)
| Fresh (prefix : string) (c : ReharmEditor.Chord).

Definition stamped (prefix : string) (now : Z) (c : ReharmEditor.Chord) : ReharmEditor.Chord :=
  {| ReharmEditor.id := prefix +& string_of_Z now;
     ReharmEditor.root := ReharmEditor.root c;
     ReharmEditor.quality := ReharmEditor.quality c;
     ReharmEditor.extensions := ReharmEditor.extensions c;
     ReharmEditor.function := ReharmEditor.function c;
     ReharmEditor.roman := ReharmEditor.roman c;
     ReharmEditor.nashville := ReharmEditor.nashville c;
     ReharmEditor.duration := ReharmEditor.duration c;
     ReharmEditor.position := ReharmEditor.position c |}.

(** The chord of a slot for the clock [clk], of which [n] readings have
    been made, and the number of readings made afterwards. *)
Definition fill_slot (clk : Clock) (n : nat) (s : slot) : ReharmEditor.Chord * nat :=
  match s with
  | Kept c => (c, n)
  | Fresh prefix c => (stamped prefix (clk n) c, S n)
  end.

(** The same for a list, from left to right. *)
Fixpoint fill_all {T A : Type} (fill : Clock -> nat -> T -> A * nat)
    (clk : Clock) (n : nat) (l : list T) : list A * nat :=
  match l with
  | [] => ([], n)
  | s :: l' =>
      let '(a, n1) := fill clk n s in
      let '(r, n2) := fill_all fill clk n1 l' in
      (a :: r, n2)
  end.

(** A suggestion before the clock is read: what it carries besides its
    progression, and the slots of the progression. *)
Definition plan : Type :=
  (string * string * ReharmEditor.Complexity * string * float) * list slot.

Definition with_chords (header : string * string * ReharmEditor.Complexity * string * float)
    (chords : list ReharmEditor.Chord) : ReharmEditor.ReharmSuggestion :=
  let '(id_, description, complexity, style, confidence) := header in
  {| ReharmEditor.sugg_id := id_;
     ReharmEditor.sugg_description := description;
     ReharmEditor.sugg_chords := chords;
     ReharmEditor.sugg_complexity := complexity;
     ReharmEditor.sugg_style := style;
     ReharmEditor.sugg_confidence := confidence |}.

Definition fill_plan (clk : Clock) (n : nat) (p : plan) : ReharmEditor.ReharmSuggestion * nat :=
  let '(chords, n') := fill_all fill_slot clk n (snd p) in
  (with_chords (fst p) chords, n').

(** The prefixes of the identifiers that the three strategies make. *)
Definition generated_prefixes : list string := ["secondary_"; "modal_"; "tritone_"].

(** A slot of a suggestion for the progression [chords]: a settled chord
    is a chord of the progression, with its [id], but for the extensions; a
    chord built by a strategy has one of the three prefixes. *)
Definition slot_from (chords : list ReharmEditor.Chord) (s : slot) : Prop :=
  match s with
  | Kept c => exists c0, In c0 chords /\ same_but_extensions c0 c
  | Fresh prefix _ => In prefix generated_prefixes
  end.

(** The computation [m] throws the same exception whatever the clock, or
    returns what some [s], fixed before the clock is read, makes of the
    clock. *)
Definition shaped {T A : Type} (P : T -> Prop) (fill : Clock -> nat -> T -> A * nat)
    (m : Eff A) : Prop :=
  (exists e, forall clk n, m clk n = Throw e) \/
  (exists s, P s /\ forall clk n, m clk n = Ok (fill clk n s)).

(** ** The public functions

    A call of one of the public functions of the engine, with its inputs.
    The repository that the guard consults and the key of the editor are
    inputs. *)
Inductive entry_point : Type :=
| guard_analyzeSyllables (text : string)
| guard_checkProsodyClashes (findOne : string -> option ProsodyGuard.Project)
    (projectId lyrics : string) (melodyNotes : list ProsodyGuard.Timed)
| guard_checkNonDiatonicWarnings (findOne : string -> option ProsodyGuard.Project)
    (projectId : string) (chords : list ProsodyGuard.Chord)
| guard_checkVoiceLeading (projectId : string) (chords : list ProsodyGuard.Chord)
| guard_checkRhythmConflicts (projectId : string)
    (melodyNotes rhythmPattern : list ProsodyGuard.Timed)
| guard_isSecondaryDominant (chord : ProsodyGuard.Chord)
    (allChords : list ProsodyGuard.Chord) (index : nat)
| guard_isModalInterchange (chord : ProsodyGuard.Chord) (key : string)
| lyrics_analyzeSyllables (text : string)
| lyrics_analyzeMeter (text : string)
| lyrics_analyzeRhymes (text : string)
| lyrics_getRhymeSuggestions (word : string)
| reharm_checkProsodyClashes (key : string) (chords : list ReharmEditor.Chord)
| reharm_generateSuggestions (key : string) (chords : list ReharmEditor.Chord)
| policy_validateContent (content : string) (policy : ContentPolicyService.ContentPolicyDto).

(** What a call produces: a value, or the exception thrown. *)
Inductive answer : Type :=
| Tokens (l : list Syllable.Analysis)
| Warnings (r : result (list ProsodyGuard.ProsodyWarning))
| Verdict (r : result bool)
| Meter (m : LyricsEditor.MeterAnalysis)
| Rhymes (l : list LyricsEditor.RhymeGroup)
| Words (l : list string)
| Lines (r : result (list string))
| Suggestions (r : result (list ReharmEditor.ReharmSuggestion))
| Filtered (r : ContentPolicyService.settled ContentPolicyService.ContentFilterResult).

(** The call [c] made on the host [host] when the clock is [clk] and [n]
    readings have been made. *)
Definition invoke (host : Host) (clk : Clock) (n : nat) (c : entry_point) : answer :=
  match c with
  | guard_analyzeSyllables text => Tokens (ProsodyGuard.analyzeSyllables text)
  | guard_checkProsodyClashes findOne projectId lyrics melodyNotes =>
      Warnings (Ok (ProsodyGuard.checkProsodyClashes findOne projectId lyrics melodyNotes))
  | guard_checkNonDiatonicWarnings findOne projectId chords =>
      Warnings (ProsodyGuard.checkNonDiatonicWarnings findOne projectId chords)
  | guard_checkVoiceLeading projectId chords =>
      Warnings (Ok (ProsodyGuard.checkVoiceLeading projectId chords))
  | guard_checkRhythmConflicts projectId melodyNotes rhythmPattern =>
      Warnings (Ok (ProsodyGuard.checkRhythmConflicts projectId melodyNotes rhythmPattern))
  | guard_isSecondaryDominant chord allChords index =>
      Verdict (Ok (ProsodyGuard.isSecondaryDominant chord allChords index))
  | guard_isModalInterchange chord key =>
      Verdict (ProsodyGuard.isModalInterchange chord key)
  | lyrics_analyzeSyllables text => Tokens (LyricsEditor.analyzeSyllables text)
  | lyrics_analyzeMeter text => Meter (LyricsEditor.analyzeMeter host text)
  | lyrics_analyzeRhymes text => Rhymes (LyricsEditor.analyzeRhymes text)
  | lyrics_getRhymeSuggestions word => Words (LyricsEditor.getRhymeSuggestions word)
  | reharm_checkProsodyClashes key chords =>
      Lines (ReharmEditor.checkProsodyClashes key chords)
  | reharm_generateSuggestions key chords =>
      Suggestions (outcome (ReharmEditor.generateSuggestions key chords clk n))
  | policy_validateContent content policy =>
      Filtered (ContentPolicyService.validateContent host content policy)
  end.

(** What is settled of an answer before the clock is read: all of it, or
    the plans of the suggestions. *)
Inductive outline : Type :=
| Settled (a : answer)
| Planned (plans : list plan).

Definition realise (clk : Clock) (n : nat) (o : outline) : answer :=
  match o with
  | Settled a => a
  | Planned plans => Suggestions (Ok (fst (fill_all fill_plan clk n plans)))
  end.


End Props.

(* ===================================================================== *)
(** * Facts about the JavaScript primitives *)
(* ===================================================================== *)

Module JsLemmas.
Import Js.

Lemma append_assoc (a b c : string) : (a +& b) +& c = a +& (b +& c).
Proof. induction a as [|x a IH]; simpl; [reflexivity | now rewrite IH]. Qed.

Lemma append_empty_r (a : string) : a +& "" = a.
Proof. induction a as [|x a IH]; simpl; [reflexivity | now rewrite IH]. Qed.

Lemma startsWith_iff (s p : string) :
  startsWith s p = true <-> exists r, s = p +& r.
Proof.
  revert s; induction p as [|x p IH]; intros s.
  - destruct s; simpl; (split; [intros _; eexists; reflexivity | reflexivity]).
  - destruct s as [|y s]; simpl.
    + split; [discriminate | intros [r H]; discriminate].
    + rewrite andb_true_iff, Ascii.eqb_eq, IH. split.
      * intros [-> [r ->]]. now exists r.
      * intros [r H]. injection H as -> ->. split; [reflexivity | now exists r].
Qed.

Lemma includes_skip (p s sub : string) :
  includes s sub = true -> includes (p +& s) sub = true.
Proof.
  intros H; induction p as [|x p IH]; simpl; [exact H|].
  rewrite IH. apply orb_true_r.
Qed.

Lemma includes_prefix (s sub : string) :
  startsWith s sub = true -> includes s sub = true.
Proof. intros H; destruct s; cbn [includes]; rewrite H; reflexivity. Qed.

Lemma includes_iff (s sub : string) :
  includes s sub = true <-> exists p r, s = p +& sub +& r.
Proof.
  split.
  - induction s as [|x s IH]; cbn [includes]; intros H.
    + apply orb_true_iff in H as [H|H]; [|discriminate].
      apply startsWith_iff in H as [r Hr]. now exists "", r.
    + apply orb_true_iff in H as [H|H].
      * apply startsWith_iff in H as [r Hr]. now exists "", r.
      * destruct (IH H) as (p & r & ->). now exists (String x p), r.
  - intros (p & r & ->). apply includes_skip, includes_prefix.
    apply startsWith_iff. now exists r.
Qed.

(** A string that contains [p +& q] contains [q]. *)
Lemma includes_tail (s p q : string) :
  includes s (p +& q) = true -> includes s q = true.
Proof.
  rewrite !includes_iff. intros (a & r & ->).
  exists (a +& p), r. now rewrite !append_assoc.
Qed.

Lemma endsWith_iff (s p : string) :
  endsWith s p = true <-> exists q, s = q +& p.
Proof.
  split.
  - induction s as [|x s IH]; cbn [endsWith]; intros H.
    + apply orb_true_iff in H as [H|H]; [|discriminate].
      apply String.eqb_eq in H. now exists "".
    + apply orb_true_iff in H as [H|H].
      * apply String.eqb_eq in H. now exists "".
      * destruct (IH H) as [q ->]. now exists (String x q).
  - intros [q ->]. induction q as [|x q IH].
    + simpl (_ +& _). destruct p; cbn [endsWith]; rewrite String.eqb_refl; reflexivity.
    + simpl (_ +& _). cbn [endsWith]. rewrite IH. apply orb_true_r.
Qed.

Lemma test_run2_iff (cls : ascii -> bool) (s : string) :
  test_run2 cls s = true <->
  exists p a b q, s = p +& String a (String b q) /\ cls a = true /\ cls b = true.
Proof.
  split.
  - induction s as [|x s IH]; simpl; [discriminate|].
    destruct s as [|y s]; [discriminate|].
    intros H. apply orb_true_iff in H as [H|H].
    + apply andb_true_iff in H as [Ha Hb]. now exists "", x, y, s.
    + destruct (IH H) as (p & a & b & q & Heq & Ha & Hb).
      exists (String x p), a, b, q. simpl. now rewrite Heq.
  - intros (p & a & b & q & -> & Ha & Hb).
    induction p as [|x p IH].
    + simpl. now rewrite Ha, Hb.
    + change (String x p +& String a (String b q))
        with (String x (p +& String a (String b q))).
      destruct (p +& String a (String b q)) as [|y r] eqn:E.
      * destruct p; discriminate.
      * change (test_run2 cls (String x (String y r)))
          with ((cls x && cls y) || test_run2 cls (String y r)).
        rewrite IH. apply orb_true_r.
Qed.

Lemma class_occurrences_filter (cls : ascii -> bool) (s : string) :
  class_occurrences cls s = filter cls (list_ascii_of_string s).
Proof.
  induction s as [|c s IH]; simpl; [reflexivity|].
  destruct (cls c); now rewrite IH.
Qed.

(** A name of [Object.prototype] is no own key of a table none of whose
    keys is such a name. *)
Lemma own_of_inherited {A : Type} (o : list (string * A)) (k : string) :
  forallb (fun entry => negb (is_inherited (fst entry))) o = true ->
  is_inherited k = true -> own o k = None.
Proof.
  intros Ho Hk. induction o as [|[k' a] o IH]; cbn [own]; [reflexivity|].
  cbn [forallb fst] in Ho. apply andb_true_iff in Ho as [Hk' Ho].
  destruct (String.eqb_spec k k') as [-> | _].
  - rewrite Hk in Hk'. discriminate.
  - now apply IH.
Qed.

Section FindIndex.
Context {A : Type} (p : A -> bool).

Lemma findIndex_from_none (l : list A) (i : Z) :
  Forall (fun x => p x = false) l -> findIndex_from p l i = (-1)%Z.
Proof.
  intros H; revert i; induction H as [|x l Hx _ IH]; intros i; simpl;
    [reflexivity | now rewrite Hx].
Qed.

Lemma findIndex_from_first (pre : list A) (t : A) (post : list A) (i : Z) :
  Forall (fun x => p x = false) pre -> p t = true ->
  findIndex_from p (pre ++ t :: post) i = (i + Z.of_nat (List.length pre))%Z.
Proof.
  intros H Ht; revert i; induction H as [|x l Hx _ IH]; intros i; simpl.
  - rewrite Ht. lia.
  - rewrite Hx, IH. lia.
Qed.

(** [findIndex] either answers [-1], and then no element satisfies the
    predicate, or the position of the first element that does. *)
Lemma findIndex_cases (l : list A) :
  (findIndex p l = (-1)%Z /\ Forall (fun x => p x = false) l) \/
  (exists pre t post, l = pre ++ t :: post /\ Forall (fun x => p x = false) pre
                      /\ p t = true /\ findIndex p l = Z.of_nat (List.length pre)).
Proof.
  induction l as [|x l IH].
  - left; split; [reflexivity | constructor].
  - destruct (p x) eqn:Hx.
    + right. exists [], x, l. repeat split; auto. unfold findIndex; simpl. now rewrite Hx.
    + destruct IH as [[H1 H2] | (pre & t & post & -> & Hpre & Ht & _)].
      * left. split; [|now constructor].
        apply findIndex_from_none. now constructor.
      * right. exists (x :: pre), t, post. repeat split; auto.
        apply (findIndex_from_first (x :: pre) t post 0); auto.
Qed.

End FindIndex.

Lemma splice_insert_at {A : Type} (pre : list A) (x t : A) (post : list A) :
  splice_insert (Z.of_nat (List.length pre)) x (pre ++ t :: post) = pre ++ x :: t :: post.
Proof.
  unfold splice_insert.
  assert (H : (Z.of_nat (List.length pre) <? 0)%Z = false) by (apply Z.ltb_ge; lia).
  rewrite H, length_app. simpl List.length.
  rewrite Z.min_l by lia. rewrite Nat2Z.id.
  rewrite firstn_app, Nat.sub_diag, firstn_all. simpl.
  rewrite app_nil_r, skipn_app, Nat.sub_diag, skipn_all. reflexivity.
Qed.

Lemma skipn_past {A : Type} (pre : list A) (t : A) (post : list A) :
  skipn (S (List.length pre)) (pre ++ t :: post) = post.
Proof. induction pre as [|y pre IH]; [reflexivity | exact IH]. Qed.

Lemma array_set_at {A : Type} (pre : list A) (x t : A) (post : list A) :
  array_set (List.length pre) x (pre ++ t :: post) = Some (pre ++ x :: post).
Proof.
  unfold array_set. rewrite length_app. cbn [List.length].
  destruct (Nat.leb_spec (List.length pre) (List.length pre + S (List.length post)));
    [|lia].
  rewrite skipn_past, firstn_app, Nat.sub_diag, firstn_all.
  cbn [firstn]. now rewrite app_nil_r.
Qed.

Lemma split_not_nil (sep : ascii) (s : string) : split sep s <> [].
Proof.
  induction s as [|c s IH]; simpl; [discriminate|].
  destruct (Ascii.eqb c sep); [discriminate|].
  destruct (split sep s); [contradiction | discriminate].
Qed.

(** ** Computations *)

Lemma bind_ok {A B : Type} (m : Eff A) (k : A -> Eff B) clk n a n' :
  m clk n = Ok (a, n') -> bind m k clk n = k a clk n'.
Proof. unfold bind. now intros ->. Qed.

Lemma bind_throw {A B : Type} (m : Eff A) (k : A -> Eff B) clk n e :
  m clk n = Throw e -> bind m k clk n = Throw e.
Proof. unfold bind. now intros ->. Qed.

Lemma bind_inv {A B : Type} (m : Eff A) (k : A -> Eff B) clk n b n'' :
  bind m k clk n = Ok (b, n'') ->
  exists a n', m clk n = Ok (a, n') /\ k a clk n' = Ok (b, n'').
Proof.
  unfold bind. destruct (m clk n) as [[a n']|e]; [|discriminate].
  intros H. now exists a, n'.
Qed.

Lemma lift_inv {A : Type} (r : result A) clk n a n' :
  lift r clk n = Ok (a, n') -> r = Ok a /\ n' = n.
Proof. destruct r; cbn; [intros [= -> ->]; auto | discriminate]. Qed.

(** Each result of [mapM] stems from a run of the callback on the element
    at the same place. *)
Lemma mapM_inv {A B : Type} (f : A -> Eff B) (l : list A) clk n ys n' :
  mapM f l clk n = Ok (ys, n') ->
  Forall2 (fun x y => exists n1 n2, f x clk n1 = Ok (y, n2)) l ys.
Proof.
  revert n ys n'; induction l as [|x l IH]; intros n ys n'; cbn [mapM].
  - intros [= <- _]. constructor.
  - intros H. apply bind_inv in H as (y & n1 & Hy & H).
    apply bind_inv in H as (ys' & n2 & Hys & H).
    injection H as <- _. constructor; [now exists n, n1 | eauto].
Qed.

Lemma mapM_total {A B : Type} (f : A -> Eff B) (l : list A) :
  (forall x, In x l -> forall clk n, exists y n', f x clk n = Ok (y, n')) ->
  forall clk n, exists ys n', mapM f l clk n = Ok (ys, n').
Proof.
  induction l as [|x l IH]; intros Hf clk n; cbn [mapM].
  - now exists [], n.
  - destruct (Hf x (or_introl eq_refl) clk n) as (y & n1 & Hy).
    destruct (IH (fun z Hz => Hf z (or_intror Hz)) clk n1) as (ys & n2 & Hys).
    exists (y :: ys), n2.
    rewrite (bind_ok _ _ _ _ _ _ Hy), (bind_ok _ _ _ _ _ _ Hys). reflexivity.
Qed.

Section Shapes.
Import Props.
Context {T A : Type} (fill : Clock -> nat -> T -> A * nat).

Lemma fill_all_app (clk : Clock) (l1 l2 : list T) : forall n,
  fill_all fill clk n (l1 ++ l2) =
  let '(r1, n1) := fill_all fill clk n l1 in
  let '(r2, n2) := fill_all fill clk n1 l2 in
  (r1 ++ r2, n2).
Proof.
  induction l1 as [|s l1 IH]; intros n; cbn [fill_all app].
  - now destruct (fill_all fill clk n l2).
  - destruct (fill clk n s) as [a n1]. rewrite IH.
    destruct (fill_all fill clk n1 l1) as [r1 n2].
    now destruct (fill_all fill clk n2 l2).
Qed.

(** A loop whose rounds are shaped is shaped. *)
Lemma shaped_mapM {X : Type} (P : T -> Prop) (f : X -> Eff A) (l : list X) :
  (forall x, In x l -> shaped P fill (f x)) ->
  shaped (Forall P) (fill_all fill) (mapM f l).
Proof.
  induction l as [|x l IH]; intros Hf.
  - right. exists []. split; [constructor | reflexivity].
  - destruct (Hf x (or_introl eq_refl)) as [[e He] | (s & Ps & Hs)].
    + left. exists e. intros clk n. cbn [mapM]. unfold bind. now rewrite He.
    + destruct (IH (fun z Hz => Hf z (or_intror Hz))) as [[e He] | (ss & Pss & Hss)].
      * left. exists e. intros clk n. cbn [mapM]. unfold bind. rewrite Hs.
        destruct (fill clk n s) as [a n1]. now rewrite He.
      * right. exists (s :: ss). split; [now constructor|].
        intros clk n. cbn [mapM fill_all]. unfold bind. rewrite Hs.
        destruct (fill clk n s) as [a n1]. rewrite Hss.
        now destruct (fill_all fill clk n1 ss) as [r n2].
Qed.

End Shapes.

End JsLemmas.

(* ===================================================================== *)
(** * The scale table *)
(* ===================================================================== *)

Module ScaleProps.
Import Js Props.

Lemma scale_tables_agree : ReharmEditor.majorScales = ProsodyGuard.majorScales.
Proof. reflexivity. Qed.

Lemma getScale_agree (key : string) : ReharmEditor.getScale key = ProsodyGuard.getScale key.
Proof. reflexivity. Qed.

(** A key that the table has is answered from the table. *)
Lemma getScale_known (key : string) (scale : list string) :
  own ProsodyGuard.majorScales key = Some scale -> ProsodyGuard.getScale key = Own scale.
Proof. intros H. unfold ProsodyGuard.getScale, get. now rewrite H. Qed.

(** C3, as the specification states it, fails: the key "H" is not in the
    table of major keys, and both copies of [getScale] answer it with the
    C major scale. *)
Lemma getScale_H_is_c_major :
  own ProsodyGuard.majorScales "H" = None /\
  ProsodyGuard.getScale "H" = Own c_major /\
  ReharmEditor.getScale "H" = Own c_major.
Proof. repeat split. Qed.

(** C3, amended: for a key that the table of major keys lacks, the lookup
    never fails; it answers with the C major scale, unless the key names a
    property of [Object.prototype], in which case it answers with that
    inherited value. *)
Theorem getScale_unknown_key (key : string) :
  own ProsodyGuard.majorScales key = None ->
  ProsodyGuard.getScale key = (if is_inherited key then Inherited else Own c_major) /\
  ReharmEditor.getScale key = (if is_inherited key then Inherited else Own c_major).
Proof.
  intros H. change (ReharmEditor.getScale key) with (ProsodyGuard.getScale key).
  unfold ProsodyGuard.getScale, get. rewrite H.
  destruct (is_inherited key); split; reflexivity.
Qed.

Lemma getScale_unknown_key_witness :
  ProsodyGuard.getScale "X#" = Own c_major /\ ReharmEditor.getScale "X#" = Own c_major.
Proof. apply (getScale_unknown_key "X#"). reflexivity. Defined.

(** Whatever the key, the lookup yields a value: [undefined] never comes
    out of [getScale]. *)
Lemma getScale_not_absent (key : string) : ProsodyGuard.getScale key <> Absent.
Proof.
  unfold ProsodyGuard.getScale, get.
  destruct (own ProsodyGuard.majorScales key); [discriminate|].
  destruct (is_inherited key); discriminate.
Qed.

(** Every scale of the table has seven notes. *)
Lemma scales_have_seven_notes (key : string) (scale : list string) :
  ProsodyGuard.getScale key = Own scale -> List.length scale = 7.
Proof.
  unfold ProsodyGuard.getScale, get.
  destruct (own ProsodyGuard.majorScales key) as [l|] eqn:E.
  - intros [= <-]. revert E. unfold ProsodyGuard.majorScales. cbn [own].
    repeat (match goal with
            | |- context [String.eqb key ?k] => destruct (String.eqb key k)
            end; [intros [= <-]; reflexivity|]).
    discriminate.
  - destruct (is_inherited key); [discriminate|]. intros [= <-]. reflexivity.
Qed.

End ScaleProps.

(* ===================================================================== *)
(** * The reharmonization strategies *)
(* ===================================================================== *)

Module ReharmProps.
Import Js Props JsLemmas.
Import ReharmEditor.

(** ** Tritone substitution *)

(** On the twelve note names of its own table the mapping moves six
    semitones and is an involution. *)
Lemma tritone_involutive_on_notes (x : string) :
  In x notes -> getTritoneSubstitution (getTritoneSubstitution x) = x.
Proof.
  unfold notes. cbn [In].
  intros H; repeat (destruct H as [<- | H]; [reflexivity|]); contradiction.
Qed.

Lemma tritone_stays_in_notes (x : string) : In (getTritoneSubstitution x) notes.
Proof.
  unfold getTritoneSubstitution.
  destruct (findIndex_cases (String.eqb x) notes)
    as [[E _] | (pre & t & post & Hl & _ & _ & E)]; unfold indexOf; rewrite E.
  - vm_compute. tauto.
  - assert (Hlen : (List.length pre < 12)%nat).
    { apply (f_equal (@List.length string)) in Hl. rewrite length_app in Hl.
      cbn in Hl. lia. }
    apply nth_In.
    change (List.length notes) with 12%nat.
    assert (0 <= Z.rem (Z.of_nat (List.length pre) + 6) 12 < 12)%Z
      by (apply Z.rem_bound_pos; lia).
    lia.
Qed.

(** C7: the root C goes to F#, six semitones away.  The root Bb, which the
    scale tables and the bVII entry of [MODAL_INTERCHANGE] use, is not
    among the names [indexOf] searches: the index -1 goes through the
    arithmetic, Bb is sent to F, and F back to B. *)
Theorem tritone_of_flat_root :
  getTritoneSubstitution "C" = "F#" /\
  indexOf notes "Bb" = (-1)%Z /\
  getTritoneSubstitution "Bb" = "F" /\
  getTritoneSubstitution (getTritoneSubstitution "Bb") = "B".
Proof. repeat split. Qed.

(** ** Extended harmony *)

Lemma contains_iff (quality m : string) :
  contains quality m <-> includes quality m = true.
Proof. unfold contains. symmetry. apply includes_iff. Qed.

Lemma not_contains_iff (quality m : string) :
  ~ contains quality m <-> includes quality m = false.
Proof. rewrite contains_iff. now destruct (includes quality m). Qed.

Lemma getExtendedHarmony_by_marker (quality : string) :
  extensions_by_marker quality (getExtendedHarmony quality).
Proof.
  unfold extensions_by_marker, getExtendedHarmony. repeat split.
  - intros H. apply contains_iff in H. now rewrite H.
  - intros H1 H2. apply not_contains_iff in H1. apply contains_iff in H2.
    now rewrite H1, H2.
  - intros H1 H2 H3. apply not_contains_iff in H1, H2. apply contains_iff in H3.
    now rewrite H1, H2, H3.
  - intros H. apply not_contains_iff in H.
    assert (H1 : includes quality "maj7" = false).
    { destruct (includes quality "maj7") eqn:E; [|reflexivity].
      apply (includes_tail quality "maj" "7") in E. congruence. }
    assert (H2 : includes quality "m7" = false).
    { destruct (includes quality "m7") eqn:E; [|reflexivity].
      apply (includes_tail quality "m" "7") in E. congruence. }
    now rewrite H1, H2, H.
Qed.

(** C8, as the specification states it, fails: [dim7], a quality of the
    component's own list, is none of maj7, m7 and 7, and yet the strategy
    gives a chord of that quality the extensions 9 and 11, not the empty
    set. *)
Lemma diminished_seventh_gets_extensions :
  In "dim7" (flat_map snd CHORD_QUALITIES) /\
  extensions_by_name (quality chord_dim7) = [] /\
  map extensions (generateExtendedHarmony [chord_dim7]) = [["9"; "11"]] /\
  map extensions (generateExtendedHarmony [chord_dim7])
  <> [extensions_by_name (quality chord_dim7)].
Proof.
  split; [|split; [|split]].
  - vm_compute. tauto.
  - reflexivity.
  - reflexivity.
  - discriminate.
Qed.

(** C8, amended: the extended-harmony strategy keeps the length of the
    progression and, chord by chord, every field but [extensions] (the
    identifier, root, quality, function, numerals, duration and position).
    The extensions go by the markers that the quality contains: 9 and 13
    when it contains maj7; failing that, 9 and 11 when it contains m7;
    failing that, 9, 11 and 13 when it contains 7; and none when it contains
    no 7.  On the qualities of the component's own list this is the
    assignment by name (maj7, m7, plain 7, nothing for the others) except
    for dim7 and m7b5, which get 9 and 11, and aug7, which gets 9, 11 and
    13. *)
Theorem extended_harmony_by_marker (chords : list Chord) :
  List.length (generateExtendedHarmony chords) = List.length chords /\
  Forall2 (fun c c' => same_but_extensions c c' /\
                       extensions_by_marker (quality c) (extensions c'))
          chords (generateExtendedHarmony chords) /\
  (forall family qualities q,
      In (family, qualities) CHORD_QUALITIES -> In q qualities ->
      (getExtendedHarmony q = extensions_by_name q <-> ~ In q ["dim7"; "m7b5"; "aug7"])) /\
  map getExtendedHarmony ["dim7"; "m7b5"; "aug7"]
  = [["9"; "11"]; ["9"; "11"]; ["9"; "11"; "13"]].
Proof.
  split; [apply length_map|]. split; [|split; [|reflexivity]].
  - induction chords as [|c chords IH]; cbn [generateExtendedHarmony map]; constructor.
    + split; [repeat split | apply getExtendedHarmony_by_marker].
    + exact IH.
  - intros family qualities q H Hq. unfold CHORD_QUALITIES in H. cbn [In] in H.
    repeat (destruct H as [[= <- <-] | H];
            [cbn [In] in Hq;
             repeat (destruct Hq as [<- | Hq];
                     [split;
                      [intros E;
                       first [ discriminate E
                             | cbn [In]; intros [N | [N | [N | []]]]; discriminate N ]
                      |intros N;
                       first [ reflexivity | exfalso; apply N; cbn [In]; tauto ]]
                     |]);
             contradiction|]).
    contradiction.
Qed.

Lemma extended_harmony_by_marker_witness :
  map extensions (generateExtendedHarmony [chord_dim7]) = [["9"; "11"]] /\
  getExtendedHarmony "aug7" <> extensions_by_name "aug7".
Proof.
  pose proof (extended_harmony_by_marker [chord_dim7]) as (_ & Hall & Hnames & _).
  split.
  - inversion Hall as [|c c' l l' [_ (_ & Hm7 & _)] Hrest]; subst.
    change ([extensions (extendChord chord_dim7)] = [["9"; "11"]]).
    apply (f_equal (fun ext => [ext])).
    apply Hm7.
    + intros H. apply contains_iff in H. discriminate H.
    + exists "di", "". reflexivity.
  - intros E.
    apply (proj1 (Hnames "augmented" ["aug"; "aug7"] "aug7"
                    ltac:(cbn; tauto) ltac:(cbn; tauto)) E).
    cbn. tauto.
Defined.

(** ** The empty progression *)

(** C1, as the specification states it, fails: on the empty progression
    in the key of C the generator returns twelve suggestions. *)
Lemma suggestions_for_empty_progression :
  exists l, outcome (generateSuggestions "C" [] (fun _ => 0%Z) 0) = Ok l /\
            List.length l = 12 /\ l <> [].
Proof. eexists. split; [reflexivity | split; [reflexivity | discriminate]]. Qed.

(** C1, amended: for every key, the generator run on the empty progression
    raises no error, reads no clock, and returns twelve suggestions (one
    per entry of the two tables, one for the tritone substitution and one
    for the extended harmony), each with the empty progression. *)
Theorem generateSuggestions_empty (key : string) (clk : Clock) (n : nat) :
  exists l, generateSuggestions key [] clk n = Ok (l, n) /\
            List.length l = 12 /\
            Forall (fun s => sugg_chords s = []) l.
Proof.
  pose (r := generateSuggestions key [] clk n).
  assert (E : generateSuggestions key [] clk n = r) by reflexivity.
  vm_compute in r. rewrite E. subst r.
  eexists. split; [reflexivity | split; [reflexivity | repeat constructor]].
Qed.

(** ** Roman numerals and Nashville numbers *)

Lemma getScale_own (key : string) :
  is_inherited key = false -> exists scale, getScale key = Own scale.
Proof.
  intros H. unfold getScale, get.
  destruct (own majorScales key) as [l|]; [now exists l|].
  rewrite H. now exists c_major.
Qed.

Lemma indexOf_bound (l : list string) (x : string) :
  (-1 <= indexOf l x < Z.of_nat (List.length l))%Z.
Proof.
  unfold indexOf.
  destruct (findIndex_cases (String.eqb x) l)
    as [[E _] | (pre & t & post & -> & _ & _ & E)]; rewrite E.
  - lia.
  - rewrite length_app. cbn [List.length]. lia.
Qed.

Lemma getRomanNumeral_ok (root quality key : string) :
  is_inherited key = false -> exists r, getRomanNumeral root quality key = Ok r.
Proof.
  intros H. destruct (getScale_own key H) as [scale E].
  pose proof (ScaleProps.scales_have_seven_notes key scale E) as Hlen.
  pose proof (indexOf_bound scale root) as Hb.
  unfold getRomanNumeral. rewrite E. cbn [value_indexOf].
  destruct (Z.eqb_spec (indexOf scale root) (-1)); [now eexists|].
  destruct (nth_error numerals (Z.to_nat (indexOf scale root))) as [numeral|] eqn:En.
  - destruct (includes quality "maj7"); [now eexists|].
    cbn [negb andb]. rewrite andb_true_r.
    destruct (includes quality "7"); [now eexists|].
    destruct (includes quality "m"); now eexists.
  - apply nth_error_None in En. change (List.length numerals) with 7%nat in En. lia.
Qed.

Lemma getNashvilleNumber_ok (root key : string) :
  is_inherited key = false -> exists r, getNashvilleNumber root key = Ok r.
Proof.
  intros H. destruct (getScale_own key H) as [scale E].
  unfold getNashvilleNumber. rewrite E. cbn [value_indexOf].
  destruct (negb _); now eexists.
Qed.

(** ** Secondary dominants *)

Lemma nth_error_middle {A : Type} (pre : list A) (t : A) (post : list A) :
  nth_error (pre ++ t :: post) (Z.to_nat (Z.of_nat (List.length pre))) = Some t.
Proof.
  rewrite Nat2Z.id, nth_error_app2, Nat.sub_diag by lia. reflexivity.
Qed.

Lemma of_nat_not_minus_one (k : nat) : negb (Z.of_nat k =? -1)%Z = true.
Proof. destruct (Z.eqb_spec (Z.of_nat k) (-1)); [lia | reflexivity]. Qed.

(** Without a target the progression comes back as it is. *)
Lemma secondary_no_target key chords function_ clk n :
  findTargetChordIndex chords function_ = (-1)%Z ->
  generateSecondaryDominantProgression key chords function_ clk n = Ok (chords, n).
Proof.
  intros H. unfold generateSecondaryDominantProgression. now rewrite H.
Qed.

(** With a first target [t], the run is the four lookups followed by the
    insertion in front of [t]. *)
Lemma secondary_with_target key function_ pre t post clk n :
  findTargetChordIndex (pre ++ t :: post) function_ = Z.of_nat (List.length pre) ->
  generateSecondaryDominantProgression key (pre ++ t :: post) function_ clk n =
  (sd <-? entry_of (get SECONDARY_DOMINANTS function_) ;;
   roman_ <-? getRomanNumeral (entry_root sd) (entry_quality sd) key ;;
   nashville_ <-? getNashvilleNumber (entry_root sd) key ;;
   Ok (pre ++ {| id := "secondary_" +& string_of_Z (clk n);
                 root := entry_root sd;
                 quality := entry_quality sd;
                 extensions := [];
                 function := function_;
                 roman := roman_;
                 nashville := nashville_;
                 duration := duration t;
                 position := (position t - 0.5)%float |} :: t :: post, S n)).
Proof.
  intros H. unfold generateSecondaryDominantProgression.
  rewrite H, of_nat_not_minus_one. unfold bind, date_now.
  destruct (entry_of _) as [sd|e]; [|reflexivity]. cbn [lift ret throw].
  destruct (getRomanNumeral _ _ _) as [r|e]; [|reflexivity]. cbn [lift ret throw].
  destruct (getNashvilleNumber _ _) as [v|e]; [|reflexivity]. cbn [lift ret throw].
  unfold chord_at. rewrite nth_error_middle. cbn [lift ret].
  now rewrite splice_insert_at.
Qed.

Lemma target_index_first (tbl : list (string * string)) function_ target pre t post :
  get tbl function_ = Own target -> first_target target pre t ->
  findIndex (fun chord => strict_eq_string (get tbl function_) (function chord))
            (pre ++ t :: post) = Z.of_nat (List.length pre).
Proof.
  intros -> [Hpre Ht]. unfold findIndex.
  rewrite findIndex_from_first; [lia | | ].
  - eapply Forall_impl; [|exact Hpre]. cbn. intros c Hc.
    apply String.eqb_neq. congruence.
  - cbn. apply String.eqb_eq. congruence.
Qed.

Lemma target_index_none (tbl : list (string * string)) function_ chords :
  Forall (fun c => strict_eq_string (get tbl function_) (function c) = false) chords ->
  findIndex (fun chord => strict_eq_string (get tbl function_) (function chord)) chords
  = (-1)%Z.
Proof. apply findIndex_from_none. Qed.

(** The two tables of the secondary dominants have the same keys. *)
Lemma secondary_tables_aligned function_ target :
  get secondaryTargetMap function_ = Own target ->
  exists sd, get SECONDARY_DOMINANTS function_ = Own sd.
Proof.
  unfold get, secondaryTargetMap, SECONDARY_DOMINANTS. cbn [own].
  repeat (match goal with
          | |- context [String.eqb function_ ?k] => destruct (String.eqb function_ k)
          end; [intros _; eexists; reflexivity|]).
  destruct (is_inherited function_); discriminate.
Qed.

Lemma secondary_length key chords function_ clk n l n' :
  generateSecondaryDominantProgression key chords function_ clk n = Ok (l, n') ->
  (List.length chords <= List.length l)%nat.
Proof.
  destruct (findIndex_cases
              (fun chord => strict_eq_string (get secondaryTargetMap function_) (function chord))
              chords) as [[E _] | (pre & t & post & -> & _ & _ & E)].
  - rewrite (secondary_no_target _ _ _ _ _ E). now intros [= <- _].
  - rewrite (secondary_with_target _ _ _ _ _ _ _ E).
    destruct (entry_of _); [|discriminate].
    destruct (getRomanNumeral _ _ _); [|discriminate].
    destruct (getNashvilleNumber _ _); [|discriminate].
    intros [= <- _]. rewrite !length_app. cbn [List.length]. lia.
Qed.

Lemma secondary_total key chords function_ clk n :
  is_inherited key = false ->
  (exists sd, get SECONDARY_DOMINANTS function_ = Own sd) ->
  exists l n', generateSecondaryDominantProgression key chords function_ clk n = Ok (l, n').
Proof.
  intros Hk [sd Hsd].
  destruct (findIndex_cases
              (fun chord => strict_eq_string (get secondaryTargetMap function_) (function chord))
              chords) as [[E _] | (pre & t & post & -> & _ & _ & E)].
  - rewrite (secondary_no_target _ _ _ _ _ E). now eexists _, _.
  - rewrite (secondary_with_target _ _ _ _ _ _ _ E), Hsd. cbn [entry_of].
    destruct (getRomanNumeral_ok (entry_root sd) (entry_quality sd) key Hk) as [r ->].
    destruct (getNashvilleNumber_ok (entry_root sd) key Hk) as [v ->].
    now eexists _, _.
Qed.

(** C4, as the specification states it, fails.  In the key of C the
    progression made of [chord_V] alone (four beats, starting at beat 2) has
    the target of V/V.  The inserted chord lasts the four beats of the
    target, not two, and the target still starts at beat 2. *)
Lemma secondary_dominant_keeps_duration :
  exists d t',
    outcome (generateSecondaryDominantProgression "C" [chord_V] "V/V" (fun _ => 0%Z) 0)
    = Ok [d; t'] /\
    duration d = duration chord_V /\
    duration d <> (duration chord_V / 2)%float /\
    t' = chord_V /\
    position t' <> (position chord_V + duration chord_V / 2)%float.
Proof.
  eexists _, _. split; [vm_compute; reflexivity|].
  repeat split;
    intros H; apply (f_equal (fun x => PrimFloat.eqb x 4)) in H;
    vm_compute in H; discriminate H.
Qed.

(** C4, amended: when a chord of the progression carries the function tag
    that the strategy's table gives as resolution target, the strategy
    inserts the dominant chord of the table immediately before the first
    such chord, with the duration of the target and a position half a beat
    before it, and leaves the target and every other chord as they are;
    when no chord matches, the progression is returned unmodified. *)
Theorem secondary_dominant_insertion (key function_ : string) (chords : list Chord)
    (clk : Clock) (n : nat) :
  (forall target pre t post,
      is_inherited key = false ->
      get secondaryTargetMap function_ = Own target ->
      chords = pre ++ t :: post ->
      first_target target pre t ->
      exists sd d,
        get SECONDARY_DOMINANTS function_ = Own sd /\
        generateSecondaryDominantProgression key chords function_ clk n
        = Ok (pre ++ d :: t :: post, S n) /\
        root d = entry_root sd /\ quality d = entry_quality sd /\
        extensions d = [] /\ function d = function_ /\
        duration d = duration t /\
        position d = (position t - 0.5)%float) /\
  (Forall (fun c => strict_eq_string (get secondaryTargetMap function_) (function c) = false)
          chords ->
   generateSecondaryDominantProgression key chords function_ clk n = Ok (chords, n)).
Proof.
  split.
  - intros target pre t post Hk Htarget -> Hfirst.
    destruct (secondary_tables_aligned _ _ Htarget) as [sd Hsd].
    pose proof (target_index_first secondaryTargetMap _ _ _ _ post Htarget Hfirst) as E.
    rewrite (secondary_with_target _ _ _ _ _ _ _ E), Hsd. cbn [entry_of].
    destruct (getRomanNumeral_ok (entry_root sd) (entry_quality sd) key Hk) as [r ->].
    destruct (getNashvilleNumber_ok (entry_root sd) key Hk) as [v ->].
    exists sd. eexists. split; [reflexivity|]. split; [reflexivity|].
    repeat split.
  - intros H. apply secondary_no_target, target_index_none, H.
Qed.

Lemma secondary_dominant_insertion_witness :
  exists d,
    generateSecondaryDominantProgression "C" [chord_V] "V/V" (fun _ => 0%Z) 0
    = Ok ([d; chord_V], 1%nat) /\
    duration d = 4%float /\ position d = 1.5%float.
Proof.
  destruct (proj1 (secondary_dominant_insertion "C" "V/V" [chord_V] (fun _ => 0%Z) 0)
                  "V" [] chord_V [] eq_refl eq_refl eq_refl
                  (conj (Forall_nil _) eq_refl))
    as (sd & d & _ & E & _ & _ & _ & _ & Hd & Hp).
  exists d. split; [exact E | split; [exact Hd | exact Hp]].
Defined.

(** ** Modal interchange *)

Lemma modal_no_target key chords function_ clk n :
  findModalInterchangeTarget chords function_ = (-1)%Z ->
  generateModalInterchangeProgression key chords function_ clk n = Ok (chords, n).
Proof.
  intros H. unfold generateModalInterchangeProgression. now rewrite H.
Qed.

Lemma modal_with_target key function_ pre t post clk n :
  findModalInterchangeTarget (pre ++ t :: post) function_ = Z.of_nat (List.length pre) ->
  generateModalInterchangeProgression key (pre ++ t :: post) function_ clk n =
  (mc <-? entry_of (get MODAL_INTERCHANGE function_) ;;
   roman_ <-? getRomanNumeral (entry_root mc) (entry_quality mc) key ;;
   nashville_ <-? getNashvilleNumber (entry_root mc) key ;;
   Ok (pre ++ {| id := "modal_" +& string_of_Z (clk n);
                 root := entry_root mc;
                 quality := entry_quality mc;
                 extensions := [];
                 function := function_;
                 roman := roman_;
                 nashville := nashville_;
                 duration := duration t;
                 position := position t |} :: post, S n)).
Proof.
  intros H. unfold generateModalInterchangeProgression.
  rewrite H, of_nat_not_minus_one. unfold bind, date_now.
  destruct (entry_of _) as [mc|e]; [|reflexivity]. cbn [lift ret throw].
  destruct (getRomanNumeral _ _ _) as [r|e]; [|reflexivity]. cbn [lift ret throw].
  destruct (getNashvilleNumber _ _) as [v|e]; [|reflexivity]. cbn [lift ret throw].
  unfold chord_at. rewrite nth_error_middle. cbn [lift ret].
  now rewrite Nat2Z.id, array_set_at.
Qed.

Lemma modal_length key chords function_ clk n l n' :
  generateModalInterchangeProgression key chords function_ clk n = Ok (l, n') ->
  List.length l = List.length chords.
Proof.
  destruct (findIndex_cases
              (fun chord => strict_eq_string (get modalTargetMap function_) (function chord))
              chords) as [[E _] | (pre & t & post & -> & _ & _ & E)].
  - rewrite (modal_no_target _ _ _ _ _ E). now intros [= <- _].
  - rewrite (modal_with_target _ _ _ _ _ _ _ E).
    destruct (entry_of _); [|discriminate].
    destruct (getRomanNumeral _ _ _); [|discriminate].
    destruct (getNashvilleNumber _ _); [|discriminate].
    intros [= <- _]. rewrite !length_app. reflexivity.
Qed.

Lemma modal_total key chords function_ clk n :
  is_inherited key = false ->
  (exists mc, get MODAL_INTERCHANGE function_ = Own mc) ->
  exists l n', generateModalInterchangeProgression key chords function_ clk n = Ok (l, n').
Proof.
  intros Hk [mc Hmc].
  destruct (findIndex_cases
              (fun chord => strict_eq_string (get modalTargetMap function_) (function chord))
              chords) as [[E _] | (pre & t & post & -> & _ & _ & E)].
  - rewrite (modal_no_target _ _ _ _ _ E). now eexists _, _.
  - rewrite (modal_with_target _ _ _ _ _ _ _ E), Hmc. cbn [entry_of].
    destruct (getRomanNumeral_ok (entry_root mc) (entry_quality mc) key Hk) as [r ->].
    destruct (getNashvilleNumber_ok (entry_root mc) key Hk) as [v ->].
    now eexists _, _.
Qed.

(** ** Tritone substitution over a progression *)

Lemma tritoneChord_total key chord clk n :
  is_inherited key = false -> exists c n', tritoneChord key chord clk n = Ok (c, n').
Proof.
  intros Hk. unfold tritoneChord.
  destruct (includes (quality chord) "7" && negb (includes (quality chord) "maj7"));
    [|now eexists _, _].
  unfold bind, date_now.
  destruct (getRomanNumeral_ok (getTritoneSubstitution (root chord)) (quality chord) key Hk)
    as [r ->].
  destruct (getNashvilleNumber_ok (getTritoneSubstitution (root chord)) key Hk) as [v ->].
  now eexists _, _.
Qed.

Lemma tritone_length key chords clk n l n' :
  generateTritoneSubstitution key chords clk n = Ok (l, n') ->
  List.length l = List.length chords.
Proof.
  intros H. apply mapM_inv in H. symmetry. eapply Forall2_length, H.
Qed.

(** ** All the suggestions: lengths *)

Lemma secondary_table_own function_ chord :
  In (function_, chord) SECONDARY_DOMINANTS -> get SECONDARY_DOMINANTS function_ = Own chord.
Proof.
  unfold SECONDARY_DOMINANTS. cbn [In].
  intros H; repeat (destruct H as [[= <- <-] | H]; [reflexivity|]); contradiction.
Qed.

Lemma modal_table_own function_ chord :
  In (function_, chord) MODAL_INTERCHANGE -> get MODAL_INTERCHANGE function_ = Own chord.
Proof.
  unfold MODAL_INTERCHANGE. cbn [In].
  intros H; repeat (destruct H as [[= <- <-] | H]; [reflexivity|]); contradiction.
Qed.

Lemma secondarySuggestion_length key chords entry clk n s n' :
  secondarySuggestion key chords entry clk n = Ok (s, n') -> never_shorter chords s.
Proof.
  destruct entry as [function_ chord]. unfold secondarySuggestion.
  intros H. apply bind_inv in H as (l & n1 & Hl & H). injection H as <- _.
  exact (secondary_length _ _ _ _ _ _ _ Hl).
Qed.

Lemma modalSuggestion_length key chords entry clk n s n' :
  modalSuggestion key chords entry clk n = Ok (s, n') -> never_shorter chords s.
Proof.
  destruct entry as [function_ chord]. unfold modalSuggestion.
  intros H. apply bind_inv in H as (l & n1 & Hl & H). injection H as <- _.
  unfold never_shorter. cbn [sugg_chords].
  rewrite (modal_length _ _ _ _ _ _ _ Hl). lia.
Qed.

Lemma Forall2_right {A B : Type} (P : B -> Prop) (Q : A -> B -> Prop) l l' :
  (forall x y, Q x y -> P y) -> Forall2 Q l l' -> Forall P l'.
Proof. intros H F; induction F; constructor; eauto. Qed.

(** C9: whenever the generator returns, each of its suggestions carries a
    progression at least as long as the original one; and it does return
    for every key that is not the name of a property of [Object.prototype]. *)
Theorem suggestions_never_shorter (key : string) (chords : list Chord)
    (clk : Clock) (n : nat) :
  (is_inherited key = false ->
   exists l n', generateSuggestions key chords clk n = Ok (l, n')) /\
  (forall l n', generateSuggestions key chords clk n = Ok (l, n') ->
                Forall (never_shorter chords) l).
Proof.
  split.
  - intros Hk. unfold generateSuggestions.
    destruct (mapM_total (secondarySuggestion key chords) SECONDARY_DOMINANTS) with (clk := clk) (n := n)
      as (sec & n1 & Hsec).
    { intros [function_ chord] Hin c m. unfold secondarySuggestion.
      destruct (secondary_total key chords function_ c m Hk) as (l & m' & Hl).
      - exists chord. now apply secondary_table_own.
      - rewrite (bind_ok _ _ _ _ _ _ Hl). now eexists _, _. }
    destruct (mapM_total (modalSuggestion key chords) MODAL_INTERCHANGE) with (clk := clk) (n := n1)
      as (mod_ & n2 & Hmod).
    { intros [function_ chord] Hin c m. unfold modalSuggestion.
      destruct (modal_total key chords function_ c m Hk) as (l & m' & Hl).
      - exists chord. now apply modal_table_own.
      - rewrite (bind_ok _ _ _ _ _ _ Hl). now eexists _, _. }
    destruct (mapM_total (tritoneChord key) chords) with (clk := clk) (n := n2)
      as (tri & n3 & Htri).
    { intros c _ c' m. now apply tritoneChord_total. }
    rewrite (bind_ok _ _ _ _ _ _ Hsec), (bind_ok _ _ _ _ _ _ Hmod).
    unfold generateTritoneSubstitution. rewrite (bind_ok _ _ _ _ _ _ Htri).
    now eexists _, _.
  - intros l n' H. unfold generateSuggestions in H.
    apply bind_inv in H as (sec & n1 & Hsec & H).
    apply bind_inv in H as (mod_ & n2 & Hmod & H).
    apply bind_inv in H as (tri & n3 & Htri & H).
    injection H as <- _.
    apply mapM_inv in Hsec. apply mapM_inv in Hmod.
    repeat rewrite Forall_app; repeat split.
    + eapply Forall2_right; [|exact Hsec].
      intros e s (m & m' & Hs). exact (secondarySuggestion_length _ _ _ _ _ _ _ Hs).
    + eapply Forall2_right; [|exact Hmod].
      intros e s (m & m' & Hs). exact (modalSuggestion_length _ _ _ _ _ _ _ Hs).
    + repeat constructor; unfold never_shorter; cbn [sugg_chords].
      * rewrite (tritone_length _ _ _ _ _ _ Htri). lia.
      * unfold generateExtendedHarmony. rewrite length_map. lia.
Qed.

Lemma suggestions_never_shorter_witness :
  exists l n', generateSuggestions "C" [chord_V7] (fun _ => 0%Z) 0 = Ok (l, n') /\
               Forall (never_shorter [chord_V7]) l.
Proof.
  destruct (proj1 (suggestions_never_shorter "C" [chord_V7] (fun _ => 0%Z) 0) eq_refl)
    as (l & n' & E).
  exists l, n'. split; [exact E|].
  exact (proj2 (suggestions_never_shorter "C" [chord_V7] (fun _ => 0%Z) 0) l n' E).
Defined.

(** ** All the suggestions: dependence on the clock *)


(** Chords passed on as they are need no clock. *)
Lemma fill_kept (clk : Clock) (n : nat) (l : list Chord) :
  fill_all fill_slot clk n (map Kept l) = (l, n).
Proof.
  induction l as [|c l IH]; cbn [map fill_all fill_slot]; [reflexivity | now rewrite IH].
Qed.

Lemma same_but_extensions_refl (c : Chord) : same_but_extensions c c.
Proof. repeat split. Qed.

Lemma kept_from (chords l : list Chord) :
  incl l chords -> Forall (slot_from chords) (map Kept l).
Proof.
  intros H. apply Forall_forall. intros s Hs. apply in_map_iff in Hs as (c & <- & Hc).
  exists c. split; [now apply H | apply same_but_extensions_refl].
Qed.

Lemma secondary_shaped key chords function_ :
  shaped (Forall (slot_from chords)) (fill_all fill_slot)
         (generateSecondaryDominantProgression key chords function_).
Proof.
  destruct (findIndex_cases
              (fun chord => strict_eq_string (get secondaryTargetMap function_) (function chord))
              chords) as [[E _] | (pre & t & post & Hl & _ & _ & E)].
  - right. exists (map Kept chords). split; [apply kept_from, incl_refl|].
    intros clk n. now rewrite (secondary_no_target _ _ _ _ _ E), fill_kept.
  - rewrite Hl in E.
    destruct (entry_of (get SECONDARY_DOMINANTS function_)) as [sd|e] eqn:Esd;
      [|left; exists e; intros clk n; rewrite Hl;
        now rewrite (secondary_with_target _ _ _ _ _ _ _ E), Esd].
    destruct (getRomanNumeral (entry_root sd) (entry_quality sd) key) as [r|e] eqn:Er;
      [|left; exists e; intros clk n; rewrite Hl;
        now rewrite (secondary_with_target _ _ _ _ _ _ _ E), Esd, Er].
    destruct (getNashvilleNumber (entry_root sd) key) as [v|e] eqn:Ev;
      [|left; exists e; intros clk n; rewrite Hl;
        now rewrite (secondary_with_target _ _ _ _ _ _ _ E), Esd, Er, Ev].
    right.
    exists (map Kept pre ++
            Fresh "secondary_"
              (mkChord "" (entry_root sd) (entry_quality sd) [] function_ r v
                       (duration t) (position t - 0.5)%float)
            :: map Kept (t :: post)).
    split.
    + apply Forall_app. split; [apply kept_from; rewrite Hl; now apply incl_appl, incl_refl|].
      constructor; [cbn; tauto|].
      apply kept_from. rewrite Hl. now apply incl_appr, incl_refl.
    + intros clk n. rewrite Hl at 1.
      rewrite (secondary_with_target _ _ _ _ _ _ _ E), Esd, Er, Ev.
      rewrite fill_all_app, fill_kept. cbn [fill_all fill_slot].
      now rewrite fill_kept.
Qed.

Lemma modal_shaped key chords function_ :
  shaped (Forall (slot_from chords)) (fill_all fill_slot)
         (generateModalInterchangeProgression key chords function_).
Proof.
  destruct (findIndex_cases
              (fun chord => strict_eq_string (get modalTargetMap function_) (function chord))
              chords) as [[E _] | (pre & t & post & Hl & _ & _ & E)].
  - right. exists (map Kept chords). split; [apply kept_from, incl_refl|].
    intros clk n. now rewrite (modal_no_target _ _ _ _ _ E), fill_kept.
  - rewrite Hl in E.
    destruct (entry_of (get MODAL_INTERCHANGE function_)) as [mc|e] eqn:Emc;
      [|left; exists e; intros clk n; rewrite Hl;
        now rewrite (modal_with_target _ _ _ _ _ _ _ E), Emc].
    destruct (getRomanNumeral (entry_root mc) (entry_quality mc) key) as [r|e] eqn:Er;
      [|left; exists e; intros clk n; rewrite Hl;
        now rewrite (modal_with_target _ _ _ _ _ _ _ E), Emc, Er].
    destruct (getNashvilleNumber (entry_root mc) key) as [v|e] eqn:Ev;
      [|left; exists e; intros clk n; rewrite Hl;
        now rewrite (modal_with_target _ _ _ _ _ _ _ E), Emc, Er, Ev].
    right.
    exists (map Kept pre ++
            Fresh "modal_"
              (mkChord "" (entry_root mc) (entry_quality mc) [] function_ r v
                       (duration t) (position t))
            :: map Kept post).
    split.
    + apply Forall_app. split; [apply kept_from; rewrite Hl; now apply incl_appl, incl_refl|].
      constructor; [cbn; tauto|].
      apply kept_from. rewrite Hl. now apply incl_appr, incl_tl, incl_refl.
    + intros clk n. rewrite Hl at 1.
      rewrite (modal_with_target _ _ _ _ _ _ _ E), Emc, Er, Ev.
      rewrite fill_all_app, fill_kept. cbn [fill_all fill_slot].
      now rewrite fill_kept.
Qed.

Lemma tritoneChord_shaped key chords chord :
  In chord chords -> shaped (slot_from chords) fill_slot (tritoneChord key chord).
Proof.
  intros Hin. unfold tritoneChord.
  destruct (includes (quality chord) "7" && negb (includes (quality chord) "maj7")).
  - destruct (getRomanNumeral (getTritoneSubstitution (root chord)) (quality chord) key)
      as [r|e];
      [|left; exists e; intros clk n; reflexivity].
    destruct (getNashvilleNumber (getTritoneSubstitution (root chord)) key)
      as [v|e];
      [|left; exists e; intros clk n; reflexivity].
    right.
    exists (Fresh "tritone_"
              (mkChord "" (getTritoneSubstitution (root chord)) (quality chord)
                       (extensions chord) (function chord) r v
                       (duration chord) (position chord))).
    split; [cbn; tauto|].
    intros clk n. reflexivity.
  - right. exists (Kept chord). split; [|reflexivity].
    exists chord. split; [exact Hin | apply same_but_extensions_refl].
Qed.

Lemma secondarySuggestion_shaped key chords entry :
  shaped (fun p : plan => Forall (slot_from chords) (snd p)) fill_plan
         (secondarySuggestion key chords entry).
Proof.
  destruct entry as [function_ chord]. unfold secondarySuggestion.
  destruct (secondary_shaped key chords function_) as [[e He] | (slots & Hslots & Hs)].
  - left. exists e. intros clk n. unfold bind. now rewrite He.
  - right.
    exists (("secondary_" +& function_,
             "Add " +& function_ +& " (" +& entry_root chord +& entry_quality chord +& ")",
             intermediate, "Jazz", 0.8%float), slots).
    split; [exact Hslots|].
    intros clk n. unfold bind, fill_plan. rewrite Hs. cbn [snd fst].
    now destruct (fill_all fill_slot clk n slots).
Qed.

Lemma modalSuggestion_shaped key chords entry :
  shaped (fun p : plan => Forall (slot_from chords) (snd p)) fill_plan
         (modalSuggestion key chords entry).
Proof.
  destruct entry as [function_ chord]. unfold modalSuggestion.
  destruct (modal_shaped key chords function_) as [[e He] | (slots & Hslots & Hs)].
  - left. exists e. intros clk n. unfold bind. now rewrite He.
  - right.
    exists (("modal_" +& function_,
             "Add " +& function_ +& " (" +& entry_root chord +& entry_quality chord +& ")",
             advanced, "Rock/Pop", 0.7%float), slots).
    split; [exact Hslots|].
    intros clk n. unfold bind, fill_plan. rewrite Hs. cbn [snd fst].
    now destruct (fill_all fill_slot clk n slots).
Qed.

Lemma extended_from (chords : list Chord) :
  Forall (slot_from chords) (map Kept (generateExtendedHarmony chords)).
Proof.
  apply Forall_forall. intros s Hs. apply in_map_iff in Hs as (c & <- & Hc).
  apply in_map_iff in Hc as (c0 & <- & Hc0).
  exists c0. split; [exact Hc0 | repeat split].
Qed.

(** The generator throws the same exception whatever the clock, or returns
    what its plans make of the clock. *)
Lemma generateSuggestions_shaped key chords :
  shaped (Forall (fun p : plan => Forall (slot_from chords) (snd p))) (fill_all fill_plan)
         (generateSuggestions key chords).
Proof.
  unfold generateSuggestions.
  destruct (shaped_mapM fill_plan (fun p : plan => Forall (slot_from chords) (snd p))
              (secondarySuggestion key chords) SECONDARY_DOMINANTS)
    as [[e He] | (sec & Psec & Hsec)];
    [intros x _; apply secondarySuggestion_shaped
    |left; exists e; intros clk n; unfold bind; now rewrite He|].
  destruct (shaped_mapM fill_plan (fun p : plan => Forall (slot_from chords) (snd p))
              (modalSuggestion key chords) MODAL_INTERCHANGE)
    as [[e He] | (mod_ & Pmod & Hmod)];
    [intros x _; apply modalSuggestion_shaped
    |left; exists e; intros clk n; unfold bind; rewrite Hsec;
     destruct (fill_all fill_plan clk n sec); now rewrite He|].
  destruct (shaped_mapM fill_slot (slot_from chords) (tritoneChord key) chords)
    as [[e He] | (tri & Ptri & Htri)];
    [intros x Hx; now apply tritoneChord_shaped
    |left; exists e; intros clk n; unfold bind; rewrite Hsec;
     destruct (fill_all fill_plan clk n sec); rewrite Hmod;
     destruct (fill_all fill_plan clk _ mod_);
     unfold generateTritoneSubstitution; now rewrite He|].
  right.
  exists (sec ++ mod_ ++
          [ (("tritone_sub", "Tritone substitution for dominant chords",
              advanced, "Jazz", 0.6%float), tri);
            (("extended_harmony", "Add extended harmonies (9ths, 11ths, 13ths)",
              intermediate, "Jazz/Fusion", 0.9%float),
             map Kept (generateExtendedHarmony chords)) ]).
  split.
  - apply Forall_app. split; [exact Psec|]. apply Forall_app. split; [exact Pmod|].
    constructor; [exact Ptri|]. constructor; [apply extended_from | constructor].
  - intros clk n. unfold bind. rewrite Hsec, fill_all_app.
    destruct (fill_all fill_plan clk n sec) as [sec' n1]. rewrite Hmod, fill_all_app.
    destruct (fill_all fill_plan clk n1 mod_) as [mod' n2].
    unfold generateTritoneSubstitution. rewrite Htri.
    cbn [fill_all]. unfold fill_plan. cbn [fst snd].
    destruct (fill_all fill_slot clk n2 tri) as [tri' n3].
    rewrite fill_kept. reflexivity.
Qed.


End ReharmProps.

(* ===================================================================== *)
(** * The non-diatonic warnings of the guard *)
(* ===================================================================== *)

Module GuardProps.
Import Js Props JsLemmas.
Import ProsodyGuard.

Lemma isModalInterchange_ok (chord : Chord) (key : string) :
  is_inherited key = false -> exists b, isModalInterchange chord key = Ok b.
Proof.
  intros H. unfold isModalInterchange, get.
  destruct (own modalChords key) as [l|]; [now eexists|].
  rewrite H. now eexists.
Qed.

Lemma chordWarnings_own key scale chords i chord :
  is_inherited key = false ->
  chordWarnings key (Own scale) chords i chord
  = Ok (warnings_of_chord key scale chords i chord).
Proof.
  intros H. unfold chordWarnings, warnings_of_chord. cbn [value_includes].
  destruct (isModalInterchange_ok chord key H) as [b ->].
  destruct (array_includes scale (root chord)), b; reflexivity.
Qed.

Lemma warnings_of_chord_position key scale chords i chord w :
  In w (warnings_of_chord key scale chords i chord) -> position w = i.
Proof.
  unfold warnings_of_chord. rewrite !in_app_iff.
  destruct (array_includes scale (root chord)),
           (isSecondaryDominant chord chords i),
           (isModalInterchange chord key) as [[|]|]; cbn [In];
    intuition (subst; reflexivity).
Qed.

(** The loop returns, and its warnings are those of the chords it visits. *)
Lemma forEachChord_spec key scale chords :
  is_inherited key = false ->
  forall rest index,
  exists ws,
    forEachChord key (Own scale) chords index rest = Ok ws /\
    forall w, In w ws <->
              exists j chord, nth_error rest j = Some chord /\
                              In w (warnings_of_chord key scale chords (index + j) chord).
Proof.
  intros Hk. induction rest as [|c rest IH]; intros index; cbn [forEachChord].
  - exists []. split; [reflexivity|]. intros w. split; [contradiction|].
    intros (j & chord & Hj & _). destruct j; discriminate.
  - rewrite (chordWarnings_own _ _ _ _ _ Hk).
    destruct (IH (S index)) as (ws' & -> & Hws').
    eexists. split; [reflexivity|]. intros w. rewrite in_app_iff, Hws'. split.
    + intros [H | (j & chord & Hj & H)].
      * exists 0%nat, c. rewrite Nat.add_0_r. now split.
      * exists (S j), chord. rewrite Nat.add_succ_r. now split.
    + intros ([|j] & chord & Hj & H).
      * left. injection Hj as <-. now rewrite Nat.add_0_r in H.
      * right. exists j, chord. rewrite Nat.add_succ_r in H. now split.
Qed.

Lemma in_warnings_of_chord key scale chords i chord w :
  In w (warnings_of_chord key scale chords i chord) <->
  (w = nonDiatonicWarning key chord i /\ array_includes scale (root chord) = false) \/
  (w = secondaryDominantNote chord i /\ isSecondaryDominant chord chords i = true) \/
  (w = modalInterchangeNote chord i /\ isModalInterchange chord key = Ok true).
Proof.
  unfold warnings_of_chord. rewrite !in_app_iff.
  destruct (array_includes scale (root chord)),
           (isSecondaryDominant chord chords i),
           (isModalInterchange chord key) as [[|]|]; cbn [In];
    intuition (try discriminate; auto).
Qed.

(** C2, as the specification states it, fails.  In the key of C the chord
    Bb is a modal-interchange borrowing and still gets the medium warning,
    next to the low note; in the key of F the chord B7 followed by E is a
    secondary dominant and still gets the medium warning, next to the low
    note. *)
Lemma recognised_chords_still_warned :
  isModalInterchange (mkChord "Bb" "") "C" = Ok true /\
  checkNonDiatonicWarnings (project_in "C") "p" [mkChord "Bb" ""]
  = Ok [nonDiatonicWarning "C" (mkChord "Bb" "") 0;
        modalInterchangeNote (mkChord "Bb" "") 0] /\
  isSecondaryDominant (mkChord "B" "7") [mkChord "B" "7"; mkChord "E" ""] 0 = true /\
  checkNonDiatonicWarnings (project_in "F") "p" [mkChord "B" "7"; mkChord "E" ""]
  = Ok [nonDiatonicWarning "F" (mkChord "B" "7") 0;
        secondaryDominantNote (mkChord "B" "7") 0] /\
  severity (nonDiatonicWarning "C" (mkChord "Bb" "") 0) = medium /\
  severity (nonDiatonicWarning "F" (mkChord "B" "7") 0) = medium.
Proof. repeat split. Qed.

(** C2, amended: for a project found with a non-empty key that is not the
    name of a property of [Object.prototype], the check returns, and for each
    chord it emits the medium non-diatonic warning exactly when the root of
    the chord is outside the scale of the key, whether or not the chord is
    recognised as a secondary dominant or as a modal-interchange borrowing;
    each of these two recognitions adds a low note of its own, and nothing
    else is emitted.  In particular, in the key of C, a D7 immediately
    followed by a chord on G gets the secondary-dominant note and no medium
    warning. *)
Theorem nonDiatonic_warnings_by_chord (findOne : string -> option Project)
    (projectId : string) (project : Project) (key : string) (chords : list Chord) :
  findOne projectId = Some project ->
  ProsodyGuard.key project = Some key ->
  key <> "" ->
  is_inherited key = false ->
  exists scale ws,
    getScale key = Own scale /\
    checkNonDiatonicWarnings findOne projectId chords = Ok ws /\
    (forall i chord, nth_error chords i = Some chord ->
       (In (nonDiatonicWarning key chord i) ws <-> array_includes scale (root chord) = false) /\
       (In (secondaryDominantNote chord i) ws <-> isSecondaryDominant chord chords i = true) /\
       (In (modalInterchangeNote chord i) ws <-> isModalInterchange chord key = Ok true)) /\
    (forall w, In w ws ->
       exists i chord, nth_error chords i = Some chord /\ position w = i /\
         (w = nonDiatonicWarning key chord i \/ w = secondaryDominantNote chord i \/
          w = modalInterchangeNote chord i)) /\
    (forall i d next,
       key = "C" -> nth_error chords i = Some d -> root d = "D" -> quality d = "7" ->
       nth_error chords (S i) = Some next -> root next = "G" ->
       In (secondaryDominantNote d i) ws /\
       (forall w, In w ws -> position w = i -> severity w = low)).
Proof.
  intros Hfind Hkey Hne Hk.
  destruct (ReharmProps.getScale_own key Hk) as [scale Hscale].
  change (ReharmEditor.getScale key) with (getScale key) in Hscale.
  destruct (forEachChord_spec key scale chords Hk chords 0) as (ws & Hrun & Hws).
  cbn [Nat.add] in Hws.
  assert (Hat : forall i chord w, nth_error chords i = Some chord -> position w = i ->
                  (In w ws <-> In w (warnings_of_chord key scale chords i chord))).
  { intros i chord w Hi Hp. rewrite Hws. split.
    - intros (j & c' & Hj & Hin).
      pose proof (warnings_of_chord_position _ _ _ _ _ _ Hin) as Hpos.
      assert (j = i) by congruence. subst j. congruence.
    - intros Hin. now exists i, chord. }
  exists scale, ws. split; [exact Hscale|]. split.
  { unfold checkNonDiatonicWarnings. rewrite Hfind, Hkey.
    destruct key as [|a k]; [contradiction|]. rewrite Hscale. exact Hrun. }
  split; [|split].
  - intros i chord Hi.
    rewrite (Hat i chord (nonDiatonicWarning key chord i) Hi eq_refl),
            (Hat i chord (secondaryDominantNote chord i) Hi eq_refl),
            (Hat i chord (modalInterchangeNote chord i) Hi eq_refl),
            !in_warnings_of_chord.
    repeat split.
    + intros [[_ H] | [[H _] | [H _]]]; [exact H | discriminate H | discriminate H].
    + auto.
    + intros [[H _] | [[_ H] | [H _]]]; [discriminate H | exact H | discriminate H].
    + auto.
    + intros [[H _] | [[H _] | [_ H]]]; [discriminate H | discriminate H | exact H].
    + auto.
  - intros w Hin. apply Hws in Hin as (j & chord & Hj & Hin).
    exists j, chord. split; [exact Hj|].
    split; [exact (warnings_of_chord_position _ _ _ _ _ _ Hin)|].
    apply in_warnings_of_chord in Hin. tauto.
  - intros i d next -> Hi Hroot Hq Hnext Hg.
    injection Hscale as <-.
    assert (Hsd : isSecondaryDominant d chords i = true).
    { unfold isSecondaryDominant. rewrite Hq, Hroot, Nat.add_1_r, Hnext, Hg. reflexivity. }
    split.
    + rewrite (Hat i d (secondaryDominantNote d i) Hi eq_refl), in_warnings_of_chord. auto.
    + intros w Hin Hpos. rewrite (Hat i d w Hi Hpos), in_warnings_of_chord in Hin.
      rewrite Hroot in Hin.
      destruct Hin as [[_ H] | [[-> _] | [-> _]]]; [discriminate H | reflexivity | reflexivity].
Qed.

Lemma nonDiatonic_warnings_by_chord_witness :
  exists ws,
    checkNonDiatonicWarnings (project_in "C") "p" [mkChord "D" "7"; mkChord "G" ""] = Ok ws /\
    In (secondaryDominantNote (mkChord "D" "7") 0) ws /\
    (forall w, In w ws -> position w = 0%nat -> severity w = low).
Proof.
  destruct (nonDiatonic_warnings_by_chord (project_in "C") "p" (mkProject (Some "C")) "C"
              [mkChord "D" "7"; mkChord "G" ""] eq_refl eq_refl)
    as (scale & ws & _ & Hrun & _ & _ & Hd7);
    [discriminate | reflexivity |].
  exists ws. split; [exact Hrun|].
  exact (Hd7 0%nat (mkChord "D" "7") (mkChord "G" "") eq_refl eq_refl eq_refl eq_refl
             eq_refl eq_refl).
Defined.

End GuardProps.

(* ===================================================================== *)
(** * Syllables and rhymes of the lyrics editor *)
(* ===================================================================== *)

Module LyricsProps.
Import Js Props JsLemmas.
Import LyricsEditor.

(** ** Syllables *)

Lemma countSyllables_agree (word : string) :
  ProsodyGuard.countSyllables word = LyricsEditor.countSyllables word.
Proof. reflexivity. Qed.

(** The class of [/[aeiouy]/gi] is made of the twelve letters. *)
Lemma vowel_or_y_i_iff (c : ascii) :
  Regex.vowel_or_y_i c = true <-> In c (list_ascii_of_string "aeiouyAEIOUY").
Proof.
  destruct c as [[] [] [] [] [] [] [] []]; vm_compute; split; intros H;
    solve [reflexivity | discriminate H | tauto
          | repeat (destruct H as [H | H]; [discriminate H|]); contradiction].
Qed.

Lemma indicator_of_bool (P : Prop) (b : bool) (z : Z) :
  (b = true <-> P) -> indicator P z -> z = if b then 1%Z else 0%Z.
Proof.
  intros Hb [[HP ->] | [HP ->]]; destruct b; try reflexivity.
  - apply Hb in HP. discriminate.
  - exfalso. apply HP, Hb. reflexivity.
Qed.

(** C5, as the specification states it, fails: the word "beautiful" has
    the three vowel runs "eau", "i" and "u", and both counters answer 4. *)
Lemma syllables_of_beautiful :
  countSyllables_by_runs "beautiful" = 3%Z /\
  LyricsEditor.countSyllables "beautiful" = 4%Z /\
  ProsodyGuard.countSyllables "beautiful" = 4%Z.
Proof. repeat split. Qed.

(** C5, amended: for every word, the syllable counter returns the number
    of characters among a, e, i, o, u, y (in either case, each counted on its
    own), less 1 when the word ends in "e" and that number exceeds 1, less 1
    again when two lower-case vowels other than y stand next to each other
    somewhere in the word, and never less than 1.  Both copies of the
    counter agree. *)
Theorem countSyllables_formula (word : string) (e d : Z) :
  indicator (ends_in_e word /\ (1 < vowelCount word)%Z) e ->
  indicator (has_vowel_pair word) d ->
  LyricsEditor.countSyllables word = Z.max 1 (vowelCount word - e - d) /\
  ProsodyGuard.countSyllables word = LyricsEditor.countSyllables word /\
  (1 <= LyricsEditor.countSyllables word)%Z.
Proof.
  intros He Hd.
  apply (indicator_of_bool _ (endsWith word "e" && (1 <? vowelCount word)%Z)) in He.
  2:{ rewrite andb_true_iff, endsWith_iff, Z.ltb_lt. reflexivity. }
  apply (indicator_of_bool _ (test_run2 Regex.vowel word)) in Hd.
  2:{ apply test_run2_iff. }
  split; [|split; [reflexivity|]].
  - subst e d. unfold LyricsEditor.countSyllables, match_all, vowelCount.
    rewrite class_occurrences_filter.
    destruct (filter Regex.vowel_or_y_i (list_ascii_of_string word)) as [|v vs].
    + cbn [List.length Z.of_nat]. rewrite andb_false_r.
      destruct (test_run2 Regex.vowel word); reflexivity.
    + destruct (endsWith word "e" && (1 <? Z.of_nat (List.length (v :: vs)))%Z),
               (test_run2 Regex.vowel word); f_equal; lia.
  - unfold LyricsEditor.countSyllables.
    destruct (match_all Regex.vowel_or_y_i word); lia.
Qed.

Lemma countSyllables_formula_witness : LyricsEditor.countSyllables "queue" = 2%Z.
Proof.
  destruct (countSyllables_formula "queue" 1 1) as [E _].
  - left. split; [split; [now exists "queu" | reflexivity] | reflexivity].
  - left. split; [|reflexivity]. exists "q", "u"%char, "e"%char, "ue". now repeat split.
  - exact E.
Defined.

(** ** Rhymes *)

Lemma getRhymePattern_short (word : string) :
  (String.length word <= 2)%nat -> getRhymePattern word = word.
Proof.
  intros H. unfold getRhymePattern.
  now destruct (Nat.leb_spec (String.length word) 2); [|lia].
Qed.

Lemma array_includes_iff (l : list string) (x : string) :
  array_includes l x = true <-> In x l.
Proof.
  unfold array_includes. rewrite existsb_exists. split.
  - intros (y & Hy & E). apply String.eqb_eq in E. now subst.
  - intros H. exists x. split; [exact H | apply String.eqb_refl].
Qed.

Lemma words_with_pattern_snoc pat ws w :
  words_with_pattern pat (ws ++ [w]) =
  words_with_pattern pat ws ++ (if String.eqb (getRhymePattern w) pat then [w] else []).
Proof. unfold words_with_pattern. now rewrite filter_app. Qed.

Lemma words_with_pattern_none pat ws :
  (forall w, In w ws -> getRhymePattern w <> pat) -> words_with_pattern pat ws = [].
Proof.
  unfold words_with_pattern. induction ws as [|w ws IH]; intros H; cbn [filter];
    [reflexivity|].
  destruct (String.eqb_spec (getRhymePattern w) pat) as [E|_].
  - exfalso. exact (H w (or_introl eq_refl) E).
  - apply IH. intros w' Hw'. apply H. now right.
Qed.

Lemma pushToGroup_patterns pat word groups :
  map pattern (pushToGroup pat word groups) = map pattern groups.
Proof.
  induction groups as [|g groups IH]; cbn [pushToGroup map]; [reflexivity|].
  destruct (String.eqb (pattern g) pat); cbn [map pattern]; [reflexivity | now rewrite IH].
Qed.

(** With pairwise distinct patterns, [pushToGroup] touches the one group
    of the pattern and nothing else. *)
Lemma pushToGroup_in pat word groups g' :
  NoDup (map pattern groups) ->
  In g' (pushToGroup pat word groups) ->
  (In g' groups /\ pattern g' <> pat) \/
  (exists g, In g groups /\ pattern g = pat /\ pattern g' = pat /\
             words g' = words g ++ [word]).
Proof.
  induction groups as [|g groups IH]; cbn [pushToGroup map]; [contradiction|].
  intros Hnd Hin. inversion Hnd as [|? ? Hnotin Hnd']; subst.
  destruct (String.eqb_spec (pattern g) pat) as [E|E].
  - destruct Hin as [<- | Hin].
    + right. exists g. cbn. auto.
    + left. split; [now right|]. intros E'. apply Hnotin.
      rewrite E, <- E'. now apply in_map.
  - destruct Hin as [<- | Hin].
    + left. split; [now left | exact E].
    + destruct (IH Hnd' Hin) as [[H1 H2] | (g0 & H1 & H2)].
      * left. split; [now right | exact H2].
      * right. exists g0. split; [now right | exact H2].
Qed.

Lemma grouped_step ws st w : grouped ws st -> grouped (ws ++ [w]) (rhymeStep st w).
Proof.
  destruct st as [groups patterns]. intros (Hmap & Hnd & Hwords & Hcover).
  cbn [fst snd] in *. unfold rhymeStep.
  destruct (array_includes patterns (getRhymePattern w)) eqn:Hinc; cbn [negb fst snd].
  - apply array_includes_iff in Hinc. unfold grouped. cbn [fst snd].
    split; [now rewrite pushToGroup_patterns|]. split; [exact Hnd|]. split.
    + intros g' Hg'. rewrite words_with_pattern_snoc.
      rewrite <- Hmap in Hnd.
      destruct (pushToGroup_in _ _ _ _ Hnd Hg') as [[Hin Hne] | (g & Hin & Hp & Hp' & Hw)].
      * rewrite (Hwords _ Hin).
        destruct (String.eqb_spec (getRhymePattern w) (pattern g')); [congruence|].
        now rewrite app_nil_r.
      * rewrite Hw, (Hwords _ Hin), Hp, Hp', String.eqb_refl. reflexivity.
    + intros w' Hw'. apply in_app_iff in Hw' as [Hw' | [<- | []]]; auto.
  - assert (Hnot : ~ In (getRhymePattern w) patterns).
    { intros H. apply array_includes_iff in H. congruence. }
    unfold grouped. cbn [fst snd].
    split; [rewrite map_app, Hmap; reflexivity|]. split.
    { apply NoDup_app; [exact Hnd | repeat constructor; intros [] |].
      intros x Hx [<- | []]. contradiction. }
    split.
    + intros g Hg. rewrite words_with_pattern_snoc.
      apply in_app_iff in Hg as [Hg | [<- | []]].
      * rewrite (Hwords _ Hg).
        destruct (String.eqb_spec (getRhymePattern w) (pattern g)) as [E|_];
          [|now rewrite app_nil_r].
        exfalso. apply Hnot. rewrite E, <- Hmap. now apply in_map.
      * cbn [pattern words]. rewrite String.eqb_refl, words_with_pattern_none; [reflexivity|].
        intros w' Hw' E. apply Hnot. rewrite <- E. now apply Hcover.
    + intros w' Hw'. apply in_app_iff. apply in_app_iff in Hw' as [Hw' | [<- | []]].
      * left. now apply Hcover.
      * right. now left.
Qed.

Lemma grouped_fold ws : forall done st,
  grouped done st -> grouped (done ++ ws) (fold_left rhymeStep ws st).
Proof.
  induction ws as [|w ws IH]; intros done st H; cbn [fold_left].
  - now rewrite app_nil_r.
  - replace (done ++ w :: ws) with ((done ++ [w]) ++ ws) by now rewrite <- app_assoc.
    apply IH, grouped_step, H.
Qed.

(** The groups of the loop are keyed by pairwise distinct patterns, each
    holds the words of its pattern, and every word has its group. *)
Lemma groupWords_grouped ws : grouped ws (fold_left rhymeStep ws ([], [])).
Proof.
  apply (grouped_fold ws [] ([], [])). repeat split; [constructor | contradiction..].
Qed.

Lemma two_matches {A : Type} (f : A -> bool) (l : list A) : forall i j a b,
  nth_error l i = Some a -> nth_error l j = Some b -> i <> j ->
  f a = true -> f b = true -> (2 <= List.length (filter f l))%nat.
Proof.
  induction l as [|x l IH]; intros i j a b Hi Hj Hij Ha Hb.
  - destruct i; discriminate.
  - assert (Hone : forall k c, nth_error l k = Some c -> f c = true ->
                               (1 <= List.length (filter f l))%nat).
    { intros k c Hk Hc. apply nth_error_In in Hk.
      assert (Hin : In c (filter f l)) by (apply filter_In; auto).
      destruct (filter f l); [contradiction | cbn; lia]. }
    destruct i as [|i], j as [|j]; cbn [nth_error] in Hi, Hj; [congruence | | |].
    + injection Hi as ->. cbn [filter]. rewrite Ha. cbn [List.length].
      pose proof (Hone j b Hj Hb). lia.
    + injection Hj as ->. cbn [filter]. rewrite Hb. cbn [List.length].
      pose proof (Hone i a Hi Ha). lia.
    + assert (i <> j) by congruence.
      pose proof (IH i j a b Hi Hj H Ha Hb). cbn [filter].
      destruct (f x); cbn [List.length]; lia.
Qed.

(** C10: when the final words of two lines have at most two characters
    once lower-cased and stripped, each is its own rhyme-pattern key, and the
    two lines fall into the same rhyme group exactly when these words are
    equal; the group that holds such a word is keyed by the word itself. *)
Theorem short_final_words_rhyme (text : string) (i j : nat) (wi wj : string) :
  nth_error (endWords text) i = Some wi ->
  nth_error (endWords text) j = Some wj ->
  i <> j ->
  (String.length wi <= 2)%nat ->
  (String.length wj <= 2)%nat ->
  getRhymePattern wi = wi /\
  getRhymePattern wj = wj /\
  ((exists g, In g (analyzeRhymes text) /\ falls_into wi g /\ falls_into wj g) <-> wi = wj) /\
  (forall g, In g (analyzeRhymes text) -> falls_into wi g -> pattern g = wi).
Proof.
  intros Hi Hj Hij Hli Hlj.
  pose proof (getRhymePattern_short wi Hli) as Hpi.
  pose proof (getRhymePattern_short wj Hlj) as Hpj.
  destruct (groupWords_grouped (endWords text)) as (Hmap & Hnd & Hwords & Hcover).
  fold (groupWords (endWords text)) in Hmap, Hwords.
  assert (Hkey : forall w g, In g (analyzeRhymes text) -> falls_into w g ->
                             getRhymePattern w = pattern g).
  { intros w g Hg Hw. apply filter_In in Hg as [Hg _].
    unfold falls_into in Hw. rewrite (Hwords _ Hg) in Hw.
    apply filter_In in Hw as [_ Hw]. now apply String.eqb_eq in Hw. }
  split; [exact Hpi|]. split; [exact Hpj|]. split; [split|].
  - intros (g & Hg & Hwi & Hwj).
    rewrite <- Hpi, <- Hpj, (Hkey _ _ Hg Hwi), (Hkey _ _ Hg Hwj). reflexivity.
  - intros <-.
    assert (Hin : In (getRhymePattern wi) (map pattern (groupWords (endWords text)))).
    { rewrite Hmap. apply Hcover. eapply nth_error_In, Hi. }
    apply in_map_iff in Hin as (g & Hp & Hg).
    assert (Hmem : In wi (words g)).
    { rewrite (Hwords _ Hg). apply filter_In. split; [eapply nth_error_In, Hi|].
      rewrite Hp. apply String.eqb_refl. }
    exists g. split; [|split; exact Hmem].
    apply filter_In. split; [exact Hg|]. apply Nat.ltb_lt.
    rewrite (Hwords _ Hg). unfold words_with_pattern.
    apply (two_matches _ _ i j wi wi Hi Hj Hij); rewrite Hp; apply String.eqb_refl.
  - intros g Hg Hw. rewrite <- (Hkey _ _ Hg Hw). exact Hpi.
Qed.

Lemma short_final_words_rhyme_witness :
  exists g, In g (analyzeRhymes (two_lines "Let it go" "I GO!")) /\
            In "go" (words g) /\ pattern g = "go".
Proof.
  destruct (short_final_words_rhyme (two_lines "Let it go" "I GO!") 0 1 "go" "go")
    as (_ & _ & [_ H] & Hp);
    [reflexivity | reflexivity | discriminate | cbn; lia | cbn; lia |].
  destruct (H eq_refl) as (g & Hg & Hw & _).
  exists g. split; [exact Hg | split; [exact Hw | exact (Hp g Hg Hw)]].
Defined.

End LyricsProps.

(* ===================================================================== *)
(** * More on scales, numbers and the strategies *)
(* ===================================================================== *)

Module HarmonyProps.
Import Js Props JsLemmas.
Import ReharmEditor.

Ltac distinct_strings :=
  repeat (constructor;
          [cbn [In]; let H := fresh in
           intros H; repeat (destruct H as [H | H]; [discriminate H|]); exact H|]);
  constructor.

(** X1: whenever the lookup of a key yields a scale, the scale has seven
    pairwise distinct notes, and if the key is in the table the scale
    starts on the key itself. *)
Theorem major_scale_shape (key : string) (scale : list string) :
  getScale key = Own scale ->
  List.length scale = 7%nat /\
  NoDup scale /\
  (own majorScales key <> None -> nth_error scale 0 = Some key).
Proof.
  unfold getScale, get.
  destruct (own majorScales key) as [l|] eqn:E.
  - intros [= <-]. revert E. unfold majorScales. cbn [own].
    repeat (match goal with
            | |- context [String.eqb key ?k] =>
                destruct (String.eqb_spec key k) as [-> | _]
            end;
            [intros [= <-]; split; [reflexivity | split; [distinct_strings | reflexivity]]|]).
    discriminate.
  - destruct (is_inherited key); [discriminate|]. intros [= <-].
    split; [reflexivity | split; [distinct_strings | congruence]].
Qed.

Lemma major_scale_shape_witness :
  List.length ["Bb"; "C"; "D"; "Eb"; "F"; "G"; "A"] = 7%nat /\
  NoDup ["Bb"; "C"; "D"; "Eb"; "F"; "G"; "A"] /\
  (own majorScales "Bb" <> None -> nth_error ["Bb"; "C"; "D"; "Eb"; "F"; "G"; "A"] 0 = Some "Bb").
Proof. apply (major_scale_shape "Bb"). reflexivity. Defined.

Lemma of_nat_not_minus_one_local (k : nat) : negb (Z.of_nat k =? -1)%Z = true.
Proof. destruct (Z.eqb_spec (Z.of_nat k) (-1)); [lia | reflexivity]. Qed.

Lemma indexOf_nth (l : list string) (k : nat) (x : string) :
  NoDup l -> nth_error l k = Some x -> indexOf l x = Z.of_nat k.
Proof.
  intros Hnd Hk. unfold indexOf.
  destruct (findIndex_cases (String.eqb x) l)
    as [[_ Hnone] | (pre & t & post & -> & _ & Ht & E)].
  - apply nth_error_In in Hk. rewrite Forall_forall in Hnone.
    specialize (Hnone x Hk). rewrite String.eqb_refl in Hnone. discriminate.
  - rewrite E. apply String.eqb_eq in Ht. subst t. f_equal.
    assert (Hpre : nth_error (pre ++ x :: post) (List.length pre) = Some x)
      by (rewrite nth_error_app2, Nat.sub_diag by lia; reflexivity).
    symmetry. rewrite NoDup_nth_error in Hnd. apply Hnd.
    + apply nth_error_Some. congruence.
    + congruence.
Qed.

Lemma indexOf_absent (l : list string) (x : string) :
  ~ In x l -> indexOf l x = (-1)%Z.
Proof.
  intros H. apply findIndex_from_none. apply Forall_forall. intros y Hy.
  apply String.eqb_neq. congruence.
Qed.

(** X2: in a key that has a scale, the Nashville number of the note at
    place [k] of the scale is the decimal [k + 1], so the number leads back to
    the note; a root outside the scale comes back as it is, from
    [getNashvilleNumber] and from [getRomanNumeral] alike. *)
Theorem nashville_number_round_trip (key : string) (scale : list string) (root : string) :
  getScale key = Own scale ->
  (forall k, nth_error scale k = Some root ->
             (k < 7)%nat /\
             getNashvilleNumber root key = Ok (string_of_Z (Z.of_nat k + 1))) /\
  (~ In root scale ->
   getNashvilleNumber root key = Ok root /\
   forall quality, getRomanNumeral root quality key = Ok root).
Proof.
  intros Hs. destruct (major_scale_shape key scale Hs) as (Hlen & Hnd & _). split.
  - intros k Hk. split.
    + rewrite <- Hlen. apply nth_error_Some. congruence.
    + unfold getNashvilleNumber. rewrite Hs. cbn [value_indexOf].
      rewrite (indexOf_nth _ _ _ Hnd Hk), of_nat_not_minus_one_local. reflexivity.
  - intros Hout. pose proof (indexOf_absent _ _ Hout) as E. split.
    + unfold getNashvilleNumber. rewrite Hs. cbn [value_indexOf]. now rewrite E.
    + intros quality. unfold getRomanNumeral. rewrite Hs. cbn [value_indexOf]. now rewrite E.
Qed.

Lemma nashville_number_round_trip_witness :
  getNashvilleNumber "D" "G" = Ok "5" /\ getNashvilleNumber "Bb" "G" = Ok "Bb".
Proof.
  destruct (nashville_number_round_trip "G" ["G"; "A"; "B"; "C"; "D"; "E"; "F#"] "D" eq_refl)
    as [Hin _].
  destruct (nashville_number_round_trip "G" ["G"; "A"; "B"; "C"; "D"; "E"; "F#"] "Bb" eq_refl)
    as [_ Hout].
  split.
  - exact (proj2 (Hin 4%nat eq_refl)).
  - apply Hout. cbn [In]. intros H.
    repeat (destruct H as [H | H]; [discriminate H|]). exact H.
Defined.

(** X3: the tritone mapping never leaves its table of twelve names,
    whatever the root; on a name of the table it moves six places round the
    table, it is its own inverse and it has no fixed point. *)
Theorem tritone_on_note_names :
  (forall x, In (getTritoneSubstitution x) notes) /\
  (forall k x, nth_error notes k = Some x ->
     nth_error notes ((k + 6) mod 12) = Some (getTritoneSubstitution x) /\
     getTritoneSubstitution (getTritoneSubstitution x) = x /\
     getTritoneSubstitution x <> x).
Proof.
  split; [exact ReharmProps.tritone_stays_in_notes|].
  intros k x.
  do 12 (destruct k as [|k];
         [intros [= <-]; repeat split; intros H; vm_compute in H; discriminate H|]).
  destruct k; discriminate.
Qed.

Lemma tritone_on_note_names_witness :
  getTritoneSubstitution (getTritoneSubstitution "A#") = "A#" /\
  getTritoneSubstitution "A#" <> "A#".
Proof. exact (proj2 (proj2 tritone_on_note_names 10%nat "A#" eq_refl)). Defined.

(** ** Modal interchange *)

Lemma modal_tables_aligned function_ target :
  get modalTargetMap function_ = Own target ->
  exists mc, get MODAL_INTERCHANGE function_ = Own mc.
Proof.
  unfold get, modalTargetMap, MODAL_INTERCHANGE. cbn [own].
  repeat (match goal with
          | |- context [String.eqb function_ ?k] => destruct (String.eqb function_ k)
          end; [intros _; eexists; reflexivity|]).
  destruct (is_inherited function_); discriminate.
Qed.

Lemma getScale_of_inherited (key : string) :
  is_inherited key = true -> getScale key = Inherited.
Proof.
  intros H. unfold getScale, get.
  now rewrite (own_of_inherited majorScales key eq_refl H), H.
Qed.

(** X4: take a key that is not the name of a property of
    [Object.prototype].  When a chord of the progression carries the function
    tag that the modal-interchange table gives as target, the strategy
    replaces the first such chord, in place, by the borrowed chord of the
    table, which takes over the duration and the position of the chord it
    replaces; the other chords stay, and so does the length.  In a key that
    is such a name (as [toString]) the same situation ends in a [TypeError].
    In every key, when no chord matches, the progression is returned as it is
    and no clock is read. *)
Theorem modal_interchange_replacement (key function_ : string) (chords : list Chord)
    (clk : Clock) (n : nat) :
  (forall target pre t post,
      is_inherited key = false ->
      get modalTargetMap function_ = Own target ->
      chords = pre ++ t :: post ->
      first_target target pre t ->
      exists mc d,
        get MODAL_INTERCHANGE function_ = Own mc /\
        generateModalInterchangeProgression key chords function_ clk n
        = Ok (pre ++ d :: post, S n) /\
        root d = entry_root mc /\ quality d = entry_quality mc /\
        extensions d = [] /\ function d = function_ /\
        duration d = duration t /\ position d = position t) /\
  (forall target pre t post,
      is_inherited key = true ->
      get modalTargetMap function_ = Own target ->
      chords = pre ++ t :: post ->
      first_target target pre t ->
      generateModalInterchangeProgression key chords function_ clk n = Throw TypeError) /\
  (Forall (fun c => strict_eq_string (get modalTargetMap function_) (function c) = false)
          chords ->
   generateModalInterchangeProgression key chords function_ clk n = Ok (chords, n)).
Proof.
  split; [|split].
  - intros target pre t post Hk Htarget -> Hfirst.
    destruct (modal_tables_aligned _ _ Htarget) as [mc Hmc].
    pose proof (ReharmProps.target_index_first modalTargetMap _ _ _ _ post Htarget Hfirst) as E.
    rewrite (ReharmProps.modal_with_target _ _ _ _ _ _ _ E), Hmc. cbn [entry_of].
    destruct (ReharmProps.getRomanNumeral_ok (entry_root mc) (entry_quality mc) key Hk) as [r ->].
    destruct (ReharmProps.getNashvilleNumber_ok (entry_root mc) key Hk) as [v ->].
    exists mc. eexists. split; [reflexivity|]. split; [reflexivity|].
    repeat split.
  - intros target pre t post Hk Htarget -> Hfirst.
    destruct (modal_tables_aligned _ _ Htarget) as [mc Hmc].
    pose proof (ReharmProps.target_index_first modalTargetMap _ _ _ _ post Htarget Hfirst) as E.
    rewrite (ReharmProps.modal_with_target _ _ _ _ _ _ _ E), Hmc. cbn [entry_of].
    unfold getRomanNumeral. now rewrite (getScale_of_inherited key Hk).
  - intros H. apply ReharmProps.modal_no_target, ReharmProps.target_index_none, H.
Qed.

Lemma modal_interchange_replacement_witness :
  (exists d,
     generateModalInterchangeProgression "C"
       [chord_V; mkChord "c3" "F" "" [] "IV" "IV" "4" 2%float 6%float] "iv" (fun _ => 0%Z) 0
     = Ok ([chord_V; d], 1%nat) /\
     root d = "Fm" /\ duration d = 2%float /\ position d = 6%float) /\
  generateModalInterchangeProgression "toString"
    [chord_V; mkChord "c3" "F" "" [] "IV" "IV" "4" 2%float 6%float] "iv" (fun _ => 0%Z) 0
  = Throw TypeError.
Proof.
  split.
  - destruct (proj1 (modal_interchange_replacement "C" "iv"
                       [chord_V; mkChord "c3" "F" "" [] "IV" "IV" "4" 2%float 6%float]
                       (fun _ => 0%Z) 0)
                    "IV" [chord_V] (mkChord "c3" "F" "" [] "IV" "IV" "4" 2%float 6%float) []
                    eq_refl eq_refl eq_refl)
      as (mc & d & Hmc & E & Hr & _ & _ & _ & Hd & Hp).
    + split; [|reflexivity]. constructor; [discriminate | constructor].
    + injection Hmc as <-. exists d. repeat split; assumption.
  - apply (proj1 (proj2 (modal_interchange_replacement "toString" "iv"
                           [chord_V; mkChord "c3" "F" "" [] "IV" "IV" "4" 2%float 6%float]
                           (fun _ => 0%Z) 0))
                 "IV" [chord_V] (mkChord "c3" "F" "" [] "IV" "IV" "4" 2%float 6%float) []
                 eq_refl eq_refl eq_refl).
    split; [|reflexivity]. constructor; [discriminate | constructor].
Defined.

(** ** Tritone substitution over a progression *)

Lemma tritoneChord_inv key c clk n c' n' :
  tritoneChord key c clk n = Ok (c', n') ->
  tritone_image c c' /\
  n' = (n + (if is_dominant7 (quality c) then 1 else 0))%nat.
Proof.
  unfold tritoneChord, tritone_image, is_dominant7.
  destruct (includes (quality c) "7" && negb (includes (quality c) "maj7")).
  - unfold bind, date_now.
    destruct (getRomanNumeral _ _ _); [|discriminate]. cbn [lift ret throw].
    destruct (getNashvilleNumber _ _); [|discriminate]. cbn [lift ret throw].
    intros [= <- <-]. cbn. repeat split. lia.
  - intros [= <- <-]. split; [reflexivity | lia].
Qed.



(** ** The list of suggestions *)

Lemma secondarySuggestion_header key chords entry clk n s n' :
  secondarySuggestion key chords entry clk n = Ok (s, n') ->
  suggestion_header s =
  ("secondary_" +& fst entry,
   "Add " +& fst entry +& " (" +& entry_root (snd entry) +& entry_quality (snd entry) +& ")",
   intermediate, "Jazz", 0.8%float).
Proof.
  destruct entry as [function_ chord]. unfold secondarySuggestion.
  intros H. apply bind_inv in H as (l & n1 & _ & H). injection H as <- _. reflexivity.
Qed.

Lemma modalSuggestion_header key chords entry clk n s n' :
  modalSuggestion key chords entry clk n = Ok (s, n') ->
  suggestion_header s =
  ("modal_" +& fst entry,
   "Add " +& fst entry +& " (" +& entry_root (snd entry) +& entry_quality (snd entry) +& ")",
   advanced, "Rock/Pop", 0.7%float).
Proof.
  destruct entry as [function_ chord]. unfold modalSuggestion.
  intros H. apply bind_inv in H as (l & n1 & _ & H). injection H as <- _. reflexivity.
Qed.

Lemma Forall2_map_eq {A B C : Type} (f : A -> C) (g : B -> C) (l : list A) (l' : list B) :
  Forall2 (fun x y => g y = f x) l l' -> map g l' = map f l.
Proof. induction 1 as [|x y l l' H _ IH]; cbn [map]; [reflexivity | now rewrite H, IH]. Qed.

(** X6: whenever the generator returns, it returns twelve suggestions
    whose identifier, description, complexity, style and confidence are the
    same fixed twelve, in the same order, whatever the progression, the key
    and the clock: five secondary dominants at 0.8, five modal interchanges
    at 0.7, the tritone substitution at 0.6 and the extended harmony at 0.9. *)
Theorem suggestion_headers_fixed (key : string) (chords : list Chord)
    (clk : Clock) (n : nat) (l : list ReharmSuggestion) (n' : nat) :
  generateSuggestions key chords clk n = Ok (l, n') ->
  map suggestion_header l = suggestion_headers /\ List.length l = 12%nat.
Proof.
  intros H. unfold generateSuggestions in H.
  apply bind_inv in H as (sec & n1 & Hsec & H).
  apply bind_inv in H as (mod_ & n2 & Hmod & H).
  apply bind_inv in H as (tri & n3 & Htri & H).
  injection H as <- _.
  apply mapM_inv in Hsec. apply mapM_inv in Hmod.
  assert (Es : map suggestion_header sec =
               map (fun entry => ("secondary_" +& fst entry,
                      "Add " +& fst entry +& " (" +& entry_root (snd entry)
                      +& entry_quality (snd entry) +& ")",
                      intermediate, "Jazz", 0.8%float)) SECONDARY_DOMINANTS).
  { apply Forall2_map_eq. eapply Forall2_impl; [|exact Hsec].
    intros e s (m & m' & Hs). exact (secondarySuggestion_header _ _ _ _ _ _ _ Hs). }
  assert (Em : map suggestion_header mod_ =
               map (fun entry => ("modal_" +& fst entry,
                      "Add " +& fst entry +& " (" +& entry_root (snd entry)
                      +& entry_quality (snd entry) +& ")",
                      advanced, "Rock/Pop", 0.7%float)) MODAL_INTERCHANGE).
  { apply Forall2_map_eq. eapply Forall2_impl; [|exact Hmod].
    intros e s (m & m' & Hs). exact (modalSuggestion_header _ _ _ _ _ _ _ Hs). }
  split.
  - rewrite !map_app, Es, Em. reflexivity.
  - apply (f_equal (@List.length _)) in Es. apply (f_equal (@List.length _)) in Em.
    rewrite !length_map in Es, Em. rewrite !length_app, Es, Em. reflexivity.
Qed.

Lemma suggestion_headers_fixed_witness :
  exists l, map suggestion_header l = suggestion_headers /\ List.length l = 12%nat.
Proof.
  eexists. eapply (suggestion_headers_fixed "C" [chord_V7] (fun _ => 0%Z) 0).
  vm_compute. reflexivity.
Defined.

(** ** The warnings of the editor *)

Lemma nonDiatonicFrom_own scale chords :
  nonDiatonicFrom (Own scale) chords = Ok (flat_map (nonDiatonicLine scale) chords).
Proof.
  induction chords as [|c chords IH]; cbn [nonDiatonicFrom flat_map]; [reflexivity|].
  cbn [value_includes]. now rewrite IH.
Qed.

Lemma flat_map_nil_iff {A B : Type} (f : A -> list B) (l : list A) :
  flat_map f l = [] <-> Forall (fun x => f x = []) l.
Proof.
  induction l as [|x l IH]; cbn [flat_map].
  - split; [constructor | reflexivity].
  - split.
    + intros H. apply app_eq_nil in H as [H1 H2]. constructor; [exact H1 | now apply IH].
    + intros H. inversion H as [|? ? H1 H2]; subst. rewrite H1. now apply IH.
Qed.

Lemma adjacent_repeat_cons a b rest :
  adjacent_repeat (a :: b :: rest) <->
  (root a = root b /\ quality a = quality b) \/ adjacent_repeat (b :: rest).
Proof.
  split.
  - intros (pre & x & y & post & E & Hr & Hq). destruct pre as [|p pre].
    + injection E as <- <- _. now left.
    + injection E as <- E. right. now exists pre, x, y, post.
  - intros [[Hr Hq] | (pre & x & y & post & E & Hr & Hq)].
    + now exists [], a, b, rest.
    + exists (a :: pre), x, y, post. cbn. now rewrite E.
Qed.

Lemma repeatedFrom_nil_iff prev rest :
  repeatedFrom prev rest = [] <-> ~ adjacent_repeat (prev :: rest).
Proof.
  revert prev. induction rest as [|curr rest IH]; intros prev; cbn [repeatedFrom].
  - split; [|reflexivity]. intros _ (pre & x & y & post & E & _).
    destruct pre as [|? [|? ?]]; discriminate E.
  - split.
    + intros H Hadj. apply adjacent_repeat_cons in Hadj as [[Hr Hq] | Hadj].
      * rewrite Hr, Hq, !String.eqb_refl in H. discriminate H.
      * apply app_eq_nil in H as [_ H]. apply IH in H. contradiction.
    + intros H.
      assert (E : repeatedFrom curr rest = []).
      { apply IH. intros Hadj. apply H, adjacent_repeat_cons. now right. }
      rewrite E, app_nil_r.
      destruct (String.eqb_spec (root prev) (root curr)) as [Hr|Hr],
               (String.eqb_spec (quality prev) (quality curr)) as [Hq|Hq];
        cbn [andb]; try reflexivity.
      exfalso. apply H, adjacent_repeat_cons. now left.
Qed.

(** X7: in a key that is not the name of a property of [Object.prototype]
    the editor's own check returns, and it returns no warning exactly when
    every chord either has its root in the scale of the key or carries a
    function tag that starts with "b", and no two neighbouring chords share
    root and quality.  Unlike the guard, this check does not report a chord
    tagged as borrowed. *)
Theorem editor_warning_free (key : string) (chords : list Chord) :
  is_inherited key = false ->
  exists scale ws,
    getScale key = Own scale /\
    checkProsodyClashes key chords = Ok ws /\
    (ws = [] <->
     Forall (fun c => array_includes scale (root c) = true \/
                      startsWith (function c) "b" = true) chords /\
     ~ adjacent_repeat chords).
Proof.
  intros Hk. destruct (ReharmProps.getScale_own key Hk) as [scale Hs].
  exists scale. eexists. split; [exact Hs|].
  unfold checkProsodyClashes. rewrite Hs, nonDiatonicFrom_own.
  split; [reflexivity|].
  assert (Hnd : flat_map (nonDiatonicLine scale) chords = [] <->
                Forall (fun c => array_includes scale (root c) = true \/
                                 startsWith (function c) "b" = true) chords).
  { rewrite flat_map_nil_iff. split; apply Forall_impl; intros c; unfold nonDiatonicLine;
      destruct (array_includes scale (root c)), (startsWith (function c) "b"); cbn;
      intuition discriminate. }
  assert (Hrep : match chords with [] => [] | first :: rest => repeatedFrom first rest end = []
                 <-> ~ adjacent_repeat chords).
  { destruct chords as [|first rest]; [|apply repeatedFrom_nil_iff].
    split; [|reflexivity]. intros _ (pre & x & y & post & E & _).
    destruct pre; discriminate E. }
  rewrite <- Hnd, <- Hrep. split.
  - intros H. now apply app_eq_nil in H.
  - intros [-> ->]. reflexivity.
Qed.

Lemma editor_warning_free_witness :
  exists ws, checkProsodyClashes "C"
               [chord_V; mkChord "c4" "Bb" "7" [] "bVII" "" "" 4%float 6%float] = Ok ws
             /\ ws = [].
Proof.
  destruct (editor_warning_free "C"
              [chord_V; mkChord "c4" "Bb" "7" [] "bVII" "" "" 4%float 6%float] eq_refl)
    as (scale & ws & Hs & E & Hiff).
  exists ws. split; [exact E|]. injection Hs as <-. apply Hiff. split.
  - constructor; [left; reflexivity|]. constructor; [right; reflexivity | constructor].
  - intros (pre & x & y & post & Heq & Hr & _).
    assert (Hlen : List.length pre = 0%nat).
    { apply (f_equal (@List.length _)) in Heq. rewrite length_app in Heq.
      cbn [List.length] in Heq. lia. }
    destruct pre; [|discriminate Hlen].
    injection Heq as <- <- _. discriminate Hr.
Defined.

End HarmonyProps.

(* ===================================================================== *)
(** * More on the checks of the guard *)
(* ===================================================================== *)

Module GuardChecks.
Import Js Props JsLemmas.
Import ProsodyGuard.

(** ** Indexed maps *)

Lemma mapi_from_nth {A B : Type} (f : A -> nat -> B) (l : list A) : forall i k,
  nth_error (mapi_from f i l) k = option_map (fun x => f x (i + k)%nat) (nth_error l k).
Proof.
  induction l as [|x l IH]; intros i k; cbn [mapi_from].
  - destruct k; reflexivity.
  - destruct k as [|k]; cbn [nth_error option_map].
    + now rewrite Nat.add_0_r.
    + rewrite IH. now rewrite Nat.add_succ_r.
Qed.

Lemma mapi_from_length {A B : Type} (f : A -> nat -> B) (l : list A) (i : nat) :
  List.length (mapi_from f i l) = List.length l.
Proof. revert i; induction l as [|x l IH]; intros i; cbn; [reflexivity | now rewrite IH]. Qed.

Lemma in_concat_mapi {A B : Type} (f : A -> nat -> list B) (l : list A) (y : B) :
  In y (List.concat (mapi f l)) <->
  exists k x, nth_error l k = Some x /\ In y (f x k).
Proof.
  unfold mapi.
  assert (H : forall i, In y (List.concat (mapi_from f i l)) <->
                        exists k x, nth_error l k = Some x /\ In y (f x (i + k)%nat)).
  { induction l as [|x l IH]; intros i; cbn [mapi_from List.concat].
    - split; [contradiction|]. intros (k & x & Hk & _). destruct k; discriminate.
    - rewrite in_app_iff, IH. split.
      + intros [Hy | (k & x' & Hk & Hy)].
        * exists 0%nat, x. rewrite Nat.add_0_r. now split.
        * exists (S k), x'. rewrite Nat.add_succ_r. now split.
      + intros ([|k] & x' & Hk & Hy).
        * left. injection Hk as <-. now rewrite Nat.add_0_r in Hy.
        * right. exists k, x'. rewrite Nat.add_succ_r in Hy. now split. }
  apply (H 0%nat).
Qed.

(** ** The non-diatonic check at its edges *)

Lemma inherited_names_have_no_scale (key : string) :
  is_inherited key = true -> getScale key = Inherited.
Proof.
  intros H. unfold getScale, get.
  assert (E : own majorScales key = None).
  { revert H. unfold is_inherited, object_prototype_props. cbn [existsb].
    repeat (match goal with
            | |- context [String.eqb key ?k] =>
                destruct (String.eqb_spec key k) as [-> | _]
            end; [intros _; reflexivity|]).
    discriminate. }
  now rewrite E, H.
Qed.

(** X8: the non-diatonic check answers with the empty list, whatever the
    chords, when the project is not found or has no key or the empty key, and
    whatever the project when there is no chord.  When the key of the project
    names a property of [Object.prototype], the check fails with a TypeError
    on every progression that has a chord. *)
Theorem nonDiatonic_check_edges (findOne : string -> option Project)
    (projectId : string) (chords : list Chord) :
  (findOne projectId = None -> checkNonDiatonicWarnings findOne projectId chords = Ok []) /\
  (forall p, findOne projectId = Some p -> key p = None \/ key p = Some "" ->
             checkNonDiatonicWarnings findOne projectId chords = Ok []) /\
  (chords = [] -> checkNonDiatonicWarnings findOne projectId chords = Ok []) /\
  (forall p k, findOne projectId = Some p -> key p = Some k -> k <> "" ->
               is_inherited k = true -> chords <> [] ->
               checkNonDiatonicWarnings findOne projectId chords = Throw TypeError).
Proof.
  unfold checkNonDiatonicWarnings. repeat split.
  - intros ->. reflexivity.
  - intros p -> [-> | ->]; reflexivity.
  - intros ->. destruct (findOne projectId) as [p|]; [|reflexivity].
    destruct (key p) as [[|a k]|]; reflexivity.
  - intros p k -> -> Hne Hk Hch.
    destruct k as [|a k]; [contradiction|].
    rewrite (inherited_names_have_no_scale _ Hk).
    destruct chords as [|c chords]; [contradiction|]. reflexivity.
Qed.

Lemma nonDiatonic_check_edges_witness :
  checkNonDiatonicWarnings (fun _ => None) "p" [mkChord "Bb" ""] = Ok [] /\
  checkNonDiatonicWarnings (project_in "valueOf") "p" [mkChord "C" ""] = Throw TypeError.
Proof.
  split.
  - exact (proj1 (nonDiatonic_check_edges (fun _ => None) "p" [mkChord "Bb" ""]) eq_refl).
  - apply (proj2 (proj2 (proj2 (nonDiatonic_check_edges (project_in "valueOf") "p"
                                   [mkChord "C" ""])))
             (mkProject (Some "valueOf")) "valueOf");
      [reflexivity | reflexivity | discriminate | reflexivity | discriminate].
Defined.

(** ** Secondary dominants *)

Lemma resolutions_not_empty root target :
  own resolutions root = Some target -> target <> "".
Proof.
  unfold resolutions. cbn [own].
  repeat (match goal with
          | |- context [String.eqb root ?k] => destruct (String.eqb root k)
          end; [intros [= <-]; discriminate|]).
  discriminate.
Qed.

Lemma isSecondaryDominant_with_next chord chords i next :
  is_dominant7 (quality chord) = true -> nth_error chords (S i) = Some next ->
  isSecondaryDominant chord chords i
  = strict_eq_string (getSecondaryDominantResolution (root chord)) (root next).
Proof.
  unfold isSecondaryDominant, is_dominant7. rewrite Nat.add_1_r. intros Hq ->.
  destruct (includes (quality chord) "7"), (includes (quality chord) "maj7");
    cbn in *; congruence.
Qed.

(** X9: a chord is taken for a secondary dominant only if its quality has
    a dominant seventh and another chord follows it.  Then, for a root of the
    resolution table (D, A, E, B) the test holds exactly when the next root
    is the table's target; for any other root (not the name of a property of
    [Object.prototype]) the chord is its own resolution, so the test holds
    exactly when the next chord has the same root. *)
Theorem secondary_dominant_resolution (chord : Chord) (chords : list Chord) (i : nat) :
  (is_dominant7 (quality chord) = false -> isSecondaryDominant chord chords i = false) /\
  (nth_error chords (S i) = None -> isSecondaryDominant chord chords i = false) /\
  (forall next,
     is_dominant7 (quality chord) = true -> nth_error chords (S i) = Some next ->
     (forall target, own resolutions (root chord) = Some target ->
        (isSecondaryDominant chord chords i = true <-> root next = target)) /\
     (own resolutions (root chord) = None -> is_inherited (root chord) = false ->
        (isSecondaryDominant chord chords i = true <-> root next = root chord))).
Proof.
  split; [|split].
  - unfold isSecondaryDominant, is_dominant7. intros Hq.
    destruct (includes (quality chord) "7"), (includes (quality chord) "maj7");
      cbn in *; congruence.
  - unfold isSecondaryDominant. rewrite Nat.add_1_r. intros ->.
    now destruct (negb _ || _).
  - intros next Hq Hnext.
    rewrite (isSecondaryDominant_with_next _ _ _ _ Hq Hnext).
    unfold getSecondaryDominantResolution, get. split.
    + intros target Ht. rewrite Ht.
      pose proof (resolutions_not_empty _ _ Ht) as Hne.
      destruct target as [|a t]; [contradiction|]. cbn [or_string strict_eq_string].
      rewrite String.eqb_eq. split; congruence.
    + intros Hnone Hk. rewrite Hnone, Hk. cbn [or_string strict_eq_string].
      rewrite String.eqb_eq. split; congruence.
Qed.

Lemma secondary_dominant_resolution_witness :
  isSecondaryDominant (mkChord "C" "7") [mkChord "C" "7"; mkChord "C" ""] 0 = true /\
  isSecondaryDominant (mkChord "E" "7") [mkChord "E" "7"; mkChord "A" "m"] 0 = true.
Proof.
  split.
  - apply (proj2 (proj2 (proj2 (secondary_dominant_resolution (mkChord "C" "7")
                                  [mkChord "C" "7"; mkChord "C" ""] 0))
                          (mkChord "C" "") eq_refl eq_refl));
      reflexivity.
  - apply (proj1 (proj2 (proj2 (secondary_dominant_resolution (mkChord "E" "7")
                                  [mkChord "E" "7"; mkChord "A" "m"] 0))
                          (mkChord "A" "m") eq_refl eq_refl) "A");
      reflexivity.
Defined.

(** ** Modal interchange *)

Lemma modal_root_outside_scale (key : string) (chord : Chord) (scale : list string) :
  isModalInterchange chord key = Ok true -> getScale key = Own scale ->
  array_includes scale (root chord) = false.
Proof.
  unfold isModalInterchange, get.
  destruct (own modalChords key) as [l|] eqn:E.
  - revert E. unfold modalChords. cbn [own].
    repeat (match goal with
            | |- context [String.eqb key ?k] =>
                destruct (String.eqb_spec key k) as [-> | _]
            end;
            [intros [= <-]; cbn [or_array value_includes];
             intros [= Hin] [= <-]; revert Hin;
             unfold array_includes at 1; cbn [existsb];
             repeat (match goal with
                     | |- context [String.eqb (root chord) ?r] =>
                         destruct (String.eqb_spec (root chord) r) as [-> | _]
                     end; [intros _; reflexivity|]);
             discriminate|]).
    discriminate.
  - destruct (is_inherited key); cbn; discriminate.
Qed.

Lemma inherited_names_have_no_borrowings (key : string) :
  is_inherited key = true -> own modalChords key = None.
Proof. now apply own_of_inherited. Qed.

(** X10: in a key that has no entry in the borrowing table (the table has
    the six keys C, G, D, A, E, B) and that is not the name of a property of
    [Object.prototype], no chord is taken for a modal-interchange borrowing;
    in a key that is such a name (as [toString]) the test throws a
    [TypeError] for every chord; and whenever the test answers true, the root
    of the chord lies outside the scale of the key. *)
Theorem modal_interchange_keys (key : string) (chord : Chord) :
  (own modalChords key = None -> is_inherited key = false ->
   isModalInterchange chord key = Ok false) /\
  (forall scale, isModalInterchange chord key = Ok true -> getScale key = Own scale ->
                 array_includes scale (root chord) = false) /\
  (is_inherited key = true -> isModalInterchange chord key = Throw TypeError).
Proof.
  split; [|split].
  - intros E Hk. unfold isModalInterchange, get. now rewrite E, Hk.
  - intros scale. apply modal_root_outside_scale.
  - intros Hk. unfold isModalInterchange, get.
    rewrite (inherited_names_have_no_borrowings key Hk), Hk. reflexivity.
Qed.

Lemma modal_interchange_keys_witness :
  isModalInterchange (mkChord "Eb" "") "F" = Ok false /\
  array_includes ["G"; "A"; "B"; "C"; "D"; "E"; "F#"] "Eb" = false /\
  isModalInterchange (mkChord "Eb" "") "toString" = Throw TypeError.
Proof.
  split; [|split].
  - exact (proj1 (modal_interchange_keys "F" (mkChord "Eb" "")) eq_refl eq_refl).
  - exact (proj1 (proj2 (modal_interchange_keys "G" (mkChord "Eb" ""))) _ eq_refl eq_refl).
  - exact (proj2 (proj2 (modal_interchange_keys "toString" (mkChord "Eb" ""))) eq_refl).
Defined.

(** X11: in the warnings of the non-diatonic check, the low note about a
    modal interchange never comes alone: the same chord, at the same
    position, also has the medium non-diatonic warning. *)
Theorem modal_note_never_alone (findOne : string -> option Project) (projectId : string)
    (p : Project) (k : string) (chords : list Chord) (ws : list ProsodyWarning)
    (i : nat) (chord : Chord) :
  findOne projectId = Some p ->
  key p = Some k ->
  checkNonDiatonicWarnings findOne projectId chords = Ok ws ->
  nth_error chords i = Some chord ->
  In (modalInterchangeNote chord i) ws ->
  In (nonDiatonicWarning k chord i) ws.
Proof.
  intros Hfind Hkey Hrun Hi Hin.
  destruct (String.eqb_spec k "") as [-> | Hne].
  { unfold checkNonDiatonicWarnings in Hrun. rewrite Hfind, Hkey in Hrun.
    injection Hrun as <-. contradiction. }
  destruct (is_inherited k) eqn:Hk.
  { assert (Hch : chords <> []) by (intros ->; destruct i; discriminate).
    rewrite (proj2 (proj2 (proj2 (nonDiatonic_check_edges findOne projectId chords)))
               p k Hfind Hkey Hne Hk Hch) in Hrun.
    discriminate. }
  destruct (ReharmProps.getScale_own k Hk) as [scale Hscale].
  change (ReharmEditor.getScale k) with (getScale k) in Hscale.
  destruct (GuardProps.forEachChord_spec k scale chords Hk chords 0) as (ws' & Hrun' & Hws).
  unfold checkNonDiatonicWarnings in Hrun. rewrite Hfind, Hkey in Hrun.
  destruct k as [|a k]; [contradiction|]. rewrite Hscale, Hrun' in Hrun.
  injection Hrun as <-. cbn [Nat.add] in Hws.
  apply Hws in Hin as (j & c' & Hj & Hin).
  pose proof (GuardProps.warnings_of_chord_position _ _ _ _ _ _ Hin) as Hpos.
  cbn [position modalInterchangeNote] in Hpos. subst j.
  assert (c' = chord) by congruence. subst c'.
  apply GuardProps.in_warnings_of_chord in Hin
    as [[H _] | [[H _] | [_ Hmodal]]]; [discriminate H | discriminate H |].
  apply Hws. exists i, chord. split; [exact Hi|].
  apply GuardProps.in_warnings_of_chord. left. split; [reflexivity|].
  exact (modal_root_outside_scale _ _ _ Hmodal Hscale).
Qed.

Lemma modal_note_never_alone_witness :
  In (nonDiatonicWarning "G" (mkChord "F" "") 0)
     [nonDiatonicWarning "G" (mkChord "F" "") 0; modalInterchangeNote (mkChord "F" "") 0].
Proof.
  apply (modal_note_never_alone (project_in "G") "p" (mkProject (Some "G")) "G"
           [mkChord "F" ""] _ 0 (mkChord "F" ""));
    [reflexivity | reflexivity | reflexivity | reflexivity | right; left; reflexivity].
Defined.

(** ** Voice leading *)

Lemma voiceLeadingFrom_nil prev i rest : voiceLeadingFrom prev i rest = [].
Proof.
  revert prev i. induction rest as [|curr rest IH]; intros prev i; cbn [voiceLeadingFrom];
    [reflexivity | now rewrite IH].
Qed.

(** X12: the voice-leading check never reports anything: its three
    detectors (parallel fifths, parallel octaves, large leaps) always answer
    no, so the list is empty for every progression. *)
Theorem voice_leading_never_warns (projectId : string) (chords : list Chord) :
  checkVoiceLeading projectId chords = [].
Proof.
  destruct chords as [|first rest]; [reflexivity | apply voiceLeadingFrom_nil].
Qed.

(** ** Rhythm conflicts *)

Lemma find_none_iff {A : Type} (f : A -> bool) (l : list A) :
  List.find f l = None <-> Forall (fun x => f x = false) l.
Proof.
  induction l as [|x l IH]; cbn [List.find].
  - split; [constructor | reflexivity].
  - destruct (f x) eqn:E.
    + split; [discriminate|]. intros H. inversion H; congruence.
    + rewrite IH. split; [now constructor | intros H; now inversion H].
Qed.

Lemma concat_mapi_singletons {A B : Type} (g : nat -> B) (l : list A) : forall i,
  List.concat (mapi_from (fun _ k => [g k]) i l) = map g (seq i (List.length l)).
Proof.
  induction l as [|x l IH]; intros i; cbn; [reflexivity | now rewrite IH].
Qed.

(** X13: the rhythm check reports the melody note at index [i] exactly
    when no event of the rhythm pattern lies within 0.1 of it; it reports
    nothing else, each report carries the index of its note, and with an empty
    rhythm pattern every note is reported, in order. *)
Theorem rhythm_conflicts_flagged (projectId : string) (melodyNotes rhythmPattern : list Timed) :
  (forall i,
     In (rhythmWarning i) (checkRhythmConflicts projectId melodyNotes rhythmPattern) <->
     exists note, nth_error melodyNotes i = Some note /\
                  Forall (fun r => near r note = false) rhythmPattern) /\
  (forall w, In w (checkRhythmConflicts projectId melodyNotes rhythmPattern) ->
     exists i, w = rhythmWarning i /\ (i < List.length melodyNotes)%nat) /\
  (rhythmPattern = [] ->
   checkRhythmConflicts projectId melodyNotes rhythmPattern
   = map rhythmWarning (seq 0 (List.length melodyNotes))).
Proof.
  unfold checkRhythmConflicts. repeat split.
  - intros H. apply in_concat_mapi in H as (k & note & Hk & H).
    destruct (List.find (fun r => near r note) rhythmPattern) eqn:E; [contradiction|].
    destruct H as [H | []]. injection H as ->.
    exists note. split; [exact Hk | now apply find_none_iff].
  - intros (note & Hi & H). apply in_concat_mapi. exists i, note. split; [exact Hi|].
    apply find_none_iff in H. rewrite H. now left.
  - intros w H. apply in_concat_mapi in H as (k & note & Hk & H).
    destruct (List.find (fun r => near r note) rhythmPattern); [contradiction|].
    destruct H as [<- | []]. exists k. split; [reflexivity|].
    apply nth_error_Some. congruence.
  - intros ->. cbn [List.find]. apply (concat_mapi_singletons rhythmWarning melodyNotes 0).
Qed.

Lemma rhythm_conflicts_flagged_witness :
  checkRhythmConflicts "p" [mkTimed 0%float; mkTimed 0.5%float] []
  = [rhythmWarning 0; rhythmWarning 1].
Proof.
  exact (proj2 (proj2 (rhythm_conflicts_flagged "p" [mkTimed 0%float; mkTimed 0.5%float] []))
           eq_refl).
Defined.

(** ** Syllable tokens *)

Lemma chars_append (a b : string) :
  list_ascii_of_string (a +& b) = list_ascii_of_string a ++ list_ascii_of_string b.
Proof. induction a as [|x a IH]; cbn; [reflexivity | now rewrite IH]. Qed.

Lemma chars_map (f : ascii -> ascii) (s : string) :
  list_ascii_of_string (map_chars f s) = map f (list_ascii_of_string s).
Proof. induction s as [|x s IH]; cbn; [reflexivity | now rewrite IH]. Qed.

Lemma chars_filter (f : ascii -> bool) (s : string) :
  list_ascii_of_string (filter_chars f s) = filter f (list_ascii_of_string s).
Proof.
  induction s as [|x s IH]; cbn; [reflexivity|]. destruct (f x); cbn; now rewrite IH.
Qed.

(** A lower-cased code unit that is a word character is one of a-z, 0-9
    and the underscore. *)
Lemma lower_word_is_plain (c : ascii) :
  is_word_char (lower_char c) = true -> plain_char (lower_char c) = true.
Proof.
  destruct c as [[] [] [] [] [] [] [] []]; vm_compute; intros H;
    solve [reflexivity | discriminate H].
Qed.

(** The runs that [words_from] yields are not empty, and their characters
    are word characters of the text (or of the run already begun). *)
Lemma words_from_chars (q : ascii -> bool) (s : string) : forall cur,
  all_chars q cur ->
  (forall c, In c (list_ascii_of_string s) -> is_word_char c = true -> q c = true) ->
  forall w, In w (words_from cur s) -> w <> "" /\ all_chars q w.
Proof.
  induction s as [|c s IH]; intros cur Hcur Hs w; cbn [words_from].
  - destruct (String.eqb_spec cur ""); [contradiction|].
    intros [<- | []]. now split.
  - destruct (is_word_char c) eqn:Hc.
    + apply IH.
      * unfold all_chars. rewrite chars_append. apply Forall_app. split; [exact Hcur|].
        constructor; [|constructor]. apply Hs; [now left | exact Hc].
      * intros c' Hc'. apply Hs. now right.
    + rewrite in_app_iff. intros [H | H].
      * destruct (String.eqb_spec cur ""); [contradiction|].
        destruct H as [<- | []]. now split.
      * revert H. apply IH; [constructor|]. intros c' Hc'. apply Hs. now right.
Qed.

Lemma countSyllables_positive (word : string) : (1 <= countSyllables word)%Z.
Proof. unfold countSyllables. destruct (match_all _ _); lia. Qed.

Lemma analyzeSyllables_agree (text : string) :
  LyricsEditor.analyzeSyllables text = analyzeSyllables text.
Proof. reflexivity. Qed.

Lemma even_mod2 (i : nat) : (i mod 2 =? 0)%nat = Nat.even i.
Proof.
  destruct (Nat.even i) eqn:E.
  - apply Nat.even_spec in E. destruct E as [k ->].
    rewrite Nat.mul_comm, Nat.Div0.mod_mul. reflexivity.
  - assert (Ho : Nat.odd i = true) by (rewrite <- Nat.negb_even, E; reflexivity).
    apply Nat.odd_spec in Ho. destruct Ho as [k ->].
    replace (2 * k + 1)%nat with (1 + k * 2)%nat by lia.
    rewrite Nat.Div0.mod_add. reflexivity.
Qed.

(** X14: the tokens of [analyzeSyllables] are numbered 0, 1, 2, ... in
    order; each word is a non-empty run of the characters a-z, 0-9 and
    underscore, counts at least one syllable, and is unstressed when it has at
    most three characters, else primary at an even index and secondary at an
    odd one.  The guard and the lyrics editor compute the same tokens. *)
Theorem syllable_tokens (text : string) (i : nat) (a : Syllable.Analysis) :
  nth_error (analyzeSyllables text) i = Some a ->
  Syllable.position a = i /\
  Syllable.word a <> "" /\
  all_chars plain_char (Syllable.word a) /\
  (1 <= Syllable.syllables a)%Z /\
  ((String.length (Syllable.word a) <= 3)%nat -> Syllable.stress a = Syllable.unstressed) /\
  ((3 < String.length (Syllable.word a))%nat ->
   Syllable.stress a = if Nat.even i then Syllable.primary else Syllable.secondary) /\
  nth_error (LyricsEditor.analyzeSyllables text) i = Some a.
Proof.
  intros H. assert (Hlast := H). revert H.
  unfold analyzeSyllables, mapi. rewrite mapi_from_nth. cbn [Nat.add].
  destruct (nth_error (match_words (toLowerCase text)) i) as [w|] eqn:Hw; [|discriminate].
  cbn [option_map]. intros [= <-].
  cbn [Syllable.position Syllable.word Syllable.syllables Syllable.stress].
  apply nth_error_In in Hw.
  destruct (words_from_chars plain_char (toLowerCase text) "") with (w := w)
    as [Hne Hplain]; [constructor | | exact Hw |].
  { intros c Hc. unfold toLowerCase in Hc. rewrite chars_map in Hc.
    apply in_map_iff in Hc as (c' & <- & _). apply lower_word_is_plain. }
  split; [reflexivity|]. split; [exact Hne|]. split; [exact Hplain|].
  split; [apply countSyllables_positive|]. unfold determineStress.
  split; [|split].
  - intros Hl. now destruct (Nat.leb_spec (String.length w) 3); [|lia].
  - intros Hl. destruct (Nat.leb_spec (String.length w) 3); [lia|].
    now rewrite even_mod2.
  - exact Hlast.
Qed.

Lemma syllable_tokens_witness :
  Syllable.position (Syllable.mkAnalysis "rivers" 2 Syllable.secondary 1) = 1%nat /\
  Syllable.word (Syllable.mkAnalysis "rivers" 2 Syllable.secondary 1) <> "".
Proof.
  destruct (syllable_tokens "Neon rivers on the avenue" 1
              (Syllable.mkAnalysis "rivers" 2 Syllable.secondary 1) eq_refl)
    as (Hp & Hw & _).
  split; [exact Hp | exact Hw].
Defined.

(** ** Prosody clashes *)

Lemma find_in_numbered {A : Type} (F : A -> nat -> Syllable.Analysis) (ws : list A) :
  (forall w j, Syllable.position (F w j) = j) ->
  forall k i,
    List.find (fun s => (Syllable.position s =? i)%nat) (mapi_from F k ws)
    = if (k <=? i)%nat then nth_error (mapi_from F k ws) (i - k) else None.
Proof.
  intros HF. induction ws as [|w ws IH]; intros k i; cbn [mapi_from List.find].
  - destruct (k <=? i)%nat; [destruct (i - k)%nat|]; reflexivity.
  - rewrite HF. destruct (Nat.eqb_spec k i) as [-> | Hne].
    + rewrite Nat.leb_refl, Nat.sub_diag. reflexivity.
    + rewrite IH. destruct (Nat.leb_spec k i) as [Hle | Hgt].
      * destruct (Nat.leb_spec (S k) i); [|lia].
        replace (i - k)%nat with (S (i - S k)) by lia. reflexivity.
      * destruct (Nat.leb_spec (S k) i); [lia | reflexivity].
Qed.

(** The token that [find] picks for the note at [index] is the token at
    that place. *)
Lemma find_by_position (text : string) (index : nat) :
  List.find (fun s => (Syllable.position s =? index)%nat) (analyzeSyllables text)
  = nth_error (analyzeSyllables text) index.
Proof.
  unfold analyzeSyllables, mapi. rewrite find_in_numbered; [|reflexivity].
  cbn [Nat.leb]. now rewrite Nat.sub_0_r.
Qed.

Lemma in_noteWarnings (text : string) (note : Timed) (index : nat) (w : ProsodyWarning) :
  In w (noteWarnings (analyzeSyllables text) note index) <->
  exists a, nth_error (analyzeSyllables text) index = Some a /\
    ((w = stressedOffBeat a index /\ Syllable.stress a = Syllable.primary /\
      isOnStrongBeat (time note) = false) \/
     (w = unstressedOnBeat a index /\ Syllable.stress a = Syllable.unstressed /\
      isOnStrongBeat (time note) = true)).
Proof.
  unfold noteWarnings. rewrite find_by_position.
  destruct (nth_error (analyzeSyllables text) index) as [a|].
  - rewrite in_app_iff. split.
    + intros H. exists a. split; [reflexivity|].
      destruct (Syllable.stress a), (isOnStrongBeat (time note)); cbn in H;
        intuition (subst; auto).
    + intros (a' & [= <-] & H).
      destruct (Syllable.stress a), (isOnStrongBeat (time note)); cbn;
        intuition (subst; try discriminate; auto).
  - split; [contradiction | intros (a & H & _); discriminate].
Qed.

(** One note gives at most one warning, filed under the index of the
    note, whatever the tokens are. *)
Lemma noteWarnings_at_most_one (tokens : list Syllable.Analysis) (note : Timed) (index : nat) :
  map position (noteWarnings tokens note index) = [] \/
  map position (noteWarnings tokens note index) = [index].
Proof.
  unfold noteWarnings.
  destruct (List.find _ tokens) as [a|]; [|now left].
  destruct (Syllable.stress a), (isOnStrongBeat (time note)); cbn; auto.
Qed.

(** The positions of the warnings of a loop that files at most one warning
    per index, under that index, go up strictly from the first index on. *)
Lemma positions_increase {A : Type} (f : A -> nat -> list ProsodyWarning) (l : list A) :
  (forall x k, map position (f x k) = [] \/ map position (f x k) = [k]) ->
  forall i,
    Forall (fun p => (i <= p)%nat) (map position (List.concat (mapi_from f i l))) /\
    NoDup (map position (List.concat (mapi_from f i l))).
Proof.
  intros Hf. induction l as [|x l IH]; intros i; cbn [mapi_from List.concat map].
  - split; constructor.
  - destruct (IH (S i)) as [Hge Hnd]. rewrite map_app.
    destruct (Hf x i) as [-> | ->]; cbn [app].
    + split; [|exact Hnd].
      eapply Forall_impl; [|exact Hge]. cbn. intros; lia.
    + split.
      * constructor; [lia|]. eapply Forall_impl; [|exact Hge]. cbn. intros; lia.
      * constructor; [|exact Hnd].
        intros Hin. rewrite Forall_forall in Hge. apply Hge in Hin. lia.
Qed.

(** X15: the prosody check of the guard returns nothing when the project
    is not found.  Otherwise it pairs the note at index [i] with the token at
    index [i] and reports exactly two situations: a token with primary stress
    whose note is off the strong beats (medium), and an unstressed token whose
    note is on a strong beat (low).  Hence notes beyond the last token, tokens
    beyond the last note and tokens with secondary stress are never reported.
    No index is reported twice: the positions of the warnings returned are
    pairwise distinct, so that two warnings at the same position are the same
    warning. *)
Theorem prosody_clashes_by_note (findOne : string -> option Project)
    (projectId lyrics : string) (melodyNotes : list Timed) :
  (findOne projectId = None ->
   checkProsodyClashes findOne projectId lyrics melodyNotes = []) /\
  (findOne projectId <> None ->
   forall w,
     In w (checkProsodyClashes findOne projectId lyrics melodyNotes) <->
     exists i note a,
       nth_error melodyNotes i = Some note /\
       nth_error (analyzeSyllables lyrics) i = Some a /\
       ((w = stressedOffBeat a i /\ Syllable.stress a = Syllable.primary /\
         isOnStrongBeat (time note) = false) \/
        (w = unstressedOnBeat a i /\ Syllable.stress a = Syllable.unstressed /\
         isOnStrongBeat (time note) = true))) /\
  (forall w1 w2,
     In w1 (checkProsodyClashes findOne projectId lyrics melodyNotes) ->
     In w2 (checkProsodyClashes findOne projectId lyrics melodyNotes) ->
     position w1 = position w2 -> w1 = w2) /\
  NoDup (map position (checkProsodyClashes findOne projectId lyrics melodyNotes)).
Proof.
  assert (Hchar : forall p w, findOne projectId = Some p ->
            (In w (checkProsodyClashes findOne projectId lyrics melodyNotes) <->
             exists i note a,
               nth_error melodyNotes i = Some note /\
               nth_error (analyzeSyllables lyrics) i = Some a /\
               ((w = stressedOffBeat a i /\ Syllable.stress a = Syllable.primary /\
                 isOnStrongBeat (time note) = false) \/
                (w = unstressedOnBeat a i /\ Syllable.stress a = Syllable.unstressed /\
                 isOnStrongBeat (time note) = true)))).
  { intros p w Hp. unfold checkProsodyClashes. rewrite Hp, in_concat_mapi. split.
    - intros (i & note & Hi & H). apply in_noteWarnings in H as (a & Ha & H).
      now exists i, note, a.
    - intros (i & note & a & Hi & Ha & H). exists i, note. split; [exact Hi|].
      apply in_noteWarnings. now exists a. }
  split; [|split; [|split]].
  - unfold checkProsodyClashes. now intros ->.
  - intros Hsome w. destruct (findOne projectId) as [p|] eqn:Hp; [|contradiction].
    now apply (Hchar p).
  - intros w1 w2 H1 H2 Hpos.
    destruct (findOne projectId) as [p|] eqn:Hp.
    + apply (Hchar p _ eq_refl) in H1 as (i1 & n1 & a1 & Hn1 & Ha1 & H1).
      apply (Hchar p _ eq_refl) in H2 as (i2 & n2 & a2 & Hn2 & Ha2 & H2).
      assert (Hi : i1 = i2).
      { destruct H1 as [(-> & _) | (-> & _)], H2 as [(-> & _) | (-> & _)]; exact Hpos. }
      subst i2. assert (a2 = a1) by congruence. assert (n2 = n1) by congruence. subst.
      destruct H1 as [(-> & S1 & B1) | (-> & S1 & B1)],
               H2 as [(-> & S2 & B2) | (-> & S2 & B2)]; congruence.
    + unfold checkProsodyClashes in H1. rewrite Hp in H1. contradiction.
  - unfold checkProsodyClashes. destruct (findOne projectId); [|constructor].
    apply (positions_increase (noteWarnings (analyzeSyllables lyrics)) melodyNotes).
    intros note k. apply noteWarnings_at_most_one.
Qed.

Lemma prosody_clashes_by_note_witness :
  In (unstressedOnBeat (Syllable.mkAnalysis "on" 1 Syllable.unstressed 2) 2)
     (checkProsodyClashes (project_in "G") "p" "Neon rivers on the avenue"
        [mkTimed 0%float; mkTimed 0.5%float; mkTimed 1%float; mkTimed 1.5%float]).
Proof.
  apply (proj1 (proj2 (prosody_clashes_by_note (project_in "G") "p"
                         "Neon rivers on the avenue"
                         [mkTimed 0%float; mkTimed 0.5%float; mkTimed 1%float;
                          mkTimed 1.5%float]))).
  - discriminate.
  - exists 2%nat, (mkTimed 1%float), (Syllable.mkAnalysis "on" 1 Syllable.unstressed 2).
    split; [reflexivity|]. split; [reflexivity|]. right.
    split; [reflexivity|]. split; [reflexivity | vm_compute; reflexivity].
Defined.

End GuardChecks.

(* ===================================================================== *)
(** * More on the analyses of the lyrics editor *)
(* ===================================================================== *)

Module LyricsChecks.
Import Js Props JsLemmas.
Import LyricsEditor.

(** ** Rhyme groups *)

Lemma pushToGroup_strength pat word groups :
  Forall (fun g => strength g = perfect) groups ->
  Forall (fun g => strength g = perfect) (pushToGroup pat word groups).
Proof.
  induction 1 as [|g groups Hg Hrest IH]; cbn [pushToGroup]; [constructor|].
  destruct (String.eqb (pattern g) pat); constructor; auto.
Qed.

Lemma fold_strength ws : forall st,
  Forall (fun g => strength g = perfect) (fst st) ->
  Forall (fun g => strength g = perfect) (fst (fold_left rhymeStep ws st)).
Proof.
  induction ws as [|w ws IH]; intros st H; cbn [fold_left]; [exact H|].
  apply IH. destruct st as [groups patterns]. unfold rhymeStep. cbn [fst] in H.
  destruct (negb _); cbn [fst].
  - apply Forall_app. split; [exact H | repeat constructor].
  - now apply pushToGroup_strength.
Qed.

(** Dropping elements keeps the keys pairwise distinct. *)
Lemma distinct_keys_after_filter {G K : Type} (key : G -> K) (keep : G -> bool) :
  forall groups, NoDup (map key groups) -> NoDup (map key (filter keep groups)).
Proof.
  intros groups. induction groups as [|g groups IH]; cbn [map filter]; [auto|].
  intros H. inversion H as [|? ? Hnotin Hnd]; subst.
  destruct (keep g); cbn [map]; [|auto].
  constructor; [|auto]. intros Hin. apply Hnotin.
  apply in_map_iff in Hin as (y & Hy & Hin). apply filter_In in Hin as [Hin _].
  rewrite <- Hy. now apply in_map.
Qed.

(** X16: the rhyme groups that are returned have pairwise distinct
    patterns; each holds at least two words, namely all the final words of the
    text that have its pattern, in the order of the lines, and each is
    labelled perfect. *)
Theorem rhyme_groups_well_formed (text : string) :
  NoDup (map pattern (analyzeRhymes text)) /\
  (forall g, In g (analyzeRhymes text) ->
     (2 <= List.length (words g))%nat /\
     strength g = perfect /\
     words g = words_with_pattern (pattern g) (endWords text)).
Proof.
  destruct (LyricsProps.groupWords_grouped (endWords text)) as (Hmap & Hnd & Hwords & _).
  fold (groupWords (endWords text)) in Hmap, Hwords.
  split.
  - unfold analyzeRhymes. apply distinct_keys_after_filter. now rewrite Hmap.
  - intros g Hg. apply filter_In in Hg as [Hg Hlen]. apply Nat.ltb_lt in Hlen.
    split; [lia|]. split; [|now apply Hwords].
    pose proof (fold_strength (endWords text) ([], []) (Forall_nil _)) as Hs.
    rewrite Forall_forall in Hs. now apply Hs.
Qed.

(** X17: two different lines fall into the same returned rhyme group
    exactly when their final words have the same rhyme pattern (the last two
    characters, or the whole word when it is shorter). *)
Theorem same_group_iff_same_pattern (text : string) (i j : nat) (wi wj : string) :
  nth_error (endWords text) i = Some wi ->
  nth_error (endWords text) j = Some wj ->
  i <> j ->
  ((exists g, In g (analyzeRhymes text) /\ falls_into wi g /\ falls_into wj g) <->
   getRhymePattern wi = getRhymePattern wj).
Proof.
  intros Hi Hj Hij.
  destruct (LyricsProps.groupWords_grouped (endWords text)) as (Hmap & Hnd & Hwords & Hcover).
  fold (groupWords (endWords text)) in Hmap, Hwords.
  split.
  - intros (g & Hg & Hwi & Hwj). apply filter_In in Hg as [Hg _].
    unfold falls_into in *. rewrite (Hwords _ Hg) in Hwi, Hwj.
    apply filter_In in Hwi as [_ Hwi]. apply filter_In in Hwj as [_ Hwj].
    apply String.eqb_eq in Hwi, Hwj. congruence.
  - intros Hpat.
    assert (Hin : In (getRhymePattern wi) (map pattern (groupWords (endWords text)))).
    { rewrite Hmap. apply Hcover. eapply nth_error_In, Hi. }
    apply in_map_iff in Hin as (g & Hp & Hg).
    assert (Hfi : String.eqb (getRhymePattern wi) (pattern g) = true)
      by (rewrite Hp; apply String.eqb_refl).
    assert (Hfj : String.eqb (getRhymePattern wj) (pattern g) = true)
      by (rewrite <- Hpat, Hp; apply String.eqb_refl).
    exists g. unfold falls_into. rewrite (Hwords _ Hg). repeat split.
    + apply filter_In. split; [exact Hg|]. apply Nat.ltb_lt. rewrite (Hwords _ Hg).
      exact (LyricsProps.two_matches _ _ i j wi wj Hi Hj Hij Hfi Hfj).
    + apply filter_In. split; [eapply nth_error_In, Hi | exact Hfi].
    + apply filter_In. split; [eapply nth_error_In, Hj | exact Hfj].
Qed.

Lemma same_group_iff_same_pattern_witness :
  exists g, In g (analyzeRhymes (two_lines "The cat sat" "on the mat!")) /\
            falls_into "sat" g /\ falls_into "mat" g.
Proof.
  apply (same_group_iff_same_pattern (two_lines "The cat sat" "on the mat!") 0 1 "sat" "mat");
    [reflexivity | reflexivity | discriminate | reflexivity].
Defined.

(** X18: every final word that the rhyme analysis extracts, and so every
    word listed in a rhyme group, is made of the characters a-z, 0-9 and
    underscore only. *)
Theorem end_words_are_plain (text : string) (w : string) :
  In w (endWords text) -> all_chars plain_char w.
Proof.
  unfold endWords. intros H. apply in_map_iff in H as (line & <- & _).
  unfold endWord, strip_non_word, toLowerCase, all_chars.
  rewrite GuardChecks.chars_filter, GuardChecks.chars_map.
  apply Forall_forall. intros c Hc. apply filter_In in Hc as [Hc Hw].
  apply in_map_iff in Hc as (c' & <- & _). now apply GuardChecks.lower_word_is_plain.
Qed.

Lemma end_words_are_plain_witness : all_chars plain_char "mat".
Proof.
  apply (end_words_are_plain (two_lines "The cat sat" "on the MAT!")).
  right. left. reflexivity.
Defined.

(** ** Rhyme suggestions *)

Lemma length_append (a b : string) :
  String.length (a +& b) = (String.length a + String.length b)%nat.
Proof. induction a as [|x a IH]; cbn; [reflexivity | now rewrite IH]. Qed.

Lemma substring_whole (n : nat) (s : string) :
  (String.length s <= n)%nat -> String.substring 0 n s = s.
Proof.
  revert n; induction s as [|x s IH]; intros n H; destruct n; cbn in *; try reflexivity;
    [lia | rewrite IH; [reflexivity | lia]].
Qed.

Lemma substring_head (a b : string) :
  String.substring 0 (String.length a) (a +& b) = a.
Proof.
  induction a as [|x a IH]; cbn; [destruct b; reflexivity | now rewrite IH].
Qed.

Lemma substring_skip (a b : string) (k n : nat) :
  String.substring (String.length a + k) n (a +& b) = String.substring k n b.
Proof. induction a as [|x a IH]; cbn; [reflexivity | exact IH]. Qed.

Lemma slice_drop_last_app (q e : string) :
  slice_drop_last (String.length e) (q +& e) = q.
Proof.
  unfold slice_drop_last. rewrite length_append.
  replace (String.length q + String.length e - String.length e)%nat with (String.length q)
    by lia.
  apply substring_head.
Qed.

Lemma slice_last_app (q e : string) (n : nat) :
  (n <= String.length e)%nat -> slice_last n (q +& e) = slice_last n e.
Proof.
  intros H. unfold slice_last. rewrite length_append.
  replace (String.length q + String.length e - n)%nat
    with (String.length q + (String.length e - n))%nat by lia.
  apply substring_skip.
Qed.

Lemma slice_last_whole (e : string) : slice_last (String.length e) e = e.
Proof.
  unfold slice_last. rewrite Nat.sub_diag. now apply substring_whole.
Qed.

(** A word ends with at most one ending of the list. *)
Lemma endings_exclusive (word e1 e2 : string) :
  In e1 endings -> In e2 endings ->
  endsWith word e1 = true -> endsWith word e2 = true -> e1 = e2.
Proof.
  assert (Hle : forall a b, In a endings -> In b endings ->
                  (String.length a <= String.length b)%nat ->
                  endsWith word a = true -> endsWith word b = true -> a = b).
  { intros a b Ha Hb Hlen Ea Eb.
    apply endsWith_iff in Ea as [qa Ea]. apply endsWith_iff in Eb as [qb Eb].
    assert (Hs : slice_last (String.length a) b = a).
    { rewrite <- (slice_last_app qb b) by exact Hlen. rewrite <- Eb, Ea.
      rewrite slice_last_app by lia. apply slice_last_whole. }
    assert (Hc : no_ending_nested = true) by (vm_compute; reflexivity).
    unfold no_ending_nested in Hc. rewrite forallb_forall in Hc.
    specialize (Hc a Ha). rewrite forallb_forall in Hc. specialize (Hc b Hb).
    rewrite Hs, String.eqb_refl in Hc.
    destruct (Nat.leb_spec (String.length a) (String.length b)); [|lia].
    cbn [negb] in Hc. rewrite !orb_false_r in Hc. now apply String.eqb_eq. }
  intros H1 H2 E1 E2.
  destruct (Nat.le_ge_cases (String.length e1) (String.length e2)).
  - now apply Hle.
  - symmetry. now apply Hle.
Qed.

Lemma suggest_fold (word : string) (es : list string) : forall acc,
  fold_left (suggestStep word) es acc = acc ++ flat_map (suggestions_for word) es.
Proof.
  induction es as [|e es IH]; intros acc; cbn [fold_left flat_map].
  - now rewrite app_nil_r.
  - rewrite IH. unfold suggestStep, suggestions_for.
    destruct (endsWith word e); [now rewrite <- app_assoc | reflexivity].
Qed.

Lemma at_most_one_ending (word : string) (es : list string) :
  NoDup es -> (forall e, In e es -> In e endings) ->
  (Forall (fun e => endsWith word e = false) es /\ flat_map (suggestions_for word) es = []) \/
  (exists e, In e es /\ endsWith word e = true /\
             flat_map (suggestions_for word) es = suggestions_for word e).
Proof.
  induction es as [|e es IH]; intros Hnd Hsub; cbn [flat_map].
  - left. split; [constructor | reflexivity].
  - inversion Hnd as [|? ? Hnotin Hnd']; subst.
    destruct (endsWith word e) eqn:E.
    + right. exists e. split; [now left|]. split; [exact E|].
      assert (Hrest : flat_map (suggestions_for word) es = []).
      { apply HarmonyProps.flat_map_nil_iff, Forall_forall.
        intros e' He'. unfold suggestions_for.
        destruct (endsWith word e') eqn:E'; [|reflexivity].
        exfalso. apply Hnotin.
        rewrite (endings_exclusive word e e'); auto.
        - apply Hsub. now left.
        - apply Hsub. now right. }
      now rewrite Hrest, app_nil_r.
    + destruct IH as [[Hall Hnil] | (e' & He' & E' & Hflat)];
        [exact Hnd' | intros x Hx; apply Hsub; now right | |].
      * left. split; [now constructor|]. unfold suggestions_for at 1. now rewrite E, Hnil.
      * right. exists e'. split; [now right|]. split; [exact E'|].
        unfold suggestions_for at 1. now rewrite E.
Qed.

(** X19: the rhyme suggestions for a word are either none, when the word
    ends with none of the eight endings, or exactly three: for the one ending
    that the word ends with, the word without that ending followed by "ing",
    "ed" and "er".  The cut at five suggestions never removes anything. *)
Theorem rhyme_suggestions_shape (word : string) :
  (getRhymeSuggestions word = [] /\ Forall (fun e => endsWith word e = false) endings) \/
  (exists e base,
     In e endings /\ word = base +& e /\
     getRhymeSuggestions word = [base +& "ing"; base +& "ed"; base +& "er"]).
Proof.
  unfold getRhymeSuggestions. rewrite suggest_fold. cbn [app].
  destruct (at_most_one_ending word endings) as [[Hall ->] | (e & He & E & ->)].
  - unfold endings.
    repeat (constructor;
            [cbn [In]; let H := fresh in
             intros H; repeat (destruct H as [H | H]; [discriminate H|]); exact H|]).
    constructor.
  - auto.
  - left. now split.
  - right. unfold suggestions_for. rewrite E.
    pose proof E as Hq. apply endsWith_iff in Hq as [q Hq].
    exists e, q. split; [exact He|]. split; [exact Hq|].
    rewrite Hq at 1 2 3. rewrite slice_drop_last_app. reflexivity.
Qed.

(** ** The feet of the meter *)

Lemma glyphs_length (syllables : Z) : (1 <= List.length (glyphs syllables) <= 3)%nat.
Proof.
  unfold glyphs. destruct (syllables =? 1)%Z; [cbn; lia|].
  destruct (syllables =? 2)%Z; cbn; lia.
Qed.

Lemma odd_mod2 (i : nat) : (i mod 2 =? 1)%nat = negb (Nat.even i).
Proof.
  destruct (Nat.even i) eqn:E.
  - apply Nat.even_spec in E. destruct E as [k ->].
    rewrite Nat.mul_comm, Nat.Div0.mod_mul. reflexivity.
  - assert (Ho : Nat.odd i = true) by (rewrite <- Nat.negb_even, E; reflexivity).
    apply Nat.odd_spec in Ho. destruct Ho as [k ->].
    replace (2 * k + 1)%nat with (1 + k * 2)%nat by lia.
    rewrite Nat.Div0.mod_add. reflexivity.
Qed.

Lemma even_succ_negb (i : nat) : Nat.even (S i) = negb (Nat.even i).
Proof. now rewrite Nat.even_succ, <- Nat.negb_even. Qed.

(** The loop over the words of a line: what it appends to the feet, and
    the foot it leaves open. *)
Lemma meterWords_spec (words : list string) : forall index feet foot,
  (if Nat.even index then foot = [] else (1 <= List.length foot <= 3)%nat) ->
  exists F foot',
    meterWords words index feet foot = (feet ++ F, foot') /\
    Forall foot_sized F /\
    (if Nat.even (index + List.length words) then foot' = []
     else (1 <= List.length foot' <= 3)%nat) /\
    (List.length F + (if Nat.even (index + List.length words) then 0 else 1)
     = (List.length words + (if Nat.even index then 1 else 2)) / 2)%nat.
Proof.
  induction words as [|w words IH]; intros index feet foot Hfoot; cbn [meterWords].
  - exists [], foot. rewrite app_nil_r, Nat.add_0_r. cbn [List.length].
    split; [reflexivity|]. split; [constructor|]. split; [exact Hfoot|].
    destruct (Nat.even index); reflexivity.
  - pose proof (glyphs_length (countSyllables w)) as Hg.
    rewrite odd_mod2. cbn [List.length]. rewrite Nat.add_succ_r.
    destruct (Nat.even index) eqn:E; cbn [negb].
    + subst foot. cbn [app].
      assert (E' : Nat.even (S index) = false) by (now rewrite even_succ_negb, E).
      destruct (IH (S index) feet (glyphs (countSyllables w)))
        as (F & foot' & Hrun & HF & Hp & Hc); [now rewrite E'|].
      rewrite E' in Hc.
      change (S index + List.length words)%nat with (S (index + List.length words)) in Hp, Hc.
      exists F, foot'.
      split; [exact Hrun|]. split; [exact HF|]. split; [exact Hp|].
      rewrite Hc. replace (S (List.length words) + 1)%nat with (List.length words + 2)%nat by lia.
      reflexivity.
    + assert (E' : Nat.even (S index) = true) by (now rewrite even_succ_negb, E).
      destruct (IH (S index) (feet ++ [foot ++ glyphs (countSyllables w)]) [])
        as (F & foot' & Hrun & HF & Hp & Hc); [now rewrite E'|].
      rewrite E' in Hc.
      change (S index + List.length words)%nat with (S (index + List.length words)) in Hp, Hc.
      exists ((foot ++ glyphs (countSyllables w)) :: F), foot'.
      split; [rewrite Hrun, <- app_assoc; reflexivity|].
      split; [constructor; [unfold foot_sized; rewrite length_app; lia | exact HF]|].
      split; [exact Hp|]. cbn [List.length].
      replace (S (List.length words) + 2)%nat with (List.length words + 1 + 1 * 2)%nat by lia.
      rewrite Nat.div_add by lia. lia.
Qed.

Lemma meterLine_spec (feet : list (list N)) (line : string) :
  exists F, meterLine feet line = feet ++ F /\ Forall foot_sized F /\
            List.length F = feet_of_line line.
Proof.
  unfold meterLine, feet_of_line.
  destruct (meterWords_spec (split " " (trim line)) 0 feet [] eq_refl)
    as (F & foot' & -> & HF & Hp & Hc).
  cbn [Nat.add Nat.even] in Hp, Hc.
  destruct (Nat.even (List.length (split " " (trim line)))).
  - subst foot'. exists F. split; [reflexivity|]. split; [exact HF | lia].
  - destruct foot' as [|g foot']; [cbn in Hp; lia|].
    exists (F ++ [g :: foot']). split; [now rewrite app_assoc|].
    split.
    + apply Forall_app. split; [exact HF|]. constructor; [unfold foot_sized; lia | constructor].
    + rewrite length_app. cbn [List.length]. lia.
Qed.

Lemma meterFeet_fold (ls : list string) : forall feet,
  exists G, fold_left meterLine ls feet = feet ++ G /\ Forall foot_sized G /\
            List.length G = list_sum (map feet_of_line ls).
Proof.
  induction ls as [|line ls IH]; intros feet; cbn [fold_left map list_sum].
  - exists []. rewrite app_nil_r. repeat split. constructor.
  - destruct (meterLine_spec feet line) as (F & -> & HF & Hlen).
    destruct (IH (feet ++ F)) as (G & -> & HG & HlenG).
    exists (F ++ G). split; [now rewrite app_assoc|].
    split; [now apply Forall_app|]. rewrite length_app.
    change (list_sum (feet_of_line line :: map feet_of_line ls))
      with (feet_of_line line + list_sum (map feet_of_line ls))%nat.
    lia.
Qed.

(** X20: every foot of the meter analysis has between one and six glyphs
    (a foot spans at most two space-separated pieces of a line, each worth one
    to three glyphs); a line with [w] pieces gives [w / 2] feet, rounded up,
    so the number of feet is the sum of these over the non-blank lines and is
    at least the number of non-blank lines. *)
Theorem meter_feet_shape (text : string) :
  Forall foot_sized (meterFeet text) /\
  List.length (meterFeet text) = list_sum (map feet_of_line (lines text)) /\
  (List.length (lines text) <= List.length (meterFeet text))%nat.
Proof.
  assert (Hsum : forall ls, (List.length ls <= list_sum (map feet_of_line ls))%nat).
  { induction ls as [|line ls IH]; cbn [map List.length]; [cbn; lia|].
    change (list_sum (feet_of_line line :: map feet_of_line ls))
      with (feet_of_line line + list_sum (map feet_of_line ls))%nat.
    assert (1 <= feet_of_line line)%nat; [|lia].
    unfold feet_of_line. pose proof (split_not_nil " " (trim line)) as Hne.
    destruct (split " " (trim line)) as [|x l]; [contradiction|].
    cbn [List.length].
    replace (S (List.length l) + 1)%nat with (List.length l + 1 * 2)%nat by lia.
    rewrite Nat.div_add by lia. lia. }
  unfold meterFeet. destruct (meterFeet_fold (lines text) []) as (G & -> & HG & Hlen).
  cbn [app]. split; [exact HG|]. split; [exact Hlen|]. rewrite Hlen. apply Hsum.
Qed.

End LyricsChecks.
